(** * TypedMesh: index-group compilation, in-place vertex mutation and
      dirty-range tracking of [core/src/gl/typedMesh.h].

    The development is a shallow embedding: every C++ function of
    [typedMesh.h] becomes a Rocq function over an explicit mesh state.
    Fixed-width integers are [Z] with the conversion written at the place
    where C++ converts; raw buffers are lists with bounds-checked access,
    an access outside the allocation being reported as [OutOfBounds]. *)

From Stdlib Require Import ZArith List Lia Bool.
From Stdlib.Strings Require Import Byte.
From Stdlib Require Import Ascii.
Import ListNotations.
Open Scope Z_scope.


(** ** Fixed-width integers *)

Module MachineInt.

Definition wrap_unsigned (bits z : Z) : Z := z mod 2 ^ bits.

Definition wrap_signed (bits z : Z) : Z :=
  (z + 2 ^ (bits - 1)) mod 2 ^ bits - 2 ^ (bits - 1).

(** [uint16_t], [GLushort] *)
Definition to_uint16 : Z -> Z := wrap_unsigned 16.
(** [uint32_t] *)
Definition to_uint32 : Z -> Z := wrap_unsigned 32.
(** [size_t] on the 64-bit targets of the project *)
Definition to_size_t : Z -> Z := wrap_unsigned 64.
(** [int], [GLsizei] *)
Definition to_int : Z -> Z := wrap_signed 32.
Definition to_GLsizei : Z -> Z := wrap_signed 32.
(** [GLintptr] is [ptrdiff_t] *)
Definition to_GLintptr : Z -> Z := wrap_signed 64.

Definition is_int (z : Z) : Prop := - 2 ^ 31 <= z < 2 ^ 31.
Definition is_uint16 (z : Z) : Prop := 0 <= z < 2 ^ 16.
Definition is_size_t (z : Z) : Prop := 0 <= z < 2 ^ 64.

End MachineInt.
Import MachineInt.

(** ** Results of operations on raw buffers *)

Inductive outcome (A : Type) : Type :=
| Done (a : A)
| AssertFailed
| OutOfBounds (offset : Z)
| OutOfFuel.

Arguments Done {A} a.
Arguments AssertFailed {A}.
Arguments OutOfBounds {A} offset.
Arguments OutOfFuel {A}.

Definition bind {A B : Type} (x : outcome A) (k : A -> outcome B) : outcome B :=
  match x with
  | Done a => k a
  | AssertFailed => AssertFailed
  | OutOfBounds o => OutOfBounds o
  | OutOfFuel => OutOfFuel
  end.

Notation "x <- c1 ;; c2" := (bind c1 (fun x => c2))
  (at level 61, c1 at next level, right associativity).
Notation "' pat <- c1 ;; c2" := (bind c1 (fun x => match x with pat => c2 end))
  (at level 61, pat pattern, c1 at next level, right associativity).

(** ** Plain-old-data element types

    The template parameters [T] (vertex) and [A] (attribute) are used only
    through [sizeof] and through their object representation, which
    [memcpy] copies. *)

Class Pod (T : Type) : Type := {
  sizeof : Z;
  repr : T -> list byte;
  repr_length : forall v : T, Z.of_nat (length (repr v)) = sizeof;
  sizeof_pos : 0 < sizeof
}.

Arguments sizeof T {_}.

(** Element types used to run the code on concrete meshes: a one-byte
    vertex, a four-byte vertex and a two-byte attribute. *)
#[export] Instance Pod_byte : Pod byte :=
  {| sizeof := 1; repr := fun b => [b];
     repr_length := fun _ => eq_refl; sizeof_pos := eq_refl |}.

Record Vertex4 : Type := { v4_0 : byte; v4_1 : byte; v4_2 : byte; v4_3 : byte }.

#[export] Instance Pod_Vertex4 : Pod Vertex4 :=
  {| sizeof := 4; repr := fun v => [v4_0 v; v4_1 v; v4_2 v; v4_3 v];
     repr_length := fun _ => eq_refl; sizeof_pos := eq_refl |}.

Record Attr2 : Type := { a2_0 : byte; a2_1 : byte }.

#[export] Instance Pod_Attr2 : Pod Attr2 :=
  {| sizeof := 2; repr := fun a => [a2_0 a; a2_1 a];
     repr_length := fun _ => eq_refl; sizeof_pos := eq_refl |}.

(** ** Raw memory *)

Definition len {X : Type} (l : list X) : Z := Z.of_nat (length l).

(** [std::memcpy(dst + offset, src, n)] with [dst] and [src] the whole
    allocations the two pointers point into. *)
Definition memcpy (dst : list byte) (offset : Z) (src : list byte) (n : Z)
  : outcome (list byte) :=
  if (0 <=? offset) && (0 <=? n) && (n <=? len src) && (offset + n <=? len dst)
  then Done (firstn (Z.to_nat offset) dst
             ++ firstn (Z.to_nat n) src
             ++ skipn (Z.to_nat (offset + n)) dst)
  else OutOfBounds offset.

(** [for (size_t offset = start; offset < end; offset += step)
       std::memcpy(data + offset, &value, n);]
    shared by [updateVertices] and [updateAttribute]. *)
Fixpoint write_loop (fuel : nat) (value : list byte) (n step : Z)
    (data : list byte) (offset end_ : Z) : outcome (list byte) :=
  match fuel with
  | O => OutOfFuel
  | S fuel' =>
      if offset <? end_ then
        data' <- memcpy data offset value n ;;
        write_loop fuel' value n step data' (to_size_t (offset + step)) end_
      else Done data
  end.

(** ** Mesh state *)

(** Modelled from the spec: [Range] is declared outside [typedMesh.h]; the
    code reads two [int] members, [start] and [length], here
    [range_start] and [range_length] ([length] being the length of lists). *)
Record Range : Type := { range_start : Z; range_length : Z }.

(** Modelled from the spec: the members of the base class [VboMesh] that
    [typedMesh.h] reads and writes (counts, the two buffers, the draw-group
    list and the dirty range); [vboMesh.h] declares them. *)
Record VboMesh : Type := {
  m_isCompiled : bool;
  m_nVertices : Z;                        (* size_t *)
  m_nIndices : Z;                         (* size_t *)
  m_glVertexData : option (list byte);    (* GLbyte*, None is nullptr *)
  m_glIndexData : option (list Z);        (* GLushort*, None is nullptr *)
  m_vertexOffsets : list (Z * Z);         (* (indexCount, vertexCount) *)
  m_dirty : bool;
  m_dirtyOffset : Z;                      (* GLintptr *)
  m_dirtySize : Z                         (* GLsizei *)
}.

Definition set_glVertexData (d : list byte) (m : VboMesh) : VboMesh :=
  {| m_isCompiled := m_isCompiled m; m_nVertices := m_nVertices m;
     m_nIndices := m_nIndices m; m_glVertexData := Some d;
     m_glIndexData := m_glIndexData m; m_vertexOffsets := m_vertexOffsets m;
     m_dirty := m_dirty m; m_dirtyOffset := m_dirtyOffset m;
     m_dirtySize := m_dirtySize m |}.

Definition set_dirtyRange (offset size : Z) (m : VboMesh) : VboMesh :=
  {| m_isCompiled := m_isCompiled m; m_nVertices := m_nVertices m;
     m_nIndices := m_nIndices m; m_glVertexData := m_glVertexData m;
     m_glIndexData := m_glIndexData m; m_vertexOffsets := m_vertexOffsets m;
     m_dirty := true; m_dirtyOffset := offset; m_dirtySize := size |}.

(** The dirty range as the upload code reads it: nothing, or (offset, size). *)
Definition dirtyRange (m : VboMesh) : option (Z * Z) :=
  if m_dirty m then Some (m_dirtyOffset m, m_dirtySize m) else None.

(** ** Dirty tracker: [TypedMesh<T>::setDirty] *)

Definition setDirty (_byteOffset _byteSize : Z) (m : VboMesh) : VboMesh :=
  if negb (m_dirty m) then
    set_dirtyRange _byteOffset _byteSize m
  else
    let end_ := to_size_t (Z.max (to_GLintptr (m_dirtyOffset m + m_dirtySize m))
                                 (to_GLintptr (_byteOffset + _byteSize))) in
    let offset := Z.min (m_dirtyOffset m) _byteOffset in
    set_dirtyRange offset (to_GLsizei (to_size_t (end_ - offset))) m.

(** ** Mutation *)

Section Mutation.

Context {T : Type} `{PodT : Pod T}.

(** [TypedMesh<T>::updateVertices].  On a null buffer the code runs
    [assert(false)]; the debug build, where the assertion aborts, is the
    one embedded. *)
Definition updateVertices (_vertexRange : Range) (_newVertexValue : T)
    (m : VboMesh) : outcome VboMesh :=
  match m_glVertexData m with
  | None => AssertFailed
  | Some data =>
      let tSize := sizeof T in
      if to_int (range_start _vertexRange + range_length _vertexRange)
           >? to_int (m_nVertices m)
      then Done m
      else
        let start := to_size_t (range_start _vertexRange * tSize) in
        let end_ := to_size_t (start + range_length _vertexRange * tSize) in
        data' <- write_loop (S (length data)) (repr _newVertexValue)
                            tSize tSize data start end_ ;;
        Done (setDirty (to_GLintptr start) (to_GLsizei (to_size_t (end_ - start)))
                       (set_glVertexData data' m))
  end.

(** [TypedMesh<T>::updateAttribute<A>]; the [static_assert] on
    [sizeof(A) <= sizeof(T)] is a build-time condition on the instance. *)
Definition updateAttribute {A : Type} `{PodA : Pod A} (_vertexRange : Range)
    (_newAttributeValue : A) (_attribOffset : Z) (m : VboMesh)
  : outcome VboMesh :=
  match m_glVertexData m with
  | None => AssertFailed
  | Some data =>
      let aSize := sizeof A in
      let tSize := sizeof T in
      if (range_start _vertexRange <? 0) || (range_length _vertexRange <? 1)
      then Done m
      else if to_size_t (to_int (range_start _vertexRange
                                 + range_length _vertexRange))
                >? m_nVertices m
      then Done m
      else if _attribOffset >=? tSize
      then Done m
      else
        let start :=
          to_size_t (range_start _vertexRange * tSize + _attribOffset) in
        let end_ := to_size_t (start + range_length _vertexRange * tSize) in
        data' <- write_loop (S (length data)) (repr _newAttributeValue)
                            aSize tSize data start end_ ;;
        Done (setDirty (to_GLintptr start)
                (to_GLsizei
                   (to_size_t ((range_length _vertexRange - 1) * tSize + aSize)))
                (set_glVertexData data' m))
  end.

End Mutation.

(** [T] is not fixed by the arguments of [updateAttribute]; it is given. *)
Arguments updateAttribute T {PodT A PodA} _vertexRange _newAttributeValue
  _attribOffset m.

(** ** Compilation *)

(** [MeshData<T>]: [offsets] holds one (indexCount, vertexCount) pair per
    batch, [indices] the local 16-bit indices of all batches in order. *)
Record MeshData (T : Type) : Type := {
  offsets : list (Z * Z);
  vertices : list T;
  indices : list Z
}.

Arguments offsets {T} _.
Arguments vertices {T} _.
Arguments indices {T} _.

(** The bytes of a [std::vector<T>]'s storage. *)
Definition array_bytes {T : Type} `{Pod T} (vs : list T) : list byte :=
  concat (map repr vs).

(** [new GLbyte[n]] and [new GLushort[n]]; fresh storage is shown zeroed. *)
Definition new_bytes (n : Z) : list byte := repeat x00 (Z.to_nat n).
Definition new_indices (n : Z) : list Z := repeat 0 (Z.to_nat n).

(** [buf[pos] = v] on the index buffer *)
Definition store_index (buf : list Z) (pos v : Z) : outcome (list Z) :=
  if (0 <=? pos) && (pos <? len buf)
  then Done (firstn (Z.to_nat pos) buf ++ v :: skipn (S (Z.to_nat pos)) buf)
  else OutOfBounds pos.

(** [v[pos]] on a [std::vector] *)
Definition load {X : Type} (v : list X) (pos : Z) : outcome X :=
  if 0 <=? pos then
    match nth_error v (Z.to_nat pos) with
    | Some x => Done x
    | None => OutOfBounds pos
    end
  else OutOfBounds pos.

(** [m_vertexOffsets.emplace_back(a, b)] *)
Definition emplace_back (g : Z * Z) (groups : list (Z * Z)) : list (Z * Z) :=
  groups ++ [g].

(** [auto& offset = m_vertexOffsets.back();
     offset.first += nIndices; offset.second += nVertices;]
    The list is never empty where the code does this. *)
Definition add_to_back (nIndices nVertices : Z) (groups : list (Z * Z))
  : list (Z * Z) :=
  let offset := last groups (0, 0) in
  removelast groups
  ++ [(to_uint32 (fst offset + nIndices), to_uint32 (snd offset + nVertices))].

Section Compile.

Context {T : Type} `{PodT : Pod T}.

(** The macro [MAX_INDEX_VALUE] of [vboMesh.h]. *)
Variable MAX_INDEX_VALUE : Z.

(** [m_vertexLayout->getStride()], an [int]. *)
Variable stride : Z.

(** The inner loop of [compileIndices]:
    [for (size_t i = 0; i < nIndices; i++, _dst++)
       *_dst = _data.indices[src++] + curVertices;] *)
Fixpoint copy_indices (n : nat) (data_indices : list Z) (curVertices : Z)
    (ibuf : list Z) (dst src : Z) : outcome (list Z * Z * Z) :=
  match n with
  | O => Done (ibuf, dst, src)
  | S n' =>
      idx <- load data_indices src ;;
      ibuf' <- store_index ibuf dst (to_uint16 (idx + curVertices)) ;;
      copy_indices n' data_indices curVertices ibuf' (dst + 1) (src + 1)
  end.

(** The loop of [compileIndices] over [_data.offsets]. *)
Fixpoint compileIndices_loop (offs : list (Z * Z)) (data_indices : list Z)
    (groups : list (Z * Z)) (ibuf : list Z) (dst curVertices src : Z)
  : outcome (list (Z * Z) * list Z * Z) :=
  match offs with
  | [] => Done (groups, ibuf, dst)
  | (nIndices, nVertices) :: offs' =>
      let overflow :=
        to_size_t (curVertices + nVertices) >? to_size_t MAX_INDEX_VALUE in
      let groups1 := if overflow then emplace_back (0, 0) groups else groups in
      let curVertices1 := if overflow then 0 else curVertices in
      '(ibuf', dst', src') <-
        copy_indices (Z.to_nat nIndices) data_indices curVertices1 ibuf dst src ;;
      let groups2 := add_to_back nIndices nVertices groups1 in
      compileIndices_loop offs' data_indices groups2 ibuf' dst'
                          (to_size_t (curVertices1 + nVertices)) src'
  end.

(** [TypedMesh<T>::compileIndices]: the state it touches is the draw-group
    list and the index buffer; it returns the advanced [_dst]. *)
Definition compileIndices (_dst : Z) (_data : MeshData T)
    (groups : list (Z * Z)) (ibuf : list Z)
  : outcome (list (Z * Z) * list Z * Z) :=
  compileIndices_loop (offsets _data) (indices _data)
                      (emplace_back (0, 0) groups) ibuf _dst 0 0.

(** First loop of [compile(const std::vector<MeshData<T>>&)]. *)
Definition count_vertices (_meshes : list (MeshData T)) : Z :=
  fold_left (fun n m => to_size_t (n + len (vertices m))) _meshes 0.

Definition count_indices (_meshes : list (MeshData T)) : Z :=
  fold_left (fun n m => to_size_t (n + len (indices m))) _meshes 0.

(** Second loop: the vertex bytes of every mesh, one after the other. *)
Fixpoint copy_meshes (_meshes : list (MeshData T)) (vdata : list byte)
    (byteOffset : Z) : outcome (list byte) :=
  match _meshes with
  | [] => Done vdata
  | m :: rest =>
      let nBytes := to_size_t (len (vertices m) * stride) in
      vdata' <- memcpy vdata byteOffset (array_bytes (vertices m)) nBytes ;;
      copy_meshes rest vdata' (to_size_t (byteOffset + nBytes))
  end.

(** Third loop: [dst = compileIndices(dst, m)] for every mesh. *)
Fixpoint compile_all_indices (_meshes : list (MeshData T))
    (groups : list (Z * Z)) (ibuf : list Z) (dst : Z)
  : outcome (list (Z * Z) * list Z * Z) :=
  match _meshes with
  | [] => Done (groups, ibuf, dst)
  | m :: rest =>
      '(groups', ibuf', dst') <- compileIndices dst m groups ibuf ;;
      compile_all_indices rest groups' ibuf' dst'
  end.

(** [TypedMesh<T>::compile(const std::vector<MeshData<T>>&)] *)
Definition compile_meshes (_meshes : list (MeshData T)) (m : VboMesh)
  : outcome VboMesh :=
  let nVertices := count_vertices _meshes in
  let nIndices := count_indices _meshes in
  vdata <- copy_meshes _meshes (new_bytes (to_size_t (nVertices * stride))) 0 ;;
  '(groups, idata, dst) <-
    compile_all_indices _meshes (m_vertexOffsets m) (new_indices nIndices) 0 ;;
  if dst =? nIndices then
    Done {| m_isCompiled := true; m_nVertices := nVertices;
            m_nIndices := nIndices; m_glVertexData := Some vdata;
            m_glIndexData := Some idata; m_vertexOffsets := groups;
            m_dirty := m_dirty m; m_dirtyOffset := m_dirtyOffset m;
            m_dirtySize := m_dirtySize m |}
  else AssertFailed.

(** The local variables of
    [compile(std::vector<std::vector<T>>&&, std::vector<std::vector<uint16_t>>&&)]
    together with the members its loop writes. *)
Record ArraysState : Type := {
  vertexOffset : Z;                 (* int *)
  indexOffset : Z;                  (* int *)
  vPos : Z;                         (* int *)
  iPos : Z;                         (* int *)
  a_vdata : list byte;
  a_idata : list Z;
  a_groups : list (Z * Z)
}.

(** [for (int idx : indices[i]) m_glIndexData[iPos++] = idx + vertexOffset;] *)
Fixpoint store_indices (cur : list Z) (vertexOffset_ : Z) (idata : list Z)
    (iPos_ : Z) : outcome (list Z * Z) :=
  match cur with
  | [] => Done (idata, iPos_)
  | idx :: cur' =>
      idata' <- store_index idata iPos_ (to_uint16 (to_int (idx + vertexOffset_))) ;;
      store_indices cur' vertexOffset_ idata' (to_int (iPos_ + 1))
  end.

(** One iteration of the loop over [vertices]; [i] is the loop counter. *)
Definition compile_arrays_step (useIndices : bool) (_indices : list (list Z))
    (i : Z) (curVertices : list T) (s : ArraysState) : outcome ArraysState :=
  let nVertices := len curVertices in
  let nBytes := to_int (nVertices * stride) in
  vdata' <- memcpy (a_vdata s) (vPos s) (array_bytes curVertices)
                   (to_size_t nBytes) ;;
  let vPos' := to_int (vPos s + nBytes) in
  if useIndices then
    let overflow :=
      to_size_t (vertexOffset s + nVertices) >? to_size_t MAX_INDEX_VALUE in
    let groups1 :=
      if overflow
      then emplace_back (to_uint32 (indexOffset s), to_uint32 (vertexOffset s))
                        (a_groups s)
      else a_groups s in
    let vertexOffset1 := if overflow then 0 else vertexOffset s in
    let indexOffset1 := if overflow then 0 else indexOffset s in
    cur <- load _indices i ;;
    '(idata', iPos') <- store_indices cur vertexOffset1 (a_idata s) (iPos s) ;;
    Done {| vertexOffset := to_int (vertexOffset1 + nVertices);
            indexOffset := to_int (indexOffset1 + len cur);
            vPos := vPos'; iPos := iPos';
            a_vdata := vdata'; a_idata := idata'; a_groups := groups1 |}
  else
    Done {| vertexOffset := to_int (vertexOffset s + nVertices);
            indexOffset := indexOffset s;
            vPos := vPos'; iPos := iPos s;
            a_vdata := vdata'; a_idata := a_idata s; a_groups := a_groups s |}.

Fixpoint compile_arrays_loop (useIndices : bool) (_indices : list (list Z))
    (i : Z) (_vertices : list (list T)) (s : ArraysState)
  : outcome ArraysState :=
  match _vertices with
  | [] => Done s
  | curVertices :: rest =>
      s' <- compile_arrays_step useIndices _indices i curVertices s ;;
      compile_arrays_loop useIndices _indices (i + 1) rest s'
  end.

(** [TypedMesh<T>::compile(std::vector<std::vector<T>>&&,
                           std::vector<std::vector<uint16_t>>&&)].
    [m_nVertices] and [m_nIndices] are read, not computed, here. *)
Definition compile_arrays (_vertices : list (list T))
    (_indices : list (list Z)) (m : VboMesh) : outcome VboMesh :=
  let useIndices := m_nIndices m >? 0 in
  let s0 := {| vertexOffset := 0; indexOffset := 0; vPos := 0; iPos := 0;
               a_vdata := new_bytes (to_size_t (stride * m_nVertices m));
               a_idata := if useIndices then new_indices (m_nIndices m) else [];
               a_groups := m_vertexOffsets m |} in
  s <- compile_arrays_loop useIndices _indices 0 _vertices s0 ;;
  Done {| m_isCompiled := true; m_nVertices := m_nVertices m;
          m_nIndices := m_nIndices m; m_glVertexData := Some (a_vdata s);
          m_glIndexData :=
            if useIndices then Some (a_idata s) else m_glIndexData m;
          m_vertexOffsets :=
            emplace_back (to_uint32 (indexOffset s), to_uint32 (vertexOffset s))
                         (a_groups s);
          m_dirty := m_dirty m; m_dirtyOffset := m_dirtyOffset m;
          m_dirtySize := m_dirtySize m |}.

End Compile.

(** ** Observations used to state the properties *)

(** The merge of two dirty spans stays within the integer types of the
    tracker: both ends fit [GLintptr], the width of the union fits
    [GLsizei]. *)
Definition union_representable (o s offset size : Z) : Prop :=
  - 2 ^ 63 <= o + s < 2 ^ 63
  /\ - 2 ^ 63 <= offset + size < 2 ^ 63
  /\ - 2 ^ 31 <= Z.max (o + s) (offset + size) - Z.min o offset < 2 ^ 31.

Section Observations.

Context {T : Type} `{PodT : Pod T}.

(** The bytes of vertex number [i] of a buffer. *)
Definition vertex_at (data : list byte) (i : Z) : list byte :=
  firstn (Z.to_nat (sizeof T)) (skipn (Z.to_nat (i * sizeof T)) data).

(** What C6 asks of a call on a mesh of [N] vertices all equal to [v0]:
    the call returns a mesh whose buffer reads [v1] inside the range and
    [v0] outside, and whose dirty range, if the mesh was clean, is the byte
    span of the range. *)
Definition fills_range (N : Z) (v0 v1 : T) (r : Range) (m : VboMesh)
    (res : outcome VboMesh) : Prop :=
  exists m' data',
    res = Done m'
    /\ m_glVertexData m' = Some data'
    /\ (forall i, 0 <= i < N ->
          vertex_at data' i
          = repr (if (range_start r <=? i)
                     && (i <? range_start r + range_length r)
                  then v1 else v0))
    /\ (m_dirty m = false ->
          dirtyRange m'
          = Some (range_start r * sizeof T, range_length r * sizeof T)).

End Observations.

Arguments vertex_at T {PodT} data i.

(** The bytes of one vertex after an attribute [a] has been written at
    byte offset [k] of it. *)
Definition with_attribute {A : Type} `{Pod A} (k : Z) (a : A)
    (vertex : list byte) : list byte :=
  firstn (Z.to_nat k) vertex ++ repr a
  ++ skipn (Z.to_nat (k + sizeof A)) vertex.

(** Modelled from the spec: a mesh object is created empty and uncompiled;
    the constructor of [VboMesh] is not part of [typedMesh.h]. *)
Definition newMesh : VboMesh :=
  {| m_isCompiled := false; m_nVertices := 0; m_nIndices := 0;
     m_glVertexData := None; m_glIndexData := None; m_vertexOffsets := [];
     m_dirty := false; m_dirtyOffset := 0; m_dirtySize := 0 |}.

(** A compiled, clean, unindexed mesh holding the vertices [vs]. *)
Definition mesh_with_vertices {T : Type} `{Pod T} (vs : list T) : VboMesh :=
  {| m_isCompiled := true; m_nVertices := len vs; m_nIndices := 0;
     m_glVertexData := Some (array_bytes vs); m_glIndexData := None;
     m_vertexOffsets := [(0, len vs)];
     m_dirty := false; m_dirtyOffset := 0; m_dirtySize := 0 |}.


(** ** The group partitioner as the spec words it (section 4.1)

    A batch is its list of local indices and its vertex count.  The running
    state is the open group; a batch that would take the open group's vertex
    count past [MAX_INDEX_VALUE] closes it and opens a new one at (0, 0);
    the indices of a batch are rebased by the vertex count of the open
    group at the time the batch is placed. *)

Definition Batch : Type := (list Z * Z)%type.

Section Partitioner.

Variable MAX_INDEX_VALUE : Z.

(** The draw groups: the groups closed on the way, then the open one. *)
Fixpoint grouped (bs : list Batch) (cur : Z * Z) : list (Z * Z) :=
  match bs with
  | [] => [cur]
  | (idx, nVertices) :: rest =>
      if snd cur + nVertices >? MAX_INDEX_VALUE
      then cur :: grouped rest (len idx, nVertices)
      else grouped rest (fst cur + len idx, snd cur + nVertices)
  end.

(** The rebased index stream, from the vertex count of the open group. *)
Fixpoint rebased (bs : list Batch) (curVertices : Z) : list Z :=
  match bs with
  | [] => []
  | (idx, nVertices) :: rest =>
      let base :=
        if curVertices + nVertices >? MAX_INDEX_VALUE then 0 else curVertices in
      map (fun i => to_uint16 (i + base)) idx ++ rebased rest (base + nVertices)
  end.

(** C1 as a check on a group list and an index buffer: every group has at
    most [MAX_INDEX_VALUE] vertices, and the indices in the span of a group,
    which starts where the spans of the groups before it end, are below the
    vertex count of the group. *)
Fixpoint group_bound (groups : list (Z * Z)) (idata : list Z) : bool :=
  match groups with
  | [] => true
  | (nIndices, nVertices) :: rest =>
      (nVertices <=? MAX_INDEX_VALUE)
      && forallb (fun i => i <? nVertices) (firstn (Z.to_nat nIndices) idata)
      && group_bound rest (skipn (Z.to_nat nIndices) idata)
  end.

(** A batch the partitioner can bound: at most [MAX_INDEX_VALUE] vertices,
    and local indices below its own vertex count. *)
Definition batch_ok (b : Batch) : Prop :=
  0 <= snd b <= MAX_INDEX_VALUE
  /\ Forall (fun i => 0 <= i < snd b) (fst b).

End Partitioner.

Definition sum_indexCount (groups : list (Z * Z)) : Z :=
  fold_right (fun g n => fst g + n) 0 groups.

Definition sum_vertexCount (groups : list (Z * Z)) : Z :=
  fold_right (fun g n => snd g + n) 0 groups.

Definition total_indices (bs : list Batch) : Z :=
  fold_right (fun b n => len (fst b) + n) 0 bs.

Definition total_vertices (bs : list Batch) : Z :=
  fold_right (fun b n => snd b + n) 0 bs.

(** The batches of one [MeshData]: [offsets] cuts [indices] into runs. *)
Fixpoint batches_of_offsets (offs : list (Z * Z)) (inds : list Z)
  : list Batch :=
  match offs with
  | [] => []
  | (nIndices, nVertices) :: rest =>
      (firstn (Z.to_nat nIndices) inds, nVertices)
      :: batches_of_offsets rest (skipn (Z.to_nat nIndices) inds)
  end.

Definition batches_of_mesh {T : Type} (d : MeshData T) : list Batch :=
  batches_of_offsets (offsets d) (indices d).

(** The batches of the two parallel arrays. *)
Definition batches_of_arrays {T : Type} (vs : list (list T))
    (inds : list (list Z)) : list Batch :=
  map (fun p => (snd p, len (fst p))) (combine vs inds).

(** A [MeshData] whose [offsets] describe its two arrays: the declared
    index counts add up to [indices.size()], the declared vertex counts to
    [vertices.size()]. *)
Definition mesh_data_ok {T : Type} (d : MeshData T) : Prop :=
  Forall (fun p => 0 <= fst p /\ 0 <= snd p) (offsets d)
  /\ sum_indexCount (offsets d) = len (indices d)
  /\ sum_vertexCount (offsets d) = len (vertices d).

(** What the spec's partitioner yields for a sequence of meshes when it
    is started afresh, at an open (0, 0) group, on every mesh. *)
Definition groups_of_meshes {T : Type} (MAX_INDEX_VALUE : Z)
    (ms : list (MeshData T)) : list (Z * Z) :=
  flat_map (fun d => grouped MAX_INDEX_VALUE (batches_of_mesh d) (0, 0)) ms.

Definition stream_of_meshes {T : Type} (MAX_INDEX_VALUE : Z)
    (ms : list (MeshData T)) : list Z :=
  flat_map (fun d => rebased MAX_INDEX_VALUE (batches_of_mesh d) 0) ms.

Definition vertex_total {T : Type} (ms : list (MeshData T)) : Z :=
  fold_right (fun d n => len (vertices d) + n) 0 ms.

Definition index_total {T : Type} (ms : list (MeshData T)) : Z :=
  fold_right (fun d n => len (indices d) + n) 0 ms.

(** The preconditions of the two entry points.  For a sequence of meshes:
    every [MeshData] is consistent and the totals fit the 32-bit group
    counters.  For parallel arrays: one index array per vertex array, the
    counts [m_nVertices] and [m_nIndices] set by the caller to the totals,
    and buffers within the reach of the [int] positions of the loop. *)
Definition meshes_ok {T : Type} `{Pod T} (ms : list (MeshData T)) : Prop :=
  Forall mesh_data_ok ms
  /\ index_total ms < 2 ^ 32
  /\ vertex_total ms < 2 ^ 32
  /\ vertex_total ms * sizeof T < 2 ^ 64.

Definition arrays_ok {T : Type} `{Pod T} (vs : list (list T))
    (inds : list (list Z)) (m : VboMesh) : Prop :=
  length vs = length inds
  /\ m_nVertices m = len (concat vs)
  /\ m_nIndices m = len (concat inds)
  /\ len (concat vs) * sizeof T < 2 ^ 31
  /\ len (concat inds) < 2 ^ 31.

(** The one [MeshData] that holds the features of two parallel arrays as
    its batches. *)
Definition mesh_of_arrays {T : Type} (vs : list (list T))
    (inds : list (list Z)) : MeshData T :=
  {| offsets := map (fun p => (len (snd p), len (fst p))) (combine vs inds);
     vertices := concat vs;
     indices := concat inds |}.

(** The index list 0, 1, ..., n-1 as a [std::vector<uint16_t>] holds it. *)
Definition iota_uint16 (n : nat) : list Z :=
  map (fun k => to_uint16 (Z.of_nat k)) (seq 0 n).

(** C2 as a check on a compiled mesh of [nVertices] vertices: the batch is
    split over at least two groups, the first taking vertices of the batch,
    at most 65536 of them, and the groups after it the vertices that
    remain, and the first index in the span of the second group is 0. *)
Definition overflow_split (nVertices : Z) (m : VboMesh) : Prop :=
  match m_vertexOffsets m, m_glIndexData m with
  | g1 :: g2 :: rest, Some idata =>
      0 < snd g1 <= 65536
      /\ sum_vertexCount (g2 :: rest) = nVertices - snd g1
      /\ nth_error idata (Z.to_nat (fst g1)) = Some 0
  | _, _ => False
  end.

(** A mesh on which the caller has recorded the counts that the
    parallel-arrays entry point reads. *)
Definition with_counts (nVertices nIndices : Z) (m : VboMesh) : VboMesh :=
  {| m_isCompiled := m_isCompiled m; m_nVertices := nVertices;
     m_nIndices := nIndices; m_glVertexData := m_glVertexData m;
     m_glIndexData := m_glIndexData m; m_vertexOffsets := m_vertexOffsets m;
     m_dirty := m_dirty m; m_dirtyOffset := m_dirtyOffset m;
     m_dirtySize := m_dirtySize m |}.

(** Two features of one vertex each: as two meshes for the grouped-batches
    entry point, as two arrays for the parallel-arrays entry point. *)
Definition one_vertex_mesh : MeshData byte :=
  {| offsets := [(1, 1)]; vertices := [x00]; indices := [0] |}.

(** A triangle strip feature: two vertices, three indices. *)
Definition sample_vertices : list (list byte) := [[x00; x01]].
Definition sample_indices : list (list Z) := [[0; 1; 0]].


(** ** Observations for the properties beyond the claims *)

(** A vertex array with the [count] vertices from [start] replaced by [v]. *)
Definition overwrite {T : Type} (V : list T) (start count : Z) (v : T)
  : list T :=
  firstn (Z.to_nat start) V ++ repeat v (Z.to_nat count)
  ++ skipn (Z.to_nat (start + count)) V.

(** What a mutation keeps of a mesh: the counts, the compiled flag, the
    index buffer, the group list and the size of the vertex buffer. *)
Definition same_layout (m m' : VboMesh) : Prop :=
  m_isCompiled m' = m_isCompiled m
  /\ m_nVertices m' = m_nVertices m
  /\ m_nIndices m' = m_nIndices m
  /\ m_glIndexData m' = m_glIndexData m
  /\ m_vertexOffsets m' = m_vertexOffsets m
  /\ exists data data',
       m_glVertexData m = Some data /\ m_glVertexData m' = Some data'
       /\ length data' = length data.

(** The positions in the vertex buffer that the index buffer addresses when
    it is read group by group: an index of a group counts from the first
    vertex of the group, which comes after the vertices of the groups
    before it. *)
Fixpoint drawn_positions (groups : list (Z * Z)) (idata : list Z)
    (vertexStart : Z) : list Z :=
  match groups with
  | [] => []
  | (nIndices, nVertices) :: rest =>
      map (fun i => vertexStart + i) (firstn (Z.to_nat nIndices) idata)
      ++ drawn_positions rest (skipn (Z.to_nat nIndices) idata)
                         (vertexStart + nVertices)
  end.

(** The positions in the vertex buffer of the vertices that the local
    indices of the batches denote, the vertices of the batches lying one
    batch after the other from [vertexStart]. *)
Fixpoint local_positions (bs : list Batch) (vertexStart : Z) : list Z :=
  match bs with
  | [] => []
  | (idx, nVertices) :: rest =>
      map (fun i => vertexStart + i) idx
      ++ local_positions rest (vertexStart + nVertices)
  end.

Fixpoint mesh_positions {T : Type} (ms : list (MeshData T)) (vertexStart : Z)
  : list Z :=
  match ms with
  | [] => []
  | d :: rest =>
      local_positions (batches_of_mesh d) vertexStart
      ++ mesh_positions rest (vertexStart + len (vertices d))
  end.

(** The number of indices the [offsets] of the meshes declare. *)
Definition declared_indices {T : Type} (ms : list (MeshData T)) : Z :=
  fold_right (fun d n => sum_indexCount (offsets d) + n) 0 ms.

(** A [MeshData] whose [offsets] stay within its index array: the index
    counts it declares are not negative and add up to at most
    [indices.size()]. *)
Definition offsets_within {T : Type} (d : MeshData T) : Prop :=
  Forall (fun p => 0 <= fst p /\ 0 <= snd p) (offsets d)
  /\ sum_indexCount (offsets d) <= len (indices d)
  /\ sum_vertexCount (offsets d) < 2 ^ 32.

(** * Scene: names, lookups and paths (scene/scene.cpp) *)

(** A [std::string] is the sequence of its characters; [operator==] compares
    two of them character by character. *)
Definition str : Type := list ascii.

Fixpoint str_eqb (a b : str) : bool :=
  match a, b with
  | [], [] => true
  | x :: a', y :: b' => Ascii.eqb x y && str_eqb a' b'
  | _, _ => false
  end.

(** [std::find(first, last, value) - first]: the position of the first
    element equal to [value], the length of the sequence (the end iterator)
    when there is none. *)
Fixpoint std_find (l : list str) (value : str) : nat :=
  match l with
  | [] => 0%nat
  | x :: rest => if str_eqb x value then 0%nat else S (std_find rest value)
  end.

(** [s.find_last_of(c)] for a single character: the last position of [c]
    in [s]; [None] is [std::string::npos]. *)
Fixpoint find_last_of (s : str) (c : ascii) : option nat :=
  match s with
  | [] => None
  | x :: rest =>
      match find_last_of rest c with
      | Some i => Some (S i)
      | None => if Ascii.eqb x c then Some 0%nat else None
      end
  end.

(** [s.substr(pos, count)]: [None] is the [std::out_of_range] it throws for
    [pos > s.size()]; a [count] of [None] is the default [npos]. *)
Definition substr (s : str) (pos : nat) (count : option nat) : option str :=
  if Nat.ltb (length s) pos then None
  else Some (match count with
             | Some n => firstn n (skipn pos s)
             | None => skipn pos s
             end).

Fixpoint starts_with (prefix s : str) : bool :=
  match prefix, s with
  | [], _ => true
  | p :: prefix', c :: s' => Ascii.eqb p c && starts_with prefix' s'
  | _ :: _, [] => false
  end.

(** [std::regex_search(_path, match, r)] for the pattern of the constructor,
    [^(http|https):/]: the path begins with [http:/] or with [https:/]. *)
Definition regex_search_url (_path : str) : bool :=
  starts_with ["h"; "t"; "t"; "p"; ":"; "/"]%char _path
  || starts_with ["h"; "t"; "t"; "p"; "s"; ":"; "/"]%char _path.

Module Scene.

(** The two paths a scene keeps. *)
Record Paths : Type := {
  m_resourceRoot : str;
  m_path : str
}.

(** [Scene::Scene(const std::string& _path)], the part that splits the path
    into resource root and file name. *)
Definition Scene (_path : str) : option Paths :=
  if regex_search_url _path then
    Some {| m_resourceRoot := []; m_path := _path |}
  else
    match find_last_of _path "/"%char with
    | None => Some {| m_resourceRoot := []; m_path := _path |}
    | Some split =>
        match substr _path 0 (Some (split + 1)%nat) with
        | None => None
        | Some root =>
            match substr _path (split + 1) None with
            | None => None
            | Some path => Some {| m_resourceRoot := root; m_path := path |}
            end
        end
    end.

(** [Scene::getIdForName]: the iterator difference is narrowed to the [int]
    the function returns. *)
Definition getIdForName (m_names : list str) (_name : str) : Z :=
  let it := std_find m_names _name in
  if Nat.eqb it (length m_names) then -1
  else to_int (Z.of_nat it).

(** [Scene::addIdForName], returning the name list it leaves and the id. *)
Definition addIdForName (m_names : list str) (_name : str) : list str * Z :=
  let id := getIdForName m_names _name in
  if id <? 0 then
    let m_names' := m_names ++ [_name] in
    (m_names', to_int (to_size_t (len m_names' - 1)))
  else (m_names, id).

Section Lookups.

Variables Style Light DataSource : Type.
Variable getName : Style -> str.
Variable getInstanceName : Light -> str.
Variable name : DataSource -> str.

(** [Scene::findStyle], both overloads; [None] is [nullptr]. *)
Fixpoint findStyle (m_styles : list Style) (_name : str) : option Style :=
  match m_styles with
  | [] => None
  | style :: rest =>
      if str_eqb (getName style) _name then Some style
      else findStyle rest _name
  end.

(** [Scene::findLight]. *)
Fixpoint findLight (m_lights : list Light) (_name : str) : option Light :=
  match m_lights with
  | [] => None
  | light :: rest =>
      if str_eqb (getInstanceName light) _name then Some light
      else findLight rest _name
  end.

(** [Scene::getDataSource], [std::find_if] with the name test. *)
Fixpoint getDataSource (m_dataSources : list DataSource) (name_ : str)
  : option DataSource :=
  match m_dataSources with
  | [] => None
  | s :: rest =>
      if str_eqb (name s) name_ then Some s
      else getDataSource rest name_
  end.

End Lookups.

End Scene.

(** What a lookup by name returns: the first element of the list with
    that name, or nothing when no element has it. *)
Definition first_named {X : Type} (key : X -> str) (l : list X) (n : str)
    (r : option X) : Prop :=
  match r with
  | Some x =>
      exists before after,
        l = before ++ x :: after /\ key x = n
        /\ Forall (fun y => key y <> n) before
  | None => Forall (fun y => key y <> n) l
  end.

(** * Font descriptions (text/fontContext.h) *)

Module FontDescription.

Inductive FontType : Type := wof | ttf.

(** [FontDescription::Alias]: [family + "_" + weight + "_" + style]. *)
Definition Alias (family style weight : str) : str :=
  (((family ++ ["_"]%char) ++ weight) ++ ["_"]%char) ++ style.

(** [FontDescription::BundleAlias]. *)
Definition BundleAlias (family style weight : str) (type : FontType) : str :=
  let alias := ((family ++ ["-"]%char) ++ weight) ++ style in
  match type with
  | wof => alias ++ ["."; "w"; "o"; "f"; "f"]%char
  | ttf => alias ++ ["."; "t"; "t"; "f"]%char
  end.

(** The description and its constructor. *)
Record FontDescription : Type := {
  uri : str;
  alias : str;
  bundleAlias : str;
  type : FontType
}.

Definition new (family style weight uri_ : str) (type_ : FontType)
  : FontDescription :=
  {| uri := uri_;
     alias := Alias family style weight;
     bundleAlias := BundleAlias family style weight type_;
     type := type_ |}.

End FontDescription.

(** * Facts *)

(** ** Fixed-width integers *)

Module MachineIntFacts.

Lemma wrap_unsigned_small bits z :
  0 <= z < 2 ^ bits -> wrap_unsigned bits z = z.
Proof. intros H. unfold wrap_unsigned. now apply Z.mod_small. Qed.

Lemma wrap_unsigned_range bits z :
  0 <= bits -> 0 <= wrap_unsigned bits z < 2 ^ bits.
Proof.
  intros Hb. unfold wrap_unsigned. apply Z.mod_pos_bound.
  now apply Z.pow_pos_nonneg.
Qed.

Lemma wrap_unsigned_le bits z :
  0 <= bits -> 0 <= z -> wrap_unsigned bits z <= z.
Proof.
  intros Hb Hz. unfold wrap_unsigned. apply Z.mod_le; [assumption|].
  now apply Z.pow_pos_nonneg.
Qed.

Lemma wrap_unsigned_shift bits z k :
  wrap_unsigned bits (z + k * 2 ^ bits) = wrap_unsigned bits z.
Proof.
  unfold wrap_unsigned.
  destruct (Z.eq_dec (2 ^ bits) 0) as [E|E].
  - rewrite E, Z.mul_0_r, Z.add_0_r. reflexivity.
  - now apply Z.mod_add.
Qed.

Lemma wrap_signed_small bits z :
  0 < bits -> - 2 ^ (bits - 1) <= z < 2 ^ (bits - 1) -> wrap_signed bits z = z.
Proof.
  intros Hb H. unfold wrap_signed.
  assert (E : 2 ^ bits = 2 * 2 ^ (bits - 1)).
  { replace bits with (Z.succ (bits - 1)) at 1 by lia.
    rewrite Z.pow_succ_r by lia. reflexivity. }
  rewrite Z.mod_small by lia. lia.
Qed.

Lemma wrap_signed_shift bits z k :
  wrap_signed bits (z + k * 2 ^ bits) = wrap_signed bits z.
Proof.
  unfold wrap_signed.
  replace (z + k * 2 ^ bits + 2 ^ (bits - 1))
    with (z + 2 ^ (bits - 1) + k * 2 ^ bits) by ring.
  destruct (Z.eq_dec (2 ^ bits) 0) as [E|E].
  - rewrite E, Z.mul_0_r, Z.add_0_r. reflexivity.
  - rewrite Z.mod_add by assumption. reflexivity.
Qed.

Lemma to_size_t_small z : 0 <= z < 2 ^ 64 -> to_size_t z = z.
Proof. apply wrap_unsigned_small. Qed.

Lemma to_uint32_small z : 0 <= z < 2 ^ 32 -> to_uint32 z = z.
Proof. apply wrap_unsigned_small. Qed.

Lemma to_uint16_small z : 0 <= z < 2 ^ 16 -> to_uint16 z = z.
Proof. apply wrap_unsigned_small. Qed.

Lemma to_uint16_le z : 0 <= z -> 0 <= to_uint16 z <= z.
Proof.
  intros Hz. split.
  - apply (wrap_unsigned_range 16 z). lia.
  - apply wrap_unsigned_le; lia.
Qed.

Lemma to_int_small z : - 2 ^ 31 <= z < 2 ^ 31 -> to_int z = z.
Proof. intros H. apply wrap_signed_small; [lia | exact H]. Qed.

Lemma to_GLsizei_small z : - 2 ^ 31 <= z < 2 ^ 31 -> to_GLsizei z = z.
Proof. apply to_int_small. Qed.

Lemma to_GLintptr_small z : - 2 ^ 63 <= z < 2 ^ 63 -> to_GLintptr z = z.
Proof. intros H. apply wrap_signed_small; [lia | exact H]. Qed.


(** Narrowing a [size_t] difference to [GLsizei] or [GLintptr] forgets the
    intermediate reduction modulo [2^64]. *)
Lemma to_GLsizei_size_t z : to_GLsizei (to_size_t z) = to_GLsizei z.
Proof.
  unfold to_size_t, wrap_unsigned.
  rewrite (Z.mod_eq z (2 ^ 64)) by lia.
  replace (z - 2 ^ 64 * (z / 2 ^ 64))
    with (z + (- (z / 2 ^ 64) * 2 ^ 32) * 2 ^ 32) by lia.
  apply (wrap_signed_shift 32).
Qed.

Lemma to_GLintptr_size_t z : to_GLintptr (to_size_t z) = to_GLintptr z.
Proof.
  unfold to_size_t, wrap_unsigned.
  rewrite (Z.mod_eq z (2 ^ 64)) by lia.
  replace (z - 2 ^ 64 * (z / 2 ^ 64))
    with (z + (- (z / 2 ^ 64)) * 2 ^ 64) by lia.
  apply (wrap_signed_shift 64).
Qed.

Lemma to_GLsizei_shift64 z k : to_GLsizei (z + k * 2 ^ 64) = to_GLsizei z.
Proof.
  replace (z + k * 2 ^ 64) with (z + (k * 2 ^ 32) * 2 ^ 32) by lia.
  apply (wrap_signed_shift 32).
Qed.

End MachineIntFacts.
Import MachineIntFacts.

(** ** Lists as buffers *)

Lemma firstn_app_exact {X : Type} (a b : list X) :
  firstn (length a) (a ++ b) = a.
Proof.
  rewrite firstn_app, firstn_all, Nat.sub_diag, firstn_O. apply app_nil_r.
Qed.

Lemma skipn_app_exact {X : Type} (a b : list X) :
  skipn (length a) (a ++ b) = b.
Proof.
  rewrite skipn_app, skipn_all, Nat.sub_diag. reflexivity.
Qed.

Lemma len_app {X : Type} (a b : list X) : len (a ++ b) = len a + len b.
Proof. unfold len. rewrite length_app. lia. Qed.

Lemma len_map {X Y : Type} (f : X -> Y) (l : list X) : len (map f l) = len l.
Proof. unfold len. now rewrite length_map. Qed.

Lemma len_nonneg {X : Type} (a : list X) : 0 <= len a.
Proof. unfold len. lia. Qed.

Lemma len_repeat {X : Type} (x : X) n : len (repeat x n) = Z.of_nat n.
Proof. unfold len. now rewrite repeat_length. Qed.

Lemma len_snoc {X : Type} (a : list X) (x : X) : len (a ++ [x]) = len a + 1.
Proof. rewrite len_app. reflexivity. Qed.

Lemma len_firstn_le {X : Type} (n : Z) (l : list X) :
  0 <= n <= len l -> len (firstn (Z.to_nat n) l) = n.
Proof. intros H. unfold len in *. rewrite length_firstn. lia. Qed.

Lemma len_skipn {X : Type} (n : Z) (l : list X) :
  0 <= n <= len l -> len (skipn (Z.to_nat n) l) = len l - n.
Proof. intros H. unfold len in *. rewrite length_skipn. lia. Qed.

Lemma len_skipn' {X : Type} (n : nat) (l : list X) :
  Z.of_nat n <= len l -> len (skipn n l) = len l - Z.of_nat n.
Proof. intros H. unfold len in *. rewrite length_skipn. lia. Qed.

(** A copy that replaces the block [b] lying between [a] and [c]. *)
Lemma memcpy_block (a b c src : list byte) :
  len b = len src ->
  memcpy (a ++ b ++ c) (len a) src (len src) = Done (a ++ src ++ c).
Proof.
  intros Hb. unfold memcpy.
  assert (H1 : (0 <=? len a) = true) by (apply Z.leb_le, len_nonneg).
  assert (H2 : (0 <=? len src) = true) by (apply Z.leb_le, len_nonneg).
  assert (H3 : (len src <=? len src) = true) by (apply Z.leb_le; lia).
  assert (H4 : (len a + len src <=? len (a ++ b ++ c)) = true).
  { apply Z.leb_le. rewrite !len_app. pose proof (len_nonneg c). lia. }
  rewrite H1, H2, H3, H4. cbn [andb]. f_equal.
  unfold len. rewrite Nat2Z.id, firstn_app_exact, Nat2Z.id, firstn_all.
  f_equal. f_equal.
  replace (Z.to_nat (Z.of_nat (length a) + Z.of_nat (length src)))
    with (length b + length a)%nat by (unfold len in Hb; lia).
  rewrite <- skipn_skipn, skipn_app_exact. apply skipn_app_exact.
Qed.

Lemma write_loop_done fuel value n step data offset end_ :
  end_ <= offset ->
  write_loop (S fuel) value n step data offset end_ = Done data.
Proof.
  intros H. cbn [write_loop].
  destruct (offset <? end_) eqn:E; [apply Z.ltb_lt in E; lia | reflexivity].
Qed.


(** ** Vertex arrays as bytes *)

Section ArrayBytes.

Context {T : Type} `{PodT : Pod T}.

Lemma array_bytes_app (a b : list T) :
  array_bytes (a ++ b) = array_bytes a ++ array_bytes b.
Proof. unfold array_bytes. now rewrite map_app, concat_app. Qed.

Lemma len_repr (v : T) : len (repr v) = sizeof T.
Proof. apply repr_length. Qed.

Lemma len_array_bytes (vs : list T) :
  len (array_bytes vs) = len vs * sizeof T.
Proof.
  unfold array_bytes. induction vs as [|v vs IH]; cbn [map concat].
  - reflexivity.
  - rewrite len_app, IH, len_repr. unfold len. cbn [length].
    rewrite Nat2Z.inj_succ. ring.
Qed.

Lemma vertex_at_array_bytes (a : list T) (v : T) (b : list T) :
  vertex_at T (array_bytes (a ++ v :: b)) (len a) = repr v.
Proof.
  unfold vertex_at. rewrite array_bytes_app.
  change (v :: b) with ([v] ++ b). rewrite array_bytes_app.
  rewrite <- len_array_bytes. unfold len at 1. rewrite Nat2Z.id.
  rewrite skipn_app_exact.
  unfold array_bytes at 1. cbn [map concat]. rewrite app_nil_r.
  rewrite <- (repr_length v), Nat2Z.id. apply firstn_app_exact.
Qed.

Lemma vertex_at_nth (vs : list T) (i : Z) (d : T) :
  0 <= i < len vs ->
  vertex_at T (array_bytes vs) i = repr (nth (Z.to_nat i) vs d).
Proof.
  intros Hi.
  destruct (nth_split vs d (n := Z.to_nat i)) as (a & b & Hvs & Ha).
  { unfold len in Hi. lia. }
  assert (Ei : i = len a) by (unfold len; lia).
  set (v := nth (Z.to_nat i) vs d) in *. clearbody v.
  subst vs i. apply vertex_at_array_bytes.
Qed.

(** The loop of [updateVertices] over a run of whole vertices. *)
Lemma write_loop_vertices (v : T) (old : list T) :
  forall (fuel : nat) (a c : list byte),
    (length old < fuel)%nat ->
    len a + len old * sizeof T < 2 ^ 64 ->
    write_loop fuel (repr v) (sizeof T) (sizeof T)
               (a ++ array_bytes old ++ c)
               (len a) (len a + len old * sizeof T)
    = Done (a ++ array_bytes (repeat v (length old)) ++ c).
Proof.
  pose proof sizeof_pos as Hpos.
  induction old as [|o old IH]; intros fuel a c Hfuel Hsz.
  - destruct fuel as [|fuel]; [cbn in Hfuel; lia|].
    rewrite write_loop_done; [reflexivity|]. unfold len; cbn [length]. lia.
  - destruct fuel as [|fuel]; [cbn in Hfuel; lia|].
    cbn [write_loop].
    assert (E : (len a <? len a + len (o :: old) * sizeof T) = true).
    { apply Z.ltb_lt. unfold len; cbn [length]. nia. }
    rewrite E.
    change (o :: old) with ([o] ++ old) at 1.
    rewrite array_bytes_app, <- app_assoc.
    unfold array_bytes at 1. cbn [map concat]. rewrite app_nil_r.
    rewrite <- (len_repr v) at 1.
    rewrite memcpy_block by (now rewrite !len_repr).
    cbn [bind].
    assert (Hlen : len (o :: old) = 1 + len old)
      by (unfold len; cbn [length]; lia).
    rewrite Hlen in *.
    pose proof (len_nonneg a). pose proof (len_nonneg old).
    rewrite to_size_t_small by nia.
    replace (len a + sizeof T) with (len (a ++ repr v))
      by (rewrite len_app, len_repr; reflexivity).
    replace (len a + (1 + len old) * sizeof T)
      with (len (a ++ repr v) + len old * sizeof T)
      by (rewrite len_app, len_repr; ring).
    rewrite (app_assoc a (repr v)).
    rewrite IH.
    + rewrite <- app_assoc. cbn [length repeat].
      change (v :: repeat v (length old)) with ([v] ++ repeat v (length old)).
      rewrite array_bytes_app, <- app_assoc.
      unfold array_bytes at 2. cbn [map concat]. rewrite app_nil_r.
      reflexivity.
    + cbn [length] in Hfuel. lia.
    + rewrite len_app, len_repr. nia.
Qed.

End ArrayBytes.

(** ** The dirty tracker *)

Lemma setDirty_clean offset size m :
  m_dirty m = false ->
  dirtyRange (setDirty offset size m) = Some (offset, size).
Proof. intros Hc. unfold setDirty. rewrite Hc. reflexivity. Qed.

Lemma setDirty_merge offset size m :
  m_dirty m = true ->
  union_representable (m_dirtyOffset m) (m_dirtySize m) offset size ->
  dirtyRange (setDirty offset size m)
  = Some (Z.min (m_dirtyOffset m) offset,
          Z.max (m_dirtyOffset m + m_dirtySize m) (offset + size)
          - Z.min (m_dirtyOffset m) offset).
Proof.
  intros Hd (H1 & H2 & H3).
  unfold setDirty. rewrite Hd. cbn [negb dirtyRange set_dirtyRange m_dirty
    m_dirtyOffset m_dirtySize].
  rewrite to_GLsizei_size_t.
  rewrite !to_GLintptr_small by lia.
  set (M := Z.max (m_dirtyOffset m + m_dirtySize m) (offset + size)) in *.
  set (o := Z.min (m_dirtyOffset m) offset) in *.
  unfold to_size_t, wrap_unsigned.
  rewrite (Z.mod_eq M (2 ^ 64)) by lia.
  replace (M - 2 ^ 64 * (M / 2 ^ 64) - o)
    with (M - o + (- (M / 2 ^ 64)) * 2 ^ 64) by ring.
  rewrite to_GLsizei_shift64, to_GLsizei_small by lia.
  reflexivity.
Qed.

(** C9. The dirty tracker keeps one interval.  On a clean mesh the first
    [setDirty offset size] makes the interval exactly (offset, size); on a
    dirty mesh it becomes the bounding union, from the smaller start to the
    larger end (the ends and the width being within the integer types of
    the tracker); marking [10,20) and then [100,110) on a clean mesh leaves
    the single interval starting at 10 of width 100. *)
Theorem setDirty_bounding_union (m : VboMesh) (offset size : Z) :
  (m_dirty m = false ->
     dirtyRange (setDirty offset size m) = Some (offset, size)
     /\ dirtyRange (setDirty 100 10 (setDirty 10 10 m)) = Some (10, 100))
  /\ (m_dirty m = true ->
      union_representable (m_dirtyOffset m) (m_dirtySize m) offset size ->
      exists start end_,
        start = Z.min (m_dirtyOffset m) offset
        /\ end_ = Z.max (m_dirtyOffset m + m_dirtySize m) (offset + size)
        /\ dirtyRange (setDirty offset size m) = Some (start, end_ - start)).
Proof.
  split.
  - intros Hc. split; [now apply setDirty_clean|].
    rewrite setDirty_merge.
    + unfold setDirty. rewrite Hc. reflexivity.
    + unfold setDirty. rewrite Hc. reflexivity.
    + unfold setDirty. rewrite Hc. cbn. unfold union_representable. lia.
  - intros Hd Hm. eexists. eexists. split; [reflexivity|].
    split; [reflexivity|]. now apply setDirty_merge.
Qed.

Lemma setDirty_glVertexData offset size m :
  m_glVertexData (setDirty offset size m) = m_glVertexData m.
Proof. unfold setDirty. destruct (negb (m_dirty m)); reflexivity. Qed.

(** ** [updateVertices] and [updateAttribute] *)

Section MutationFacts.

Context {T : Type} `{PodT : Pod T}.

(** Where the [int] sum [start + length] does not overflow, a range that
    ends after the last vertex makes [updateVertices] return the mesh as
    it was: the vertex buffer and the dirty range are those of before the
    call. *)
Lemma updateVertices_rejects_past_end
    (m : VboMesh) (data : list byte) (r : Range) (v : T) :
  m_glVertexData m = Some data ->
  0 <= m_nVertices m ->
  is_int (range_start r + range_length r) ->
  range_start r + range_length r > m_nVertices m ->
  updateVertices r v m = Done m.
Proof.
  intros Hdata HN Hsum Hgt. unfold is_int in Hsum.
  unfold updateVertices. rewrite Hdata.
  rewrite !to_int_small by lia.
  destruct (range_start r + range_length r >? m_nVertices m) eqn:E.
  - reflexivity.
  - rewrite Z.gtb_ltb in E. apply Z.ltb_ge in E. lia.
Qed.

Lemma nth_three_repeats (v0 v1 : T) (a b c i : nat) :
  nth i (repeat v0 a ++ repeat v1 b ++ repeat v0 c) v0
  = if (a <=? i)%nat && (i <? a + b)%nat then v1 else v0.
Proof.
  destruct (Nat.ltb_spec i a) as [Hlt|Hge].
  - rewrite app_nth1 by (now rewrite repeat_length).
    rewrite nth_repeat.
    destruct (Nat.leb_spec a i); [lia | reflexivity].
  - rewrite app_nth2 by (rewrite repeat_length; lia).
    rewrite repeat_length.
    destruct (Nat.leb_spec a i) as [_|]; [|lia]. cbn [andb].
    destruct (Nat.ltb_spec i (a + b)) as [Hlt|Hge'].
    + rewrite app_nth1 by (rewrite repeat_length; lia).
      rewrite (nth_indep _ v0 v1) by (rewrite repeat_length; lia).
      apply nth_repeat.
    + rewrite app_nth2 by (rewrite repeat_length; lia). apply nth_repeat.
Qed.

(** The buffer [updateVertices] leaves, in closed form. *)
Lemma updateVertices_result (N start count : Z) (v0 v1 : T) (m : VboMesh) :
  m_nVertices m = N ->
  m_glVertexData m = Some (array_bytes (repeat v0 (Z.to_nat N))) ->
  0 <= start -> 0 <= count -> start + count <= N ->
  N * sizeof T < 2 ^ 31 ->
  updateVertices {| range_start := start; range_length := count |} v1 m
  = Done (setDirty (start * sizeof T) (count * sizeof T)
            (set_glVertexData
               (array_bytes (repeat v0 (Z.to_nat start)
                             ++ repeat v1 (Z.to_nat count)
                             ++ repeat v0 (Z.to_nat (N - start - count))))
               m)).
Proof.
  intros HN Hdata Hs Hc Hsc Hsz.
  pose proof sizeof_pos as Hpos.
  assert (HN31 : N < 2 ^ 31) by nia.
  unfold updateVertices. rewrite Hdata, HN.
  cbn [range_start range_length].
  rewrite !to_int_small by lia.
  destruct (start + count >? N) eqn:E.
  { rewrite Z.gtb_ltb in E. apply Z.ltb_lt in E. lia. }
  rewrite (to_size_t_small (start * sizeof T)) by nia.
  rewrite (to_size_t_small (start * sizeof T + count * sizeof T)) by nia.
  replace (Z.to_nat N)
    with (Z.to_nat start + (Z.to_nat count + Z.to_nat (N - start - count)))%nat
    by lia.
  rewrite !repeat_app, !array_bytes_app.
  set (a := array_bytes (repeat v0 (Z.to_nat start))).
  set (old := repeat v0 (Z.to_nat count)).
  set (c := array_bytes (repeat v0 (Z.to_nat (N - start - count)))).
  assert (Ha : len a = start * sizeof T).
  { unfold a. rewrite len_array_bytes, len_repeat. lia. }
  assert (Hold : len old = count).
  { unfold old. rewrite len_repeat. lia. }
  rewrite <- Ha, <- Hold.
  rewrite write_loop_vertices.
  - cbn [bind]. rewrite Hold, Ha.
    replace (start * sizeof T + count * sizeof T - start * sizeof T)
      with (count * sizeof T) by ring.
    rewrite to_size_t_small by nia.
    rewrite to_GLintptr_small by nia.
    rewrite to_GLsizei_small by nia.
    unfold old. rewrite repeat_length. reflexivity.
  - rewrite !length_app. pose proof (len_array_bytes old) as Hab.
    unfold len in Hab. nia.
  - rewrite Ha, Hold. nia.
Qed.

(** The broadcast write where the length is not negative.  On a compiled
    mesh of [N] vertices all equal to [v0] (with a buffer below 2 GiB, the
    reach of [GLsizei]) and for a range with [0 <= start], [0 <= length]
    and [start + length <= N], [updateVertices] leaves [v1] at every
    vertex of the range and [v0] at every other vertex, and marks the byte
    span of the range dirty: the call is
    [setDirty (start * sizeof T) (length * sizeof T)], which on a clean
    mesh makes exactly that span the dirty range. *)
Lemma updateVertices_fills_range
    (N start count : Z) (v0 v1 : T) (m : VboMesh) :
  m_nVertices m = N ->
  m_glVertexData m = Some (array_bytes (repeat v0 (Z.to_nat N))) ->
  0 <= start -> 0 <= count -> start + count <= N ->
  N * sizeof T < 2 ^ 31 ->
  let r := {| range_start := start; range_length := count |} in
  fills_range N v0 v1 r m (updateVertices r v1 m)
  /\ exists data',
       updateVertices r v1 m
       = Done (setDirty (start * sizeof T) (count * sizeof T)
                        (set_glVertexData data' m)).
Proof.
  intros HN Hdata Hs Hc Hsc Hsz r. unfold r.
  rewrite (@updateVertices_result N start count v0 v1 m HN Hdata Hs Hc Hsc Hsz).
  split; [|eexists; reflexivity].
  unfold fills_range. eexists. eexists. split; [reflexivity|].
  split; [|split].
  - rewrite setDirty_glVertexData. reflexivity.
  - intros i Hi. cbn [range_start range_length].
    rewrite (vertex_at_nth _ _ v0).
    + rewrite nth_three_repeats. f_equal.
      destruct (Nat.leb_spec (Z.to_nat start) (Z.to_nat i));
        destruct (Z.leb_spec start i); try lia; cbn [andb]; [|reflexivity].
      destruct (Nat.ltb_spec (Z.to_nat i) (Z.to_nat start + Z.to_nat count));
        destruct (Z.ltb_spec i (start + count)); try lia; reflexivity.
    + unfold len. rewrite !length_app, !repeat_length. lia.
  - intros Hclean. cbn [range_start range_length].
    now apply setDirty_clean.
Qed.


End MutationFacts.

(** ** Termination of the write loop *)

Lemma memcpy_length dst offset src n d' :
  memcpy dst offset src n = Done d' ->
  length d' = length dst /\ 0 <= offset /\ 0 <= n /\ offset + n <= len dst.
Proof.
  unfold memcpy.
  destruct ((0 <=? offset) && (0 <=? n) && (n <=? len src)
            && (offset + n <=? len dst)) eqn:E; [|discriminate].
  apply andb_prop in E. destruct E as [E E4].
  apply andb_prop in E. destruct E as [E E3].
  apply andb_prop in E. destruct E as [E1 E2].
  apply Z.leb_le in E1, E2, E3, E4. unfold len in *.
  intros [= <-]. rewrite !length_app, !length_firstn, length_skipn.
  repeat split; lia.
Qed.

(** The fuel [updateVertices] and [updateAttribute] give the loop is
    enough: every copy that succeeds lies inside the buffer and the offset
    grows, so the loop ends or a copy leaves the buffer. *)
Lemma write_loop_fuel value n step : forall fuel data offset end_,
  0 < n -> 0 < step -> 0 <= offset ->
  len data + step <= 2 ^ 64 ->
  (Z.to_nat (len data - offset) < fuel)%nat ->
  write_loop fuel value n step data offset end_ <> OutOfFuel.
Proof.
  induction fuel as [|fuel IH]; intros data offset end_ Hn Hstep Hoff Hsz Hfuel.
  - lia.
  - cbn [write_loop]. destruct (offset <? end_); [|discriminate].
    destruct (memcpy data offset value n) as [d'| | |] eqn:E; cbn [bind];
      try discriminate.
    + apply memcpy_length in E. destruct E as (Hlen & _ & _ & Hin).
      assert (Hd : len d' = len data) by (unfold len; now rewrite Hlen).
      rewrite to_size_t_small by lia.
      apply IH; try assumption; try lia.
    + unfold memcpy in E.
      destruct ((0 <=? offset) && (0 <=? n) && (n <=? len value)
                && (offset + n <=? len data)); discriminate.
Qed.

Section Termination.

Context {T : Type} `{PodT : Pod T}.

Lemma updateVertices_terminates (r : Range) (v : T) (m : VboMesh) :
  (forall data, m_glVertexData m = Some data -> len data + sizeof T <= 2 ^ 64) ->
  updateVertices r v m <> OutOfFuel.
Proof.
  intros Hsz. unfold updateVertices.
  destruct (m_glVertexData m) as [data|] eqn:Hdata; [|discriminate].
  destruct (_ >? _); [discriminate|].
  set (start := to_size_t (range_start r * sizeof T)).
  assert (Hs : 0 <= start) by (apply (wrap_unsigned_range 64); lia).
  match goal with
  | |- bind ?w _ <> _ => assert (Hw : w <> OutOfFuel)
  end.
  { apply write_loop_fuel; try apply sizeof_pos; try assumption.
    - now apply Hsz.
    - unfold len. lia. }
  match goal with
  | |- bind ?w _ <> _ => destruct w; cbn [bind]; congruence
  end.
Qed.

Lemma updateAttribute_terminates {A : Type} `{PodA : Pod A}
    (r : Range) (a : A) (k : Z) (m : VboMesh) :
  (forall data, m_glVertexData m = Some data -> len data + sizeof T <= 2 ^ 64) ->
  updateAttribute T r a k m <> OutOfFuel.
Proof.
  intros Hsz. unfold updateAttribute.
  destruct (m_glVertexData m) as [data|] eqn:Hdata; [|discriminate].
  destruct (_ || _); [discriminate|].
  destruct (_ >? _); [discriminate|].
  destruct (_ >=? _); [discriminate|].
  set (start := to_size_t (range_start r * sizeof T + k)).
  assert (Hs : 0 <= start) by (apply (wrap_unsigned_range 64); lia).
  match goal with
  | |- bind ?w _ <> _ => assert (Hw : w <> OutOfFuel)
  end.
  { apply write_loop_fuel; try apply sizeof_pos; try assumption.
    - now apply Hsz.
    - unfold len. lia. }
  match goal with
  | |- bind ?w _ <> _ => destruct w; cbn [bind]; congruence
  end.
Qed.

End Termination.

(** ** [updateAttribute] when the attribute fits in the vertex *)

Section AttributeFacts.

Context {T : Type} `{PodT : Pod T} {A : Type} `{PodA : Pod A}.

Lemma len_with_attribute (k : Z) (a : A) (vertex : list byte) :
  0 <= k -> k + sizeof A <= len vertex ->
  len (with_attribute k a vertex) = len vertex.
Proof.
  intros Hk Hfit. unfold with_attribute.
  rewrite !len_app, len_repr, len_firstn_le, len_skipn;
    pose proof (sizeof_pos (T := A)); lia.
Qed.

(** The loop of [updateAttribute] over a run of whole vertices, [k] bytes
    into each. *)
Lemma write_loop_attribute (k : Z) (a : A) :
  forall (chunks : list (list byte)) (fuel : nat) (pre post : list byte),
    Forall (fun c => len c = sizeof T) chunks ->
    0 <= k -> k + sizeof A <= sizeof T ->
    (length chunks < fuel)%nat ->
    len pre + k + len chunks * sizeof T < 2 ^ 64 ->
    write_loop fuel (repr a) (sizeof A) (sizeof T)
               (pre ++ concat chunks ++ post)
               (len pre + k) (len pre + k + len chunks * sizeof T)
    = Done (pre ++ concat (map (with_attribute k a) chunks) ++ post).
Proof.
  pose proof (sizeof_pos (T := T)) as HposT.
  pose proof (sizeof_pos (T := A)) as HposA.
  induction chunks as [|c chunks IH]; intros fuel pre post Hall Hk Hfit Hfuel Hsz.
  - destruct fuel as [|fuel]; [cbn in Hfuel; lia|].
    rewrite write_loop_done; [reflexivity|]. unfold len; cbn [length]. lia.
  - destruct fuel as [|fuel]; [cbn in Hfuel; lia|].
    inversion Hall as [|c' chunks' Hc Hall']. subst c' chunks'.
    assert (Hlen : len (c :: chunks) = 1 + len chunks)
      by (unfold len; cbn [length]; lia).
    rewrite Hlen in *.
    pose proof (len_nonneg pre). pose proof (len_nonneg chunks).
    cbn [write_loop].
    destruct (Z.ltb_spec (len pre + k) (len pre + k + (1 + len chunks) * sizeof T));
      [|nia].
    (* the bytes of [c] before, under and after the attribute *)
    set (h := firstn (Z.to_nat k) c).
    set (mid := firstn (Z.to_nat (sizeof A)) (skipn (Z.to_nat k) c)).
    set (t := skipn (Z.to_nat (k + sizeof A)) c).
    assert (Hc3 : c = h ++ mid ++ t).
    { unfold h, mid, t.
      rewrite <- (firstn_skipn (Z.to_nat k) c) at 1. f_equal.
      rewrite <- (firstn_skipn (Z.to_nat (sizeof A)) (skipn (Z.to_nat k) c)) at 1.
      f_equal. rewrite skipn_skipn. f_equal. lia. }
    assert (Hh : len h = k) by (unfold h; apply len_firstn_le; lia).
    assert (Hmid : len mid = sizeof A).
    { unfold mid. apply len_firstn_le. rewrite len_skipn; lia. }
    cbn [concat map]. rewrite Hc3 at 1.
    replace (pre ++ ((h ++ mid ++ t) ++ concat chunks) ++ post)
      with ((pre ++ h) ++ mid ++ (t ++ concat chunks ++ post))
      by (now rewrite <- !app_assoc).
    replace (len pre + k) with (len (pre ++ h)) at 1
      by (rewrite len_app; lia).
    rewrite <- (len_repr a) at 1.
    rewrite memcpy_block by (now rewrite len_repr).
    cbn [bind]. rewrite to_size_t_small by nia.
    assert (Hpatch : (pre ++ h) ++ repr a ++ t ++ concat chunks ++ post
                     = (pre ++ with_attribute k a c) ++ concat chunks ++ post).
    { unfold with_attribute. fold h t. now rewrite <- !app_assoc. }
    rewrite Hpatch.
    assert (Hp : len (pre ++ with_attribute k a c) = len pre + sizeof T)
      by (rewrite len_app, len_with_attribute; lia).
    replace (len pre + k + sizeof T)
      with (len (pre ++ with_attribute k a c) + k) by lia.
    replace (len pre + k + (1 + len chunks) * sizeof T)
      with (len (pre ++ with_attribute k a c) + k + len chunks * sizeof T)
      by (rewrite Hp; ring).
    rewrite IH; try assumption.
    + now rewrite <- !app_assoc.
    + cbn [length] in Hfuel. lia.
    + rewrite Hp. nia.
Qed.

(** Field isolation where the attribute lies inside the vertex
    ([k + sizeof A <= sizeof T]): the vertices before and after the range
    keep their bytes, and each vertex of the range changes only in the
    [sizeof A] bytes from offset [k]. *)
Lemma updateAttribute_isolated (m : VboMesh) (pre post : list byte)
    (chunks : list (list byte)) (start count k : Z) (a : A) :
  m_glVertexData m = Some (pre ++ concat chunks ++ post) ->
  len pre = start * sizeof T ->
  Forall (fun c => len c = sizeof T) chunks ->
  len chunks = count ->
  0 <= start -> 1 <= count -> start + count <= m_nVertices m ->
  m_nVertices m * sizeof T < 2 ^ 31 ->
  0 <= k -> k + sizeof A <= sizeof T ->
  updateAttribute T {| range_start := start; range_length := count |} a k m
  = Done (setDirty (start * sizeof T + k) ((count - 1) * sizeof T + sizeof A)
            (set_glVertexData
               (pre ++ concat (map (with_attribute k a) chunks) ++ post) m)).
Proof.
  intros Hdata Hpre Hall Hcount Hs Hc Hle Hsz Hk Hfit.
  pose proof (sizeof_pos (T := T)) as HposT.
  pose proof (sizeof_pos (T := A)) as HposA.
  assert (HN : m_nVertices m < 2 ^ 31) by nia.
  unfold updateAttribute. rewrite Hdata. cbn [range_start range_length].
  destruct (Z.ltb_spec start 0); [lia|].
  destruct (Z.ltb_spec count 1); [lia|]. cbn [orb].
  rewrite to_int_small, to_size_t_small by lia.
  destruct (Z.gtb_spec (start + count) (m_nVertices m)); [lia|].
  destruct (Z.geb_spec k (sizeof T)); [lia|].
  rewrite (to_size_t_small (start * sizeof T + k)) by nia.
  rewrite (to_size_t_small (start * sizeof T + k + count * sizeof T)) by nia.
  rewrite <- Hpre, <- Hcount.
  rewrite write_loop_attribute; try assumption.
  - cbn [bind]. rewrite Hpre, Hcount.
    rewrite to_GLintptr_small by nia.
    rewrite to_size_t_small by nia.
    rewrite to_GLsizei_small by nia.
    reflexivity.
  - rewrite !length_app.
    assert (Hcc : (length chunks <= length (concat chunks))%nat).
    { clear -Hall HposT. induction Hall as [|c cs Hc _ IH]; cbn [concat length].
      - lia.
      - rewrite length_app. unfold len in Hc. lia. }
    lia.
  - rewrite Hpre, Hcount. nia.
Qed.

End AttributeFacts.

(** ** The mutation operations on concrete meshes *)

Lemma setDirty_bounding_union_witness :
  dirtyRange (setDirty 100 10 (setDirty 10 10 newMesh)) = Some (10, 100)
  /\ dirtyRange (setDirty 4 4 (setDirty 10 10 newMesh)) = Some (4, 16).
Proof.
  split.
  - apply (proj1 (setDirty_bounding_union newMesh 10 10)). reflexivity.
  - destruct (proj2 (setDirty_bounding_union (setDirty 10 10 newMesh) 4 4))
      as (start & end_ & -> & -> & H).
    + reflexivity.
    + unfold union_representable. cbn. lia.
    + exact H.
Defined.

Lemma updateVertices_rejects_past_end_witness :
  updateVertices {| range_start := 1; range_length := 2 |} x01
                 (mesh_with_vertices [x00; x00])
  = Done (mesh_with_vertices [x00; x00]).
Proof.
  apply (updateVertices_rejects_past_end
           (mesh_with_vertices [x00; x00]) [x00; x00]).
  - reflexivity.
  - cbn. lia.
  - unfold is_int. cbn. lia.
  - cbn. lia.
Defined.

Lemma updateVertices_fills_range_witness :
  let m := mesh_with_vertices [x00; x00; x00] in
  let r := {| range_start := 1; range_length := 1 |} in
  fills_range 3 x00 x01 r m (updateVertices r x01 m)
  /\ exists data',
       updateVertices r x01 m
       = Done (setDirty (1 * sizeof byte) (1 * sizeof byte)
                        (set_glVertexData data' m)).
Proof.
  apply (updateVertices_fills_range 3 1 1 x00 x01
           (mesh_with_vertices [x00; x00; x00])).
  - reflexivity.
  - reflexivity.
  - lia.
  - lia.
  - lia.
  - cbn. lia.
Defined.

(** C6 on the code: [updateVertices] has no check on the length of the
    range, which its sibling [updateAttribute] has.  On a one-vertex mesh
    the range (0, -1) satisfies [0 <= start] and [start + length <= N] and
    names no vertex; the guard does not fire, the loop bound wraps to
    [2^64 - 1], the first copy overwrites vertex 0 and the second lands
    after the end of the buffer.  [updateAttribute] returns the mesh as it
    was on the same range. *)
Theorem updateVertices_negative_length_overruns :
  let m := mesh_with_vertices [x00] in
  let r := {| range_start := 0; range_length := -1 |} in
  is_int (range_start r) /\ is_int (range_length r)
  /\ m_nVertices m = 1
  /\ m_glVertexData m = Some (array_bytes (repeat x00 1))
  /\ 0 <= range_start r
  /\ range_start r + range_length r <= 1
  /\ memcpy [x00] 0 (repr x01) (sizeof byte) = Done [x01]
  /\ memcpy [x01] 1 (repr x01) (sizeof byte) = OutOfBounds 1
  /\ updateVertices r x01 m = OutOfBounds 1
  /\ ~ fills_range 1 x00 x01 r m (updateVertices r x01 m)
  /\ updateAttribute byte r x01 0 m = Done m.
Proof.
  cbv zeta.
  assert (E : updateVertices {| range_start := 0; range_length := -1 |} x01
                (mesh_with_vertices [x00]) = OutOfBounds 1)
    by (vm_compute; reflexivity).
  split; [unfold is_int; cbn; lia|]. split; [unfold is_int; cbn; lia|].
  split; [reflexivity|]. split; [reflexivity|].
  split; [cbn; lia|]. split; [cbn; lia|].
  split; [vm_compute; reflexivity|]. split; [vm_compute; reflexivity|].
  split; [exact E|]. split; [|vm_compute; reflexivity].
  rewrite E. intros (m' & data' & Hdone & _). discriminate Hdone.
Qed.

(** C7 on the code: [updateVertices] compares the [int] sum
    [start + length] with the vertex count, where its sibling
    [updateAttribute] compares the sum as a [size_t].  On a two-vertex mesh
    the range (1, 2^31 - 1) ends after the last vertex; the [int] sum
    wraps to [- 2^31], the guard does not fire, the first copy overwrites
    vertex 1 and the second lands after the end of the buffer.
    [updateAttribute] returns the mesh as it was on the same range. *)
Theorem updateVertices_overflowing_range_overruns :
  let m := mesh_with_vertices [x00; x00] in
  let r := {| range_start := 1; range_length := 2 ^ 31 - 1 |} in
  is_int (range_start r) /\ is_int (range_length r)
  /\ m_nVertices m = 2
  /\ range_start r + range_length r > m_nVertices m
  /\ to_int (range_start r + range_length r) = - 2 ^ 31
  /\ memcpy [x00; x00] 1 (repr x01) (sizeof byte) = Done [x00; x01]
  /\ memcpy [x00; x01] 2 (repr x01) (sizeof byte) = OutOfBounds 2
  /\ updateVertices r x01 m = OutOfBounds 2
  /\ updateVertices r x01 m <> Done m
  /\ updateAttribute byte r x01 0 m = Done m.
Proof.
  cbv zeta.
  assert (E : updateVertices
                {| range_start := 1; range_length := 2 ^ 31 - 1 |} x01
                (mesh_with_vertices [x00; x00]) = OutOfBounds 2)
    by (vm_compute; reflexivity).
  split; [unfold is_int; cbn; lia|]. split; [unfold is_int; cbn; lia|].
  split; [reflexivity|]. split; [cbn; lia|].
  split; [vm_compute; reflexivity|].
  split; [vm_compute; reflexivity|]. split; [vm_compute; reflexivity|].
  split; [exact E|]. split; [|vm_compute; reflexivity].
  rewrite E. discriminate.
Qed.


(** C8 on the code: [updateAttribute] accepts every offset below
    [sizeof(T)], also one at which the attribute does not fit in the rest of
    the vertex.  With a 4-byte vertex, a 2-byte attribute and offset 3, a
    write to vertex 0 alone changes the first byte of vertex 1, and a write
    to the last vertex leaves the buffer. *)
Theorem updateAttribute_spills_into_next_vertex :
  let v := {| v4_0 := x00; v4_1 := x00; v4_2 := x00; v4_3 := x00 |} in
  let a := {| a2_0 := xff; a2_1 := xff |} in
  let m := mesh_with_vertices [v; v] in
  sizeof Attr2 <= sizeof Vertex4
  /\ 3 < sizeof Vertex4
  /\ updateAttribute Vertex4 {| range_start := 0; range_length := 1 |}
                     a 3 m
     = Done (setDirty 3 2
               (set_glVertexData [x00; x00; x00; xff; xff; x00; x00; x00] m))
  /\ vertex_at Vertex4 [x00; x00; x00; xff; xff; x00; x00; x00] 1
     = [xff; x00; x00; x00]
  /\ vertex_at Vertex4 [x00; x00; x00; xff; xff; x00; x00; x00] 1
     <> repr v
  /\ updateAttribute Vertex4 {| range_start := 1; range_length := 1 |}
                     a 3 m
     = OutOfBounds 7.
Proof.
  cbv zeta. repeat split; try (vm_compute; congruence).
Qed.

(** ** The partitioner of the spec *)

Section PartitionerFacts.

Variable MAX_INDEX_VALUE : Z.


Lemma sum_indexCount_app g1 g2 :
  sum_indexCount (g1 ++ g2) = sum_indexCount g1 + sum_indexCount g2.
Proof.
  induction g1 as [|g g1 IH]; cbn [app sum_indexCount fold_right].
  - reflexivity.
  - fold (sum_indexCount (g1 ++ g2)). fold (sum_indexCount g1). lia.
Qed.

Lemma sum_vertexCount_app g1 g2 :
  sum_vertexCount (g1 ++ g2) = sum_vertexCount g1 + sum_vertexCount g2.
Proof.
  induction g1 as [|g g1 IH]; cbn [app sum_vertexCount fold_right].
  - reflexivity.
  - fold (sum_vertexCount (g1 ++ g2)). fold (sum_vertexCount g1). lia.
Qed.

Lemma total_indices_nonneg bs : 0 <= total_indices bs.
Proof.
  induction bs as [|b bs IH]; cbn [total_indices fold_right]; [lia|].
  fold (total_indices bs). pose proof (len_nonneg (fst b)). lia.
Qed.

(** Conservation: nothing is lost between batches and groups. *)
Lemma grouped_sum_indexCount bs : forall cur,
  sum_indexCount (grouped MAX_INDEX_VALUE bs cur) = fst cur + total_indices bs.
Proof.
  induction bs as [|[idx nv] bs IH]; intros cur.
  - cbn. lia.
  - cbn [grouped]. destruct (snd cur + nv >? MAX_INDEX_VALUE).
    + cbn [sum_indexCount fold_right]. fold (sum_indexCount (grouped MAX_INDEX_VALUE bs (len idx, nv))).
      rewrite IH. cbn [fst snd total_indices fold_right].
      fold (total_indices bs). lia.
    + rewrite IH. cbn [fst snd total_indices fold_right].
      fold (total_indices bs). lia.
Qed.

Lemma grouped_sum_vertexCount bs : forall cur,
  sum_vertexCount (grouped MAX_INDEX_VALUE bs cur) = snd cur + total_vertices bs.
Proof.
  induction bs as [|[idx nv] bs IH]; intros cur.
  - cbn. lia.
  - cbn [grouped]. destruct (snd cur + nv >? MAX_INDEX_VALUE).
    + cbn [sum_vertexCount fold_right]. fold (sum_vertexCount (grouped MAX_INDEX_VALUE bs (len idx, nv))).
      rewrite IH. cbn [fst snd total_vertices fold_right].
      fold (total_vertices bs). lia.
    + rewrite IH. cbn [fst snd total_vertices fold_right].
      fold (total_vertices bs). lia.
Qed.

Lemma len_rebased bs : forall cv, len (rebased MAX_INDEX_VALUE bs cv) = total_indices bs.
Proof.
  induction bs as [|[idx nv] bs IH]; intros cv.
  - reflexivity.
  - cbn [rebased]. rewrite len_app, IH.
    cbn [total_indices fold_right fst]. fold (total_indices bs).
    unfold len. rewrite length_map. reflexivity.
Qed.

Lemma grouped_indexCount_nonneg bs : forall cur,
  0 <= fst cur ->
  Forall (fun g => 0 <= fst g) (grouped MAX_INDEX_VALUE bs cur).
Proof.
  induction bs as [|[idx nv] bs IH]; intros cur Hc.
  - cbn. constructor; [assumption | constructor].
  - cbn [grouped]. pose proof (len_nonneg idx).
    destruct (snd cur + nv >? MAX_INDEX_VALUE).
    + constructor; [assumption|]. apply IH. cbn. lia.
    + apply IH. cbn. lia.
Qed.

Lemma forallb_lt_weaken (l : list Z) (a b : Z) :
  a <= b ->
  forallb (fun i => i <? a) l = true -> forallb (fun i => i <? b) l = true.
Proof.
  intros Hab H. rewrite forallb_forall in *. intros x Hx.
  specialize (H x Hx). apply Z.ltb_lt in H. apply Z.ltb_lt. lia.
Qed.

Lemma forallb_rebase (idx : list Z) (base nv : Z) :
  0 <= base ->
  Forall (fun i => 0 <= i < nv) idx ->
  forallb (fun i => i <? base + nv)
          (map (fun i => to_uint16 (i + base)) idx) = true.
Proof.
  intros Hb H. rewrite forallb_forall. intros x Hx.
  apply in_map_iff in Hx. destruct Hx as (i & <- & Hi).
  rewrite Forall_forall in H. specialize (H i Hi).
  pose proof (to_uint16_le (i + base)). apply Z.ltb_lt. lia.
Qed.

(** The bound of C1 holds of what the partitioner produces, [s0] being the
    indices already in the open group. *)
Lemma grouped_bound bs : forall cur s0,
  Forall (batch_ok MAX_INDEX_VALUE) bs ->
  0 <= snd cur <= MAX_INDEX_VALUE ->
  len s0 = fst cur ->
  forallb (fun i => i <? snd cur) s0 = true ->
  group_bound MAX_INDEX_VALUE (grouped MAX_INDEX_VALUE bs cur)
              (s0 ++ rebased MAX_INDEX_VALUE bs (snd cur)) = true.
Proof.
  induction bs as [|[idx nv] bs IH]; intros [ci cv] s0 Hbs Hcv Hlen Hs0;
    cbn [fst snd] in *.
  - cbn [grouped rebased group_bound].
    replace (Z.to_nat ci) with (length s0) by (unfold len in Hlen; lia).
    rewrite app_nil_r, firstn_all.
    rewrite Hs0. destruct (Z.leb_spec cv MAX_INDEX_VALUE); [reflexivity | lia].
  - inversion Hbs as [|b bs' [Hnv Hidx] Hbs' Eb]. cbn [fst snd] in *.
    cbn [grouped rebased fst snd].
    destruct (Z.gtb_spec (cv + nv) MAX_INDEX_VALUE) as [Hov|Hov].
    + cbn [group_bound].
      replace (Z.to_nat ci) with (length s0) by (unfold len in Hlen; lia).
      rewrite firstn_app_exact, skipn_app_exact, Hs0.
      destruct (Z.leb_spec cv MAX_INDEX_VALUE); [|lia]. cbn [andb].
      apply (IH (len idx, nv)); cbn [fst snd]; try assumption.
      * unfold len. now rewrite length_map.
      * apply (forallb_lt_weaken _ (0 + nv)); [lia|].
        apply forallb_rebase; [lia | assumption].
    + rewrite app_assoc.
      apply (IH (ci + len idx, cv + nv)); cbn [fst snd]; try assumption.
      * lia.
      * rewrite len_app, Hlen. unfold len. now rewrite length_map.
      * rewrite forallb_app. apply andb_true_intro. split.
        -- apply (forallb_lt_weaken s0 cv); [lia | assumption].
        -- apply forallb_rebase; [lia | assumption].
Qed.

(** Group lists and their index spans can be put one after the other. *)
Lemma group_bound_app g1 : forall s1 g2 s2,
  Forall (fun g => 0 <= fst g) g1 ->
  sum_indexCount g1 = len s1 ->
  group_bound MAX_INDEX_VALUE g1 s1 = true ->
  group_bound MAX_INDEX_VALUE g2 s2 = true ->
  group_bound MAX_INDEX_VALUE (g1 ++ g2) (s1 ++ s2) = true.
Proof.
  induction g1 as [|[ni nv] g1 IH]; intros s1 g2 s2 Hnn Hsum H1 H2.
  - cbn in Hsum. destruct s1; [assumption | cbn in Hsum; lia].
  - inversion Hnn as [|g g1' Hni Hnn']; subst. cbn [fst] in Hni.
    cbn [sum_indexCount fold_right fst] in Hsum.
    fold (sum_indexCount g1) in Hsum.
    assert (Hg1 : 0 <= sum_indexCount g1).
    { clear -Hnn'. induction Hnn' as [|g g1 Hg _ IHg]; cbn; [lia|].
      fold (sum_indexCount g1). lia. }
    cbn [app group_bound] in *.
    apply andb_prop in H1. destruct H1 as [H1 H1c].
    apply andb_prop in H1. destruct H1 as [H1a H1b].
    assert (Hle : (Z.to_nat ni <= length s1)%nat) by (unfold len in Hsum; lia).
    rewrite firstn_app, skipn_app.
    replace (Z.to_nat ni - length s1)%nat with 0%nat by lia.
    cbn [firstn skipn]. rewrite app_nil_r, H1a, H1b. cbn [andb].
    apply IH; try assumption.
    unfold len. rewrite length_skipn. unfold len in Hsum. lia.
Qed.

End PartitionerFacts.

(** ** The buffers during compilation *)

Lemma memcpy_append (a rest src : list byte) :
  len src <= len rest ->
  memcpy (a ++ rest) (len a) src (len src)
  = Done (a ++ src ++ skipn (length src) rest).
Proof.
  intros Hle.
  rewrite <- (firstn_skipn (length src) rest) at 1.
  apply memcpy_block.
  unfold len in *. rewrite length_firstn. lia.
Qed.

Lemma store_index_append (pre rest : list Z) (r v : Z) :
  store_index (pre ++ r :: rest) (len pre) v = Done ((pre ++ [v]) ++ rest).
Proof.
  unfold store_index.
  assert (H1 : (0 <=? len pre) = true) by (apply Z.leb_le, len_nonneg).
  assert (H2 : (len pre <? len (pre ++ r :: rest)) = true).
  { apply Z.ltb_lt. rewrite len_app. unfold len. cbn [length]. lia. }
  rewrite H1, H2. cbn [andb]. f_equal.
  unfold len. rewrite Nat2Z.id, firstn_app_exact.
  change (S (length pre)) with (1 + length pre)%nat.
  rewrite <- skipn_skipn, skipn_app_exact. cbn [skipn].
  now rewrite <- app_assoc.
Qed.

Lemma load_app {X : Type} (a b : list X) (x : X) :
  load (a ++ x :: b) (len a) = Done x.
Proof.
  unfold load.
  assert (H1 : (0 <=? len a) = true) by (apply Z.leb_le, len_nonneg).
  rewrite H1. unfold len. rewrite Nat2Z.id.
  rewrite nth_error_app2 by lia. now rewrite Nat.sub_diag.
Qed.

Section CompileFacts.

Context {T : Type} `{PodT : Pod T}.

Variable MAX_INDEX_VALUE : Z.
Variable stride : Z.

Hypothesis MAX_range : 0 <= MAX_INDEX_VALUE < 2 ^ 64.

(** *** [compileIndices] *)

Lemma copy_indices_spec (cv : Z) : forall (n : nat) used remaining pre rest,
  (n <= length remaining)%nat ->
  (n <= length rest)%nat ->
  copy_indices n (used ++ remaining) cv (pre ++ rest) (len pre) (len used)
  = Done (pre ++ map (fun i => to_uint16 (i + cv)) (firstn n remaining)
              ++ skipn n rest,
          len pre + Z.of_nat n, len used + Z.of_nat n).
Proof.
  induction n as [|n IH]; intros used remaining pre rest Hrem Hrest.
  - cbn. do 2 f_equal; try lia. f_equal; lia.
  - destruct remaining as [|x remaining]; [cbn in Hrem; lia|].
    destruct rest as [|r rest]; [cbn in Hrest; lia|].
    cbn [copy_indices]. rewrite load_app. cbn [bind].
    rewrite store_index_append. cbn [bind].
    replace (used ++ x :: remaining) with ((used ++ [x]) ++ remaining)
      by (now rewrite <- app_assoc).
    rewrite <- (len_snoc pre (to_uint16 (x + cv))), <- (len_snoc used x).
    rewrite IH by (cbn [length] in *; lia).
    cbn [firstn map skipn]. rewrite <- app_assoc. cbn [app].
    rewrite !len_snoc. do 2 f_equal; try lia. f_equal; lia.
Qed.

Lemma add_to_back_snoc (nI nV : Z) (cl : list (Z * Z)) (cur : Z * Z) :
  0 <= fst cur + nI < 2 ^ 32 ->
  0 <= snd cur + nV < 2 ^ 32 ->
  add_to_back nI nV (cl ++ [cur]) = cl ++ [(fst cur + nI, snd cur + nV)].
Proof.
  intros H1 H2. unfold add_to_back.
  rewrite removelast_last, last_last.
  now rewrite !to_uint32_small.
Qed.

Lemma sum_indexCount_nonneg offs :
  Forall (fun p => 0 <= fst p /\ 0 <= snd p) offs -> 0 <= sum_indexCount offs.
Proof.
  induction 1 as [|p offs [Hp _] _ IH]; cbn; [lia|].
  fold (sum_indexCount offs). lia.
Qed.

Lemma sum_vertexCount_nonneg offs :
  Forall (fun p => 0 <= fst p /\ 0 <= snd p) offs -> 0 <= sum_vertexCount offs.
Proof.
  induction 1 as [|p offs [_ Hp] _ IH]; cbn; [lia|].
  fold (sum_vertexCount offs). lia.
Qed.

Lemma compileIndices_loop_spec : forall offs used remaining pre rest cl cur,
  Forall (fun p => 0 <= fst p /\ 0 <= snd p) offs ->
  sum_indexCount offs <= len remaining ->
  sum_indexCount offs <= len rest ->
  0 <= fst cur -> 0 <= snd cur ->
  fst cur + sum_indexCount offs < 2 ^ 32 ->
  snd cur + sum_vertexCount offs < 2 ^ 32 ->
  compileIndices_loop MAX_INDEX_VALUE offs (used ++ remaining) (cl ++ [cur])
                      (pre ++ rest) (len pre) (snd cur) (len used)
  = Done (cl ++ grouped MAX_INDEX_VALUE (batches_of_offsets offs remaining) cur,
          pre ++ rebased MAX_INDEX_VALUE (batches_of_offsets offs remaining)
                         (snd cur)
              ++ skipn (Z.to_nat (sum_indexCount offs)) rest,
          len pre + sum_indexCount offs).
Proof.
  induction offs as [|[ni nv] offs IH];
    intros used remaining pre rest cl [ci cv] Hnn Hrem Hrest Hci Hcv Hi Hv;
    cbn [fst snd] in *.
  - cbn. rewrite Z.add_0_r. reflexivity.
  - inversion Hnn as [|p offs' [Hni Hnv] Hnn' Ep]. cbn [fst snd] in *.
    clear Ep H.
    cbn [sum_indexCount sum_vertexCount fold_right fst snd] in *.
    fold (sum_indexCount offs) in *. fold (sum_vertexCount offs) in *.
    pose proof (sum_indexCount_nonneg offs Hnn') as Hsi.
    pose proof (sum_vertexCount_nonneg offs Hnn') as Hsv.
    cbn [compileIndices_loop batches_of_offsets grouped rebased fst snd].
    rewrite (to_size_t_small (cv + nv)) by lia.
    rewrite (to_size_t_small MAX_INDEX_VALUE) by lia.
    rewrite copy_indices_spec by (unfold len in *; lia).
    cbn [bind]. rewrite Z2Nat.id by lia.
    set (run := firstn (Z.to_nat ni) remaining).
    assert (Hrun : len run = ni) by (apply len_firstn_le; lia).
    destruct (cv + nv >? MAX_INDEX_VALUE) eqn:Eov.
    + unfold emplace_back. rewrite add_to_back_snoc by (cbn [fst snd]; lia).
      cbn [fst snd]. rewrite !Z.add_0_l.
      rewrite (to_size_t_small nv) by lia.
      rewrite <- (firstn_skipn (Z.to_nat ni) remaining) at 1. fold run.
      rewrite (app_assoc used run), (app_assoc pre).
      replace (len pre + ni) with (len (pre ++ map (fun i => to_uint16 (i + 0)) run))
        by (rewrite len_app; unfold len at 2; rewrite length_map;
            fold (len run); lia).
      replace (len used + ni) with (len (used ++ run))
        by (rewrite len_app; lia).
      rewrite (IH _ _ _ _ (cl ++ [(ci, cv)]) (ni, nv)); cbn [fst snd];
        try assumption; try lia.
      * rewrite Hrun, <- !app_assoc. cbn [app].
        rewrite skipn_skipn, len_app.
        unfold len at 2. rewrite length_map. fold (len run).
        replace (Z.to_nat (sum_indexCount offs) + Z.to_nat ni)%nat
          with (Z.to_nat (ni + sum_indexCount offs)) by lia.
        replace (len pre + len run + sum_indexCount offs)
          with (len pre + (ni + sum_indexCount offs)) by lia.
        reflexivity.
      * rewrite len_skipn; lia.
      * rewrite len_skipn; lia.
    + rewrite add_to_back_snoc by (cbn [fst snd]; lia).
      cbn [fst snd].
      rewrite (to_size_t_small (cv + nv)) by lia.
      rewrite <- (firstn_skipn (Z.to_nat ni) remaining) at 1. fold run.
      rewrite (app_assoc used run), (app_assoc pre).
      replace (len pre + ni) with (len (pre ++ map (fun i => to_uint16 (i + cv)) run))
        by (rewrite len_app; unfold len at 2; rewrite length_map;
            fold (len run); lia).
      replace (len used + ni) with (len (used ++ run))
        by (rewrite len_app; lia).
      rewrite (IH _ _ _ _ cl (ci + ni, cv + nv)); cbn [fst snd];
        try assumption; try lia.
      * rewrite Hrun, <- !app_assoc.
        rewrite skipn_skipn, len_app.
        unfold len at 2. rewrite length_map. fold (len run).
        replace (Z.to_nat (sum_indexCount offs) + Z.to_nat ni)%nat
          with (Z.to_nat (ni + sum_indexCount offs)) by lia.
        replace (len pre + len run + sum_indexCount offs)
          with (len pre + (ni + sum_indexCount offs)) by lia.
        reflexivity.
      * rewrite len_skipn; lia.
      * rewrite len_skipn; lia.
Qed.

Lemma total_indices_batches : forall offs inds,
  Forall (fun p => 0 <= fst p /\ 0 <= snd p) offs ->
  sum_indexCount offs <= len inds ->
  total_indices (batches_of_offsets offs inds) = sum_indexCount offs.
Proof.
  induction offs as [|[ni nv] offs IH]; intros inds Hnn Hle.
  - reflexivity.
  - inversion Hnn as [|p offs' [Hni Hnv] Hnn' Ep]. cbn [fst snd] in *.
    cbn [sum_indexCount fold_right fst] in *. fold (sum_indexCount offs) in *.
    pose proof (sum_indexCount_nonneg offs Hnn').
    cbn [batches_of_offsets total_indices fold_right fst].
    fold (total_indices (batches_of_offsets offs (skipn (Z.to_nat ni) inds))).
    rewrite IH; [|assumption|rewrite len_skipn; lia].
    rewrite len_firstn_le; lia.
Qed.

Lemma total_vertices_batches : forall offs inds,
  total_vertices (batches_of_offsets offs inds) = sum_vertexCount offs.
Proof.
  induction offs as [|[ni nv] offs IH]; intros inds.
  - reflexivity.
  - cbn [batches_of_offsets total_vertices sum_vertexCount fold_right snd].
    fold (total_vertices (batches_of_offsets offs (skipn (Z.to_nat ni) inds))).
    fold (sum_vertexCount offs). now rewrite IH.
Qed.

Lemma compileIndices_spec (d : MeshData T) (groups : list (Z * Z))
    (pre rest : list Z) :
  mesh_data_ok d ->
  len (indices d) <= len rest ->
  len (indices d) < 2 ^ 32 ->
  len (vertices d) < 2 ^ 32 ->
  compileIndices MAX_INDEX_VALUE (len pre) d groups (pre ++ rest)
  = Done (groups ++ grouped MAX_INDEX_VALUE (batches_of_mesh d) (0, 0),
          pre ++ rebased MAX_INDEX_VALUE (batches_of_mesh d) 0
              ++ skipn (length (indices d)) rest,
          len pre + len (indices d)).
Proof.
  intros (Hnn & Hi & Hv) Hrest Hi32 Hv32.
  unfold compileIndices, emplace_back, batches_of_mesh.
  change (indices d) with ([] ++ indices d) at 1.
  change 0 with (snd (0, 0)) at 2. change 0 with (len (@nil Z)) at 2.
  rewrite compileIndices_loop_spec; cbn [fst snd]; try assumption; try lia.
  rewrite Hi.
  replace (Z.to_nat (len (indices d))) with (length (indices d))
    by (unfold len; lia).
  cbn [app]. change (len []) with 0. reflexivity.
Qed.

Lemma index_total_nonneg (ms : list (MeshData T)) : 0 <= index_total ms.
Proof.
  induction ms as [|d ms IH]; cbn; [lia|]. fold (index_total ms).
  pose proof (len_nonneg (indices d)). lia.
Qed.

Lemma vertex_total_nonneg (ms : list (MeshData T)) : 0 <= vertex_total ms.
Proof.
  induction ms as [|d ms IH]; cbn; [lia|]. fold (vertex_total ms).
  pose proof (len_nonneg (vertices d)). lia.
Qed.

Lemma len_stream_of_mesh (d : MeshData T) :
  mesh_data_ok d ->
  len (rebased MAX_INDEX_VALUE (batches_of_mesh d) 0) = len (indices d).
Proof.
  intros (Hnn & Hi & Hv). rewrite len_rebased. unfold batches_of_mesh.
  rewrite total_indices_batches; [assumption | assumption | lia].
Qed.

(** *** The three loops of the grouped-batches entry point *)

Lemma compile_all_indices_spec : forall (ms : list (MeshData T)) groups pre rest,
  Forall mesh_data_ok ms ->
  index_total ms <= len rest ->
  index_total ms < 2 ^ 32 ->
  vertex_total ms < 2 ^ 32 ->
  compile_all_indices MAX_INDEX_VALUE ms groups (pre ++ rest) (len pre)
  = Done (groups ++ groups_of_meshes MAX_INDEX_VALUE ms,
          pre ++ stream_of_meshes MAX_INDEX_VALUE ms
              ++ skipn (Z.to_nat (index_total ms)) rest,
          len pre + index_total ms).
Proof.
  induction ms as [|d ms IH]; intros groups pre rest Hok Hrest Hi Hv.
  - cbn. rewrite app_nil_r, Z.add_0_r. reflexivity.
  - inversion Hok as [|d' ms' Hd Hms]. subst d' ms'.
    cbn [index_total vertex_total fold_right] in *.
    fold (index_total ms) in *. fold (vertex_total ms) in *.
    pose proof (index_total_nonneg ms). pose proof (vertex_total_nonneg ms).
    pose proof (len_nonneg (indices d)). pose proof (len_nonneg (vertices d)).
    cbn [compile_all_indices].
    rewrite compileIndices_spec by (try assumption; lia).
    cbn [bind].
    set (out := rebased MAX_INDEX_VALUE (batches_of_mesh d) 0).
    assert (Hout : len out = len (indices d)) by now apply len_stream_of_mesh.
    rewrite (app_assoc pre out).
    replace (len pre + len (indices d)) with (len (pre ++ out))
      by (rewrite len_app; lia).
    rewrite IH; try assumption; try lia.
    + unfold groups_of_meshes, stream_of_meshes. cbn [flat_map].
      fold out. rewrite <- !app_assoc, skipn_skipn, len_app.
      replace (Z.to_nat (index_total ms) + length (indices d))%nat
        with (Z.to_nat (len (indices d) + index_total ms))
        by (unfold len; lia).
      replace (len pre + len out + index_total ms)
        with (len pre + (len (indices d) + index_total ms)) by lia.
      reflexivity.
    + rewrite len_skipn' by (fold (len (indices d)); lia).
      fold (len (indices d)). lia.
Qed.

Lemma copy_meshes_spec : forall (ms : list (MeshData T)) a rest,
  stride = sizeof T ->
  vertex_total ms * sizeof T <= len rest ->
  len a + vertex_total ms * sizeof T < 2 ^ 64 ->
  copy_meshes stride ms (a ++ rest) (len a)
  = Done (a ++ array_bytes (flat_map vertices ms)
            ++ skipn (Z.to_nat (vertex_total ms * sizeof T)) rest).
Proof.
  pose proof sizeof_pos as Hpos.
  induction ms as [|d ms IH]; intros a rest Hst Hrest Hsz.
  - cbn. reflexivity.
  - cbn [vertex_total fold_right] in *. fold (vertex_total ms) in *.
    pose proof (vertex_total_nonneg ms). pose proof (len_nonneg a).
    pose proof (len_nonneg (vertices d)).
    cbn [copy_meshes flat_map].
    replace (len (vertices d) * stride) with (len (vertices d) * sizeof T)
      by (now rewrite Hst).
    rewrite (to_size_t_small (len (vertices d) * sizeof T)) by nia.
    rewrite <- len_array_bytes.
    rewrite memcpy_append by (rewrite len_array_bytes; nia).
    cbn [bind]. rewrite to_size_t_small by (rewrite len_array_bytes; nia).
    rewrite (app_assoc a).
    replace (len a + len (array_bytes (vertices d)))
      with (len (a ++ array_bytes (vertices d))) by (now rewrite len_app).
    rewrite IH; try assumption.
    + rewrite array_bytes_app, <- !app_assoc, skipn_skipn.
      replace (Z.to_nat (vertex_total ms * sizeof T)
               + length (array_bytes (vertices d)))%nat
        with (Z.to_nat ((len (vertices d) + vertex_total ms) * sizeof T)).
      * reflexivity.
      * assert (E : length (array_bytes (vertices d))
                    = Z.to_nat (len (vertices d) * sizeof T))
          by (rewrite <- len_array_bytes; unfold len; lia).
        rewrite E, Z.mul_add_distr_r, Z2Nat.inj_add by nia. lia.
    + pose proof (len_array_bytes (vertices d)) as E.
      rewrite len_skipn'; unfold len in *; nia.
    + rewrite len_app, len_array_bytes. nia.
Qed.

Lemma count_vertices_spec (ms : list (MeshData T)) :
  vertex_total ms < 2 ^ 64 -> count_vertices ms = vertex_total ms.
Proof.
  unfold count_vertices.
  enough (G : forall acc, 0 <= acc -> acc + vertex_total ms < 2 ^ 64 ->
            fold_left (fun n m => to_size_t (n + len (vertices m))) ms acc
            = acc + vertex_total ms).
  { intros H. rewrite G; lia. }
  induction ms as [|d ms IH]; intros acc Hacc Hlt.
  - cbn. lia.
  - cbn [vertex_total fold_right fold_left] in *. fold (vertex_total ms) in *.
    pose proof (vertex_total_nonneg ms). pose proof (len_nonneg (vertices d)).
    rewrite to_size_t_small by lia. rewrite IH; lia.
Qed.

Lemma count_indices_spec (ms : list (MeshData T)) :
  index_total ms < 2 ^ 64 -> count_indices ms = index_total ms.
Proof.
  unfold count_indices.
  enough (G : forall acc, 0 <= acc -> acc + index_total ms < 2 ^ 64 ->
            fold_left (fun n m => to_size_t (n + len (indices m))) ms acc
            = acc + index_total ms).
  { intros H. rewrite G; lia. }
  induction ms as [|d ms IH]; intros acc Hacc Hlt.
  - cbn. lia.
  - cbn [index_total fold_right fold_left] in *. fold (index_total ms) in *.
    pose proof (index_total_nonneg ms). pose proof (len_nonneg (indices d)).
    rewrite to_size_t_small by lia. rewrite IH; lia.
Qed.

(** The grouped-batches entry point runs to its end on well-formed input
    and leaves what the spec's partitioner, restarted on every mesh,
    yields. *)
Lemma compile_meshes_spec (ms : list (MeshData T)) (m : VboMesh) :
  Forall mesh_data_ok ms ->
  stride = sizeof T ->
  index_total ms < 2 ^ 32 ->
  vertex_total ms < 2 ^ 32 ->
  vertex_total ms * sizeof T < 2 ^ 64 ->
  compile_meshes MAX_INDEX_VALUE stride ms m
  = Done {| m_isCompiled := true;
            m_nVertices := vertex_total ms;
            m_nIndices := index_total ms;
            m_glVertexData := Some (array_bytes (flat_map vertices ms));
            m_glIndexData := Some (stream_of_meshes MAX_INDEX_VALUE ms);
            m_vertexOffsets :=
              m_vertexOffsets m ++ groups_of_meshes MAX_INDEX_VALUE ms;
            m_dirty := m_dirty m; m_dirtyOffset := m_dirtyOffset m;
            m_dirtySize := m_dirtySize m |}.
Proof.
  intros Hok Hst Hi Hv Hb.
  pose proof (index_total_nonneg ms). pose proof (vertex_total_nonneg ms).
  unfold compile_meshes.
  rewrite count_vertices_spec, count_indices_spec by lia.
  replace (vertex_total ms * stride) with (vertex_total ms * sizeof T)
    by (now rewrite Hst).
  rewrite (to_size_t_small (vertex_total ms * sizeof T))
    by (pose proof sizeof_pos; nia).
  change 0 with (len (@nil byte)) at 1.
  change (new_bytes (vertex_total ms * sizeof T))
    with ([] ++ new_bytes (vertex_total ms * sizeof T)).
  rewrite copy_meshes_spec; try assumption.
  2:{ unfold new_bytes. rewrite len_repeat. pose proof sizeof_pos. nia. }
  cbn [bind app].
  change 0 with (len (@nil Z)) at 1.
  change (new_indices (index_total ms))
    with ([] ++ new_indices (index_total ms)).
  rewrite compile_all_indices_spec; try assumption.
  2:{ unfold new_indices. rewrite len_repeat. lia. }
  cbn [bind app]. change (len []) with 0. rewrite Z.add_0_l, Z.eqb_refl.
  unfold new_bytes, new_indices.
  rewrite !skipn_all2 by (rewrite repeat_length; lia).
  rewrite !app_nil_r. reflexivity.
Qed.

(** *** The parallel-arrays entry point *)

Lemma to_uint16_to_int z : to_uint16 (to_int z) = to_uint16 z.
Proof.
  unfold to_int, wrap_signed. change (32 - 1) with 31.
  rewrite (Z.mod_eq (z + 2 ^ 31) (2 ^ 32)) by lia.
  replace (z + 2 ^ 31 - 2 ^ 32 * ((z + 2 ^ 31) / 2 ^ 32) - 2 ^ 31)
    with (z + (- ((z + 2 ^ 31) / 2 ^ 32) * 2 ^ 16) * 2 ^ 16) by lia.
  apply (wrap_unsigned_shift 16).
Qed.

Lemma store_indices_spec (vo : Z) : forall cur pre rest,
  (length cur <= length rest)%nat ->
  len pre + len cur < 2 ^ 31 ->
  store_indices cur vo (pre ++ rest) (len pre)
  = Done (pre ++ map (fun i => to_uint16 (i + vo)) cur
              ++ skipn (length cur) rest,
          len pre + len cur).
Proof.
  induction cur as [|i cur IH]; intros pre rest Hrest Hlt.
  - cbn. rewrite Z.add_0_r. reflexivity.
  - destruct rest as [|r rest]; [cbn in Hrest; lia|].
    assert (Hc : len (i :: cur) = 1 + len cur)
      by (unfold len; cbn [length]; lia).
    rewrite Hc in *. pose proof (len_nonneg pre). pose proof (len_nonneg cur).
    cbn [store_indices]. rewrite store_index_append. cbn [bind].
    rewrite to_uint16_to_int, to_int_small by lia.
    rewrite <- (len_snoc pre (to_uint16 (i + vo))).
    rewrite IH by (cbn [length] in *; rewrite ?len_snoc; lia).
    cbn [map skipn]. rewrite <- app_assoc, len_snoc. cbn [app].
    replace (len pre + 1 + len cur) with (len pre + (1 + len cur)) by lia.
    reflexivity.
Qed.

Lemma grouped_not_nil (bs : list Batch) : forall cur,
  grouped MAX_INDEX_VALUE bs cur <> [].
Proof.
  induction bs as [|[idx nv] bs IH]; intros cur; cbn [grouped].
  - discriminate.
  - destruct (snd cur + nv >? MAX_INDEX_VALUE); [discriminate | apply IH].
Qed.

Lemma last_cons_not_nil {X : Type} (x d : X) (l : list X) :
  l <> [] -> last (x :: l) d = last l d.
Proof. destruct l; [congruence | reflexivity]. Qed.

Lemma removelast_cons_not_nil {X : Type} (x : X) (l : list X) :
  l <> [] -> removelast (x :: l) = x :: removelast l.
Proof. destruct l; [congruence | reflexivity]. Qed.

Lemma grouped_last_bounds (bs : list Batch) : forall cur,
  Forall (fun b => 0 <= snd b) bs ->
  0 <= fst cur -> 0 <= snd cur ->
  0 <= fst (last (grouped MAX_INDEX_VALUE bs cur) (0, 0))
       <= fst cur + total_indices bs
  /\ 0 <= snd (last (grouped MAX_INDEX_VALUE bs cur) (0, 0))
          <= snd cur + total_vertices bs.
Proof.
  induction bs as [|[idx nv] bs IH]; intros cur Hnn Hi Hv.
  - cbn. lia.
  - inversion Hnn as [|b bs' Hnv Hnn']. cbn [snd] in Hnv.
    cbn [grouped total_indices total_vertices fold_right fst snd].
    fold (total_indices bs). fold (total_vertices bs).
    pose proof (len_nonneg idx).
    destruct (snd cur + nv >? MAX_INDEX_VALUE).
    + rewrite last_cons_not_nil by apply grouped_not_nil.
      specialize (IH (len idx, nv) Hnn'). cbn [fst snd] in IH. lia.
    + specialize (IH (fst cur + len idx, snd cur + nv) Hnn').
      cbn [fst snd] in IH. lia.
Qed.

(** The vertex counts the parallel-arrays loop reads off [vertices]. *)
Lemma total_vertices_arrays : forall (vs : list (list T)) (inds : list (list Z)),
  (length vs <= length inds)%nat ->
  total_vertices (batches_of_arrays vs inds) = len (concat vs).
Proof.
  induction vs as [|v vs IH]; intros inds Hle.
  - reflexivity.
  - destruct inds as [|idx inds]; [cbn in Hle; lia|].
    cbn [batches_of_arrays combine map total_vertices fold_right fst snd concat].
    fold (batches_of_arrays vs inds).
    fold (total_vertices (batches_of_arrays vs inds)).
    rewrite IH by (cbn in Hle; lia). now rewrite len_app.
Qed.

Lemma total_indices_arrays : forall (vs : list (list T)) (inds : list (list Z)),
  length vs = length inds ->
  total_indices (batches_of_arrays vs inds) = len (concat inds).
Proof.
  induction vs as [|v vs IH]; intros inds Hle.
  - destruct inds; [reflexivity | discriminate].
  - destruct inds as [|idx inds]; [discriminate|].
    cbn [batches_of_arrays combine map total_indices fold_right fst snd concat].
    fold (batches_of_arrays vs inds).
    fold (total_indices (batches_of_arrays vs inds)).
    rewrite IH by (cbn in Hle; lia). now rewrite len_app.
Qed.

Lemma batches_of_arrays_nonneg (vs : list (list T)) (inds : list (list Z)) :
  Forall (fun b : Batch => 0 <= snd b) (batches_of_arrays vs inds).
Proof.
  unfold batches_of_arrays. apply Forall_forall. intros b Hb.
  apply in_map_iff in Hb. destruct Hb as (p & <- & _). cbn. apply len_nonneg.
Qed.

Lemma total_vertices_nonneg (bs : list Batch) :
  Forall (fun b => 0 <= snd b) bs -> 0 <= total_vertices bs.
Proof.
  induction 1 as [|b bs Hb _ IH]; cbn; [lia|]. fold (total_vertices bs). lia.
Qed.

Lemma compile_arrays_loop_indexed :
  forall (vs : list (list T)) iused irem vpre vrest pre rest cl cur,
    (length vs <= length irem)%nat ->
    stride = sizeof T ->
    0 <= fst cur -> 0 <= snd cur ->
    fst cur + total_indices (batches_of_arrays vs irem) < 2 ^ 31 ->
    snd cur + len (concat vs) < 2 ^ 31 ->
    len vpre + len (concat vs) * sizeof T < 2 ^ 31 ->
    len (concat vs) * sizeof T <= len vrest ->
    len pre + total_indices (batches_of_arrays vs irem) < 2 ^ 31 ->
    total_indices (batches_of_arrays vs irem) <= len rest ->
    compile_arrays_loop MAX_INDEX_VALUE stride true (iused ++ irem)
      (len iused) vs
      {| vertexOffset := snd cur; indexOffset := fst cur;
         vPos := len vpre; iPos := len pre;
         a_vdata := vpre ++ vrest; a_idata := pre ++ rest; a_groups := cl |}
    = let bs := batches_of_arrays vs irem in
      let G := grouped MAX_INDEX_VALUE bs cur in
      Done {| vertexOffset := snd (last G (0, 0));
              indexOffset := fst (last G (0, 0));
              vPos := len vpre + len (concat vs) * sizeof T;
              iPos := len pre + total_indices bs;
              a_vdata := vpre ++ array_bytes (concat vs)
                         ++ skipn (Z.to_nat (len (concat vs) * sizeof T)) vrest;
              a_idata := pre ++ rebased MAX_INDEX_VALUE bs (snd cur)
                         ++ skipn (Z.to_nat (total_indices bs)) rest;
              a_groups := cl ++ removelast G |}.
Proof.
  pose proof sizeof_pos as Hpos.
  induction vs as [|v vs IH];
    intros iused irem vpre vrest pre rest cl [ci cv] Hlen Hst Hci Hcv
           Hi Hv Hvp Hvr Hip Hir; cbn [fst snd] in *.
  - cbn. rewrite !Z.add_0_r, !app_nil_r. reflexivity.
  - destruct irem as [|idx irem]; [cbn in Hlen; lia|].
    cbn [batches_of_arrays combine map fst snd] in *.
    fold (batches_of_arrays vs irem) in *.
    set (bs := batches_of_arrays vs irem) in *.
    cbn [total_indices fold_right fst concat] in *.
    fold (total_indices bs) in *.
    rewrite len_app in *.
    pose proof (len_nonneg v). pose proof (len_nonneg idx).
    pose proof (len_nonneg (concat vs)). pose proof (len_nonneg vpre).
    pose proof (len_nonneg pre). pose proof (total_indices_nonneg bs).
    cbv zeta. cbn [compile_arrays_loop].
    unfold compile_arrays_step.
    cbn [vertexOffset indexOffset vPos iPos a_vdata a_idata a_groups].
    replace (len v * stride) with (len v * sizeof T) by (now rewrite Hst).
    rewrite (to_int_small (len v * sizeof T)) by nia.
    rewrite (to_size_t_small (len v * sizeof T)) by nia.
    rewrite <- len_array_bytes.
    rewrite memcpy_append by (rewrite len_array_bytes; nia).
    cbn [bind]. rewrite load_app. cbn [bind].
    rewrite (to_size_t_small (cv + len v)) by lia.
    rewrite (to_size_t_small MAX_INDEX_VALUE) by lia.
    rewrite store_indices_spec by (unfold len in *; lia).
    cbn [bind].
    cbn [grouped rebased fst snd].
    rewrite (to_int_small (len vpre + len (array_bytes v)))
      by (rewrite len_array_bytes; nia).
    replace (len vpre + len (array_bytes v)) with (len (vpre ++ array_bytes v))
      by (now rewrite len_app).
    replace (len pre + len idx)
      with (len (pre ++ map (fun i => to_uint16
                  (i + (if cv + len v >? MAX_INDEX_VALUE then 0 else cv))) idx))
      by (now rewrite len_app, len_map).
    replace (len iused + 1) with (len (iused ++ [idx])) by apply len_snoc.
    replace (iused ++ idx :: irem) with ((iused ++ [idx]) ++ irem)
      by (now rewrite <- app_assoc).
    rewrite !(app_assoc vpre), !(app_assoc pre).
    assert (Hab : length (array_bytes v) = Z.to_nat (len v * sizeof T))
      by (rewrite <- len_array_bytes; unfold len; lia).
    destruct (cv + len v >? MAX_INDEX_VALUE) eqn:Eov.
    + rewrite !Z.add_0_l, !to_int_small by lia.
      rewrite !to_uint32_small by lia. unfold emplace_back.
      rewrite (IH (iused ++ [idx]) irem _ _ _ _ (cl ++ [(ci, cv)]) (len idx, len v));
        cbn [fst snd]; fold bs; try assumption; try lia.
      * cbv zeta.
        rewrite last_cons_not_nil, removelast_cons_not_nil
          by apply grouped_not_nil.
        rewrite !len_app, len_array_bytes, len_map.
        rewrite array_bytes_app, <- !app_assoc, !skipn_skipn. cbn [app].
        replace (Z.to_nat (len (concat vs) * sizeof T) + length (array_bytes v))%nat
          with (Z.to_nat ((len v + len (concat vs)) * sizeof T))
          by (rewrite Hab; nia).
        replace (Z.to_nat (total_indices bs) + length idx)%nat
          with (Z.to_nat (len idx + total_indices bs)) by (unfold len; lia).
        replace (len vpre + len v * sizeof T + len (concat vs) * sizeof T)
          with (len vpre + (len v + len (concat vs)) * sizeof T) by ring.
        replace (len pre + len idx + total_indices bs)
          with (len pre + (len idx + total_indices bs)) by ring.
        reflexivity.
      * cbn [length] in Hlen. lia.
      * rewrite len_app, len_array_bytes. nia.
      * rewrite len_skipn'; rewrite Hab, Z2Nat.id; nia.
      * rewrite len_app, len_map. lia.
      * rewrite len_skipn'; fold (len idx); lia.
    + rewrite !to_int_small by lia.
      rewrite (IH (iused ++ [idx]) irem _ _ _ _ cl (ci + len idx, cv + len v));
        cbn [fst snd]; fold bs; try assumption; try lia.
      * cbv zeta.
        rewrite !len_app, len_array_bytes, len_map.
        rewrite array_bytes_app, <- !app_assoc, !skipn_skipn.
        replace (Z.to_nat (len (concat vs) * sizeof T) + length (array_bytes v))%nat
          with (Z.to_nat ((len v + len (concat vs)) * sizeof T))
          by (rewrite Hab; nia).
        replace (Z.to_nat (total_indices bs) + length idx)%nat
          with (Z.to_nat (len idx + total_indices bs)) by (unfold len; lia).
        replace (len vpre + len v * sizeof T + len (concat vs) * sizeof T)
          with (len vpre + (len v + len (concat vs)) * sizeof T) by ring.
        replace (len pre + len idx + total_indices bs)
          with (len pre + (len idx + total_indices bs)) by ring.
        reflexivity.
      * cbn [length] in Hlen. lia.
      * rewrite len_app, len_array_bytes. nia.
      * rewrite len_skipn'; rewrite Hab, Z2Nat.id; nia.
      * rewrite len_app, len_map. lia.
      * rewrite len_skipn'; fold (len idx); lia.
Qed.

Lemma compile_arrays_loop_unindexed :
  forall (vs : list (list T)) inds i vpre vrest vo io ip idata cl,
    stride = sizeof T ->
    0 <= vo ->
    vo + len (concat vs) < 2 ^ 31 ->
    len vpre + len (concat vs) * sizeof T < 2 ^ 31 ->
    len (concat vs) * sizeof T <= len vrest ->
    compile_arrays_loop MAX_INDEX_VALUE stride false inds i vs
      {| vertexOffset := vo; indexOffset := io;
         vPos := len vpre; iPos := ip;
         a_vdata := vpre ++ vrest; a_idata := idata; a_groups := cl |}
    = Done {| vertexOffset := vo + len (concat vs); indexOffset := io;
              vPos := len vpre + len (concat vs) * sizeof T; iPos := ip;
              a_vdata := vpre ++ array_bytes (concat vs)
                         ++ skipn (Z.to_nat (len (concat vs) * sizeof T)) vrest;
              a_idata := idata; a_groups := cl |}.
Proof.
  pose proof sizeof_pos as Hpos.
  induction vs as [|v vs IH];
    intros inds i vpre vrest vo io ip idata cl Hst Hvo Hv Hvp Hvr.
  - cbn. rewrite !Z.add_0_r. reflexivity.
  - cbn [concat] in *. rewrite len_app in *.
    pose proof (len_nonneg v). pose proof (len_nonneg (concat vs)).
    pose proof (len_nonneg vpre).
    cbn [compile_arrays_loop]. unfold compile_arrays_step.
    cbn [vertexOffset indexOffset vPos iPos a_vdata a_idata a_groups].
    replace (len v * stride) with (len v * sizeof T) by (now rewrite Hst).
    rewrite (to_int_small (len v * sizeof T)) by nia.
    rewrite (to_size_t_small (len v * sizeof T)) by nia.
    rewrite <- len_array_bytes.
    rewrite memcpy_append by (rewrite len_array_bytes; nia).
    cbn [bind].
    rewrite (to_int_small (len vpre + len (array_bytes v)))
      by (rewrite len_array_bytes; nia).
    rewrite (to_int_small (vo + len v)) by lia.
    replace (len vpre + len (array_bytes v)) with (len (vpre ++ array_bytes v))
      by (now rewrite len_app).
    rewrite (app_assoc vpre).
    assert (Hab : length (array_bytes v) = Z.to_nat (len v * sizeof T))
      by (rewrite <- len_array_bytes; unfold len; lia).
    rewrite IH; try assumption; try lia.
    + rewrite len_app, len_array_bytes.
      rewrite array_bytes_app, <- !app_assoc, skipn_skipn.
      replace (Z.to_nat (len (concat vs) * sizeof T) + length (array_bytes v))%nat
        with (Z.to_nat ((len v + len (concat vs)) * sizeof T))
        by (rewrite Hab; nia).
      replace (len vpre + len v * sizeof T + len (concat vs) * sizeof T)
        with (len vpre + (len v + len (concat vs)) * sizeof T) by ring.
      replace (vo + len v + len (concat vs))
        with (vo + (len v + len (concat vs))) by ring.
      reflexivity.
    + rewrite len_app, len_array_bytes. nia.
    + rewrite len_skipn'; rewrite Hab, Z2Nat.id; nia.
Qed.

(** The parallel-arrays entry point, with indices, runs to its end on
    well-formed input and leaves what the spec's partitioner yields for
    the features taken as batches. *)
Lemma compile_arrays_spec (vs : list (list T)) (inds : list (list Z))
    (m : VboMesh) :
  length vs = length inds ->
  stride = sizeof T ->
  m_nVertices m = len (concat vs) ->
  m_nIndices m = len (concat inds) ->
  0 < m_nIndices m ->
  len (concat vs) * sizeof T < 2 ^ 31 ->
  len (concat inds) < 2 ^ 31 ->
  compile_arrays MAX_INDEX_VALUE stride vs inds m
  = Done {| m_isCompiled := true;
            m_nVertices := m_nVertices m;
            m_nIndices := m_nIndices m;
            m_glVertexData := Some (array_bytes (concat vs));
            m_glIndexData :=
              Some (rebased MAX_INDEX_VALUE (batches_of_arrays vs inds) 0);
            m_vertexOffsets :=
              m_vertexOffsets m
              ++ grouped MAX_INDEX_VALUE (batches_of_arrays vs inds) (0, 0);
            m_dirty := m_dirty m; m_dirtyOffset := m_dirtyOffset m;
            m_dirtySize := m_dirtySize m |}.
Proof.
  intros Hlen Hst HnV HnI Hpos Hvb Hib.
  pose proof sizeof_pos as Hsz.
  pose proof (len_nonneg (concat vs)) as Hv0.
  pose proof (total_indices_arrays vs inds Hlen) as Hti.
  unfold compile_arrays.
  destruct (Z.gtb_spec (m_nIndices m) 0) as [_|]; [|lia].
  replace (stride * m_nVertices m) with (len (concat vs) * sizeof T)
    by (rewrite Hst, HnV; ring).
  rewrite to_size_t_small by nia.
  pose proof (compile_arrays_loop_indexed vs [] inds
                [] (new_bytes (len (concat vs) * sizeof T))
                [] (new_indices (m_nIndices m))
                (m_vertexOffsets m) (0, 0)) as HL.
  cbn [app fst snd] in HL.
  change (@len byte []) with 0 in HL. change (@len Z []) with 0 in HL.
  change (@len (list Z) []) with 0 in HL.
  rewrite HL; try assumption; try (rewrite ?Hti; lia || nia).
  - clear HL.
    cbv zeta. cbn [bind a_vdata a_idata a_groups indexOffset vertexOffset].
    set (G := grouped MAX_INDEX_VALUE (batches_of_arrays vs inds) (0, 0)).
    destruct (grouped_last_bounds (batches_of_arrays vs inds) (0, 0))
      as [Hb1 Hb2]; cbn [fst snd]; try lia.
    { apply batches_of_arrays_nonneg. }
    fold G in Hb1, Hb2.
    rewrite total_vertices_arrays in Hb2 by lia. rewrite Hti in Hb1.
    assert (Hv31 : len (concat vs) < 2 ^ 31) by nia.
    cbn [fst snd] in Hb1, Hb2.
    rewrite !to_uint32_small by lia.
    unfold emplace_back. rewrite <- surjective_pairing, <- app_assoc.
    rewrite <- app_removelast_last by apply grouped_not_nil.
    unfold new_bytes, new_indices.
    rewrite !skipn_all2 by (rewrite repeat_length; rewrite ?Hti, ?HnI; lia).
    rewrite !app_nil_r. reflexivity.
  - unfold new_bytes. rewrite len_repeat. nia.
  - unfold new_indices. rewrite len_repeat, Hti. lia.
Qed.

(** Without indices ([m_nIndices] is 0) the loop does not partition: all
    vertices go to the one group appended at the end. *)
Lemma compile_arrays_unindexed_spec (vs : list (list T))
    (inds : list (list Z)) (m : VboMesh) :
  stride = sizeof T ->
  m_nVertices m = len (concat vs) ->
  m_nIndices m = 0 ->
  len (concat vs) * sizeof T < 2 ^ 31 ->
  compile_arrays MAX_INDEX_VALUE stride vs inds m
  = Done {| m_isCompiled := true;
            m_nVertices := m_nVertices m;
            m_nIndices := m_nIndices m;
            m_glVertexData := Some (array_bytes (concat vs));
            m_glIndexData := m_glIndexData m;
            m_vertexOffsets := m_vertexOffsets m ++ [(0, len (concat vs))];
            m_dirty := m_dirty m; m_dirtyOffset := m_dirtyOffset m;
            m_dirtySize := m_dirtySize m |}.
Proof.
  intros Hst HnV HnI Hvb.
  pose proof sizeof_pos as Hsz.
  pose proof (len_nonneg (concat vs)) as Hv0.
  unfold compile_arrays. rewrite HnI. change (0 >? 0) with false. cbv iota.
  replace (stride * m_nVertices m) with (len (concat vs) * sizeof T)
    by (rewrite Hst, HnV; ring).
  rewrite to_size_t_small by nia.
  pose proof (compile_arrays_loop_unindexed vs inds 0
                [] (new_bytes (len (concat vs) * sizeof T))
                0 0 0 [] (m_vertexOffsets m)) as HL.
  cbn [app] in HL. change (@len byte []) with 0 in HL.
  rewrite HL; try assumption; try (lia || nia).
  - clear HL.
    cbn [bind a_vdata a_idata a_groups indexOffset vertexOffset].
    rewrite Z.add_0_l, !to_uint32_small by nia.
    unfold emplace_back, new_bytes.
    rewrite skipn_all2 by (rewrite repeat_length; lia).
    rewrite app_nil_r. reflexivity.
  - unfold new_bytes. rewrite len_repeat. nia.
Qed.

End CompileFacts.

(** ** Properties of compiled meshes *)

Section CompiledMeshes.

Context {T : Type} `{PodT : Pod T}.

Variable MAX_INDEX_VALUE : Z.
Variable stride : Z.

Hypothesis MAX_range : 0 <= MAX_INDEX_VALUE < 2 ^ 64.
Hypothesis stride_sizeof : stride = sizeof T.

Lemma groups_of_meshes_sums (ms : list (MeshData T)) :
  Forall mesh_data_ok ms ->
  sum_indexCount (groups_of_meshes MAX_INDEX_VALUE ms) = index_total ms
  /\ sum_vertexCount (groups_of_meshes MAX_INDEX_VALUE ms) = vertex_total ms.
Proof.
  induction 1 as [|d ms (Hnn & Hi & Hv) _ [IHi IHv]].
  - split; reflexivity.
  - unfold groups_of_meshes. cbn [flat_map].
    fold (groups_of_meshes MAX_INDEX_VALUE ms).
    rewrite sum_indexCount_app, sum_vertexCount_app.
    rewrite grouped_sum_indexCount, grouped_sum_vertexCount, IHi, IHv.
    unfold batches_of_mesh.
    rewrite total_indices_batches, total_vertices_batches by (assumption || lia).
    cbn [fst snd index_total vertex_total fold_right].
    fold (index_total ms). fold (vertex_total ms). lia.
Qed.

Lemma len_stream_of_meshes (ms : list (MeshData T)) :
  Forall mesh_data_ok ms ->
  len (stream_of_meshes MAX_INDEX_VALUE ms) = index_total ms.
Proof.
  induction 1 as [|d ms Hd _ IH].
  - reflexivity.
  - unfold stream_of_meshes. cbn [flat_map].
    fold (stream_of_meshes MAX_INDEX_VALUE ms).
    rewrite len_app, IH, len_stream_of_mesh by assumption. reflexivity.
Qed.

Lemma groups_of_meshes_bound (ms : list (MeshData T)) :
  Forall mesh_data_ok ms ->
  Forall (fun d => Forall (batch_ok MAX_INDEX_VALUE) (batches_of_mesh d)) ms ->
  group_bound MAX_INDEX_VALUE (groups_of_meshes MAX_INDEX_VALUE ms)
              (stream_of_meshes MAX_INDEX_VALUE ms) = true.
Proof.
  induction 1 as [|d ms Hd Hms IH]; intros Hb.
  - reflexivity.
  - inversion Hb as [|d' ms' Hbd Hbms]. subst d' ms'.
    unfold groups_of_meshes, stream_of_meshes. cbn [flat_map].
    fold (groups_of_meshes MAX_INDEX_VALUE ms).
    fold (stream_of_meshes MAX_INDEX_VALUE ms).
    apply group_bound_app.
    + apply grouped_indexCount_nonneg. cbn. lia.
    + rewrite grouped_sum_indexCount, len_rebased. reflexivity.
    + apply (grouped_bound MAX_INDEX_VALUE (batches_of_mesh d) (0, 0) []);
        cbn [fst snd]; try assumption; try reflexivity. lia.
    + apply IH. assumption.
Qed.

(** C5. Conservation.  A mesh compiled once, by either entry point, from
    input that meets the entry point's preconditions has group index counts
    that add up to [m_nIndices] and group vertex counts that add up to
    [m_nVertices]. *)
Theorem compiled_counts_conserved (m : VboMesh) :
  m_vertexOffsets m = [] ->
  (forall ms : list (MeshData T),
     meshes_ok ms ->
     exists m',
       compile_meshes MAX_INDEX_VALUE stride ms m = Done m'
       /\ sum_indexCount (m_vertexOffsets m') = m_nIndices m'
       /\ sum_vertexCount (m_vertexOffsets m') = m_nVertices m')
  /\ (forall (vs : list (list T)) (inds : list (list Z)),
        arrays_ok vs inds m ->
        exists m',
          compile_arrays MAX_INDEX_VALUE stride vs inds m = Done m'
          /\ sum_indexCount (m_vertexOffsets m') = m_nIndices m'
          /\ sum_vertexCount (m_vertexOffsets m') = m_nVertices m').
Proof.
  intros Hfresh. split.
  - intros ms (Hok & Hi & Hv & Hb).
    rewrite (compile_meshes_spec MAX_INDEX_VALUE stride MAX_range ms m)
      by assumption.
    eexists. split; [reflexivity|].
    cbn [m_vertexOffsets m_nIndices m_nVertices]. rewrite Hfresh. cbn [app].
    now apply groups_of_meshes_sums.
  - intros vs inds (Hlen & HnV & HnI & Hvb & Hib).
    pose proof (len_nonneg (concat inds)) as Hi0.
    destruct (Z.eq_dec (m_nIndices m) 0) as [Hz|Hnz].
    + rewrite (compile_arrays_unindexed_spec MAX_INDEX_VALUE stride vs inds m)
        by assumption.
      eexists. split; [reflexivity|].
      cbn [m_vertexOffsets m_nIndices m_nVertices]. rewrite Hfresh, Hz, HnV.
      cbn. split; lia.
    + rewrite (compile_arrays_spec MAX_INDEX_VALUE stride MAX_range vs inds m)
        by (assumption || lia).
      eexists. split; [reflexivity|].
      cbn [m_vertexOffsets m_nIndices m_nVertices]. rewrite Hfresh. cbn [app].
      rewrite grouped_sum_indexCount, grouped_sum_vertexCount.
      rewrite total_indices_arrays, total_vertices_arrays by lia.
      cbn [fst snd]. rewrite HnI, HnV. split; lia.
Qed.

(** C1, amended.  When every batch has at most [MAX_INDEX_VALUE] vertices
    and local indices below its own vertex count, and, on the
    parallel-arrays entry point, the mesh is indexed ([m_nIndices > 0]),
    every group of the compiled mesh has at most [MAX_INDEX_VALUE]
    vertices and every index in the span of a group is below the vertex
    count of that group. *)
Theorem compiled_groups_bounded (m : VboMesh) :
  m_vertexOffsets m = [] ->
  (forall ms : list (MeshData T),
     meshes_ok ms ->
     Forall (fun d => Forall (batch_ok MAX_INDEX_VALUE) (batches_of_mesh d)) ms ->
     exists m' idata,
       compile_meshes MAX_INDEX_VALUE stride ms m = Done m'
       /\ m_glIndexData m' = Some idata
       /\ group_bound MAX_INDEX_VALUE (m_vertexOffsets m') idata = true)
  /\ (forall (vs : list (list T)) (inds : list (list Z)),
        arrays_ok vs inds m ->
        0 < m_nIndices m ->
        Forall (batch_ok MAX_INDEX_VALUE) (batches_of_arrays vs inds) ->
        exists m' idata,
          compile_arrays MAX_INDEX_VALUE stride vs inds m = Done m'
          /\ m_glIndexData m' = Some idata
          /\ group_bound MAX_INDEX_VALUE (m_vertexOffsets m') idata = true).
Proof.
  intros Hfresh. split.
  - intros ms (Hok & Hi & Hv & Hb) Hbatch.
    rewrite (compile_meshes_spec MAX_INDEX_VALUE stride MAX_range ms m)
      by assumption.
    eexists. eexists. split; [reflexivity|]. split; [reflexivity|].
    cbn [m_vertexOffsets]. rewrite Hfresh. cbn [app].
    now apply groups_of_meshes_bound.
  - intros vs inds (Hlen & HnV & HnI & Hvb & Hib) Hpos Hbatch.
    rewrite (compile_arrays_spec MAX_INDEX_VALUE stride MAX_range vs inds m)
      by assumption.
    eexists. eexists. split; [reflexivity|]. split; [reflexivity|].
    cbn [m_vertexOffsets]. rewrite Hfresh. cbn [app].
    apply (grouped_bound MAX_INDEX_VALUE (batches_of_arrays vs inds) (0, 0) []);
      cbn [fst snd]; try assumption; try reflexivity. lia.
Qed.

End CompiledMeshes.

(** ** The two entry points side by side *)

Section EntryPoints.

Context {T : Type} `{PodT : Pod T}.

Variable MAX_INDEX_VALUE : Z.
Variable stride : Z.

Hypothesis MAX_range : 0 <= MAX_INDEX_VALUE < 2 ^ 64.
Hypothesis stride_sizeof : stride = sizeof T.

Lemma batches_of_mesh_of_arrays : forall (vs : list (list T)) inds,
  length vs = length inds ->
  batches_of_mesh (mesh_of_arrays vs inds) = batches_of_arrays vs inds.
Proof.
  unfold batches_of_mesh, mesh_of_arrays, batches_of_arrays.
  cbn [offsets indices].
  induction vs as [|v vs IH]; intros inds Hlen.
  - destruct inds; [reflexivity | discriminate].
  - destruct inds as [|idx inds]; [discriminate|].
    cbn [combine map concat batches_of_offsets fst snd].
    replace (Z.to_nat (len idx)) with (length idx) by (unfold len; lia).
    rewrite firstn_app_exact, skipn_app_exact.
    rewrite IH by (cbn in Hlen; lia). reflexivity.
Qed.

Lemma mesh_of_arrays_ok (vs : list (list T)) (inds : list (list Z)) :
  length vs = length inds -> mesh_data_ok (mesh_of_arrays vs inds).
Proof.
  intros Hlen. unfold mesh_data_ok, mesh_of_arrays.
  cbn [offsets indices vertices]. split; [|split].
  - apply Forall_forall. intros p Hp. apply in_map_iff in Hp.
    destruct Hp as (q & <- & _). cbn. split; apply len_nonneg.
  - revert inds Hlen. induction vs as [|v vs IH]; intros inds Hlen.
    + destruct inds; [reflexivity | discriminate].
    + destruct inds as [|idx inds]; [discriminate|].
      cbn [combine map concat sum_indexCount fold_right fst snd].
      fold (sum_indexCount
              (map (fun p => (len (snd p), len (fst p))) (combine vs inds))).
      rewrite IH by (cbn in Hlen; lia). now rewrite len_app.
  - revert inds Hlen. induction vs as [|v vs IH]; intros inds Hlen.
    + destruct inds; [reflexivity | discriminate].
    + destruct inds as [|idx inds]; [discriminate|].
      cbn [combine map concat sum_vertexCount fold_right fst snd].
      fold (sum_vertexCount
              (map (fun p => (len (snd p), len (fst p))) (combine vs inds))).
      rewrite IH by (cbn in Hlen; lia). now rewrite len_app.
Qed.

(** C3, amended.  The two entry points agree when the geometry is given to
    the grouped-batches entry point as one mesh whose batches are the
    features of the parallel arrays, the mesh being indexed: they leave the
    same mesh, so the same index stream and the same group list.  Over a
    sequence of meshes the grouped-batches entry point starts the
    partitioner again on every mesh, at a new (0, 0) group and a running
    vertex count of 0. *)
Theorem entry_points_agree_on_one_mesh
    (vs : list (list T)) (inds : list (list Z)) (m : VboMesh) :
  m_vertexOffsets m = [] ->
  arrays_ok vs inds m ->
  0 < m_nIndices m ->
  (exists m',
     compile_meshes MAX_INDEX_VALUE stride [mesh_of_arrays vs inds] m = Done m'
     /\ compile_arrays MAX_INDEX_VALUE stride vs inds m = Done m')
  /\ (forall ms : list (MeshData T),
        meshes_ok ms ->
        exists m',
          compile_meshes MAX_INDEX_VALUE stride ms m = Done m'
          /\ m_vertexOffsets m'
             = flat_map (fun d => grouped MAX_INDEX_VALUE (batches_of_mesh d)
                                          (0, 0)) ms
          /\ m_glIndexData m'
             = Some (flat_map (fun d => rebased MAX_INDEX_VALUE
                                                (batches_of_mesh d) 0) ms)).
Proof.
  intros Hfresh (Hlen & HnV & HnI & Hvb & Hib) Hpos.
  pose proof sizeof_pos as Hsz.
  pose proof (len_nonneg (concat vs)) as Hv0.
  split.
  - rewrite (compile_arrays_spec MAX_INDEX_VALUE stride MAX_range vs inds m)
      by assumption.
    rewrite (compile_meshes_spec MAX_INDEX_VALUE stride MAX_range
               [mesh_of_arrays vs inds] m).
    + eexists. split; [|reflexivity]. f_equal.
      unfold groups_of_meshes, stream_of_meshes.
      cbn [flat_map vertex_total index_total fold_right].
      rewrite batches_of_mesh_of_arrays by assumption.
      cbn [mesh_of_arrays vertices indices].
      rewrite !app_nil_r, !Z.add_0_r, HnV, HnI. reflexivity.
    + constructor; [now apply mesh_of_arrays_ok | constructor].
    + assumption.
    + cbn [index_total fold_right mesh_of_arrays indices]. lia.
    + cbn [vertex_total fold_right mesh_of_arrays vertices]. nia.
    + cbn [vertex_total fold_right mesh_of_arrays vertices]. nia.
  - intros ms (Hok & Hi & Hv & Hb).
    rewrite (compile_meshes_spec MAX_INDEX_VALUE stride MAX_range ms m)
      by assumption.
    eexists. split; [reflexivity|].
    cbn [m_vertexOffsets m_glIndexData]. rewrite Hfresh.
    split; reflexivity.
Qed.

(** C4, amended.  On the empty input both entry points leave
    [m_nVertices = 0] and [m_nIndices = 0].  The parallel-arrays entry
    point leaves exactly one group, (0, 0).  The grouped-batches entry
    point opens a group per mesh: an empty sequence of meshes leaves the
    group list empty, one mesh without batches leaves exactly the group
    (0, 0). *)
Theorem compile_empty_input :
  (exists m',
     compile_arrays MAX_INDEX_VALUE stride (@nil (list T)) [] newMesh = Done m'
     /\ m_nVertices m' = 0 /\ m_nIndices m' = 0
     /\ m_vertexOffsets m' = [(0, 0)])
  /\ (exists m',
        compile_meshes MAX_INDEX_VALUE stride (@nil (MeshData T)) newMesh
        = Done m'
        /\ m_nVertices m' = 0 /\ m_nIndices m' = 0
        /\ m_vertexOffsets m' = [])
  /\ (exists m',
        compile_meshes MAX_INDEX_VALUE stride
          [{| offsets := []; vertices := @nil T; indices := [] |}] newMesh
        = Done m'
        /\ m_nVertices m' = 0 /\ m_nIndices m' = 0
        /\ m_vertexOffsets m' = [(0, 0)]).
Proof.
  split; [|split].
  - eexists. split; [reflexivity|]. repeat split; reflexivity.
  - eexists. split; [reflexivity|]. repeat split; reflexivity.
  - eexists. split; [reflexivity|]. repeat split; reflexivity.
Qed.

End EntryPoints.

(** ** Overflow splitting at [MAX_INDEX_VALUE = 65536] *)

Section OverflowSplitting.

Context {T : Type} `{PodT : Pod T}.

Lemma iota_uint16_len (n : nat) : len (iota_uint16 n) = Z.of_nat n.
Proof. unfold iota_uint16. rewrite len_map. unfold len. now rewrite length_seq. Qed.

Lemma iota_uint16_rebase_0 (n : nat) :
  map (fun i => to_uint16 (i + 0)) (iota_uint16 n) = iota_uint16 n.
Proof.
  unfold iota_uint16. rewrite map_map. apply map_ext. intros k.
  rewrite Z.add_0_r. unfold to_uint16, wrap_unsigned. apply Z.mod_mod. lia.
Qed.

Lemma one_oversize_batch (vs : list T) (idx : list Z) :
  len vs = 70000 ->
  len idx = 70000 ->
  map (fun i => to_uint16 (i + 0)) idx = idx ->
  70000 * sizeof T < 2 ^ 31 ->
  (exists m',
     compile_meshes 65536 (sizeof T)
       [{| offsets := [(70000, 70000)]; vertices := vs; indices := idx |}]
       newMesh = Done m'
     /\ m_vertexOffsets m' = [(0, 0); (70000, 70000)]
     /\ m_glIndexData m' = Some idx)
  /\ (exists m',
        compile_arrays 65536 (sizeof T) [vs] [idx]
          (with_counts 70000 70000 newMesh) = Done m'
        /\ m_vertexOffsets m' = [(0, 0); (70000, 70000)]
        /\ m_glIndexData m' = Some idx).
Proof.
  intros Hvs Hidx Hself Hsz.
  assert (Hmax : 0 <= 65536 < 2 ^ 64) by lia.
  assert (Hfirst : firstn (Z.to_nat 70000) idx = idx).
  { apply firstn_all2. unfold len in Hidx. lia. }
  split.
  - set (d := {| offsets := [(70000, 70000)]; vertices := vs; indices := idx |}).
    rewrite (compile_meshes_spec 65536 (sizeof T) Hmax [d] newMesh).
    + assert (Hg : groups_of_meshes 65536 [d] = [(0, 0); (70000, 70000)]).
      { unfold groups_of_meshes, batches_of_mesh, d.
        cbn [flat_map offsets indices batches_of_offsets grouped fst snd].
        change (0 + 70000 >? 65536) with true. cbv iota.
        rewrite Hfirst, Hidx. reflexivity. }
      assert (Hs : stream_of_meshes 65536 [d] = idx).
      { unfold stream_of_meshes, batches_of_mesh, d.
        cbn [flat_map offsets indices batches_of_offsets rebased fst snd].
        change (0 + 70000 >? 65536) with true. cbv iota.
        rewrite Hfirst, Hself, !app_nil_r. reflexivity. }
      eexists. split; [reflexivity|].
      cbn [m_vertexOffsets m_glIndexData newMesh app]. rewrite Hg, Hs.
      split; reflexivity.
    + constructor; [|constructor]. unfold mesh_data_ok, d.
      cbn [offsets indices vertices sum_indexCount sum_vertexCount
           fold_right fst snd].
      split; [|lia]. constructor; [cbn; lia | constructor].
    + reflexivity.
    + unfold d. cbn [index_total fold_right indices]. lia.
    + unfold d. cbn [vertex_total fold_right vertices]. lia.
    + unfold d. cbn [vertex_total fold_right vertices]. lia.
  - rewrite (compile_arrays_spec 65536 (sizeof T) Hmax [vs] [idx]
               (with_counts 70000 70000 newMesh));
      cbn [concat with_counts m_nVertices m_nIndices length];
      rewrite ?app_nil_r; try lia; try reflexivity.
    assert (Hg : grouped 65536 (batches_of_arrays [vs] [idx]) (0, 0)
                 = [(0, 0); (70000, 70000)]).
    { unfold batches_of_arrays. cbn [combine map fst snd grouped].
      rewrite Hvs. change (0 + 70000 >? 65536) with true. cbv iota.
      rewrite Hidx. reflexivity. }
    assert (Hs : rebased 65536 (batches_of_arrays [vs] [idx]) 0 = idx).
    { unfold batches_of_arrays. cbn [combine map fst snd rebased].
      rewrite Hvs. change (0 + 70000 >? 65536) with true. cbv iota.
      rewrite Hself, app_nil_r. reflexivity. }
    eexists. split; [reflexivity|].
    cbn [m_vertexOffsets m_glIndexData newMesh app]. rewrite Hg, Hs.
    split; reflexivity.
Qed.

(** C2, amended.  With [MAX_INDEX_VALUE = 65536], one batch of 70000
    vertices with the index list 0 .. 69999, as 16-bit indices hold it,
    compiles on either entry point to exactly two groups: the group opened
    before the batch is closed empty, and the group opened for the batch
    holds all its 70000 indices and all its 70000 vertices, more than
    [MAX_INDEX_VALUE], a batch being placed whole.  The index stream is
    stored as it was given, the base of the new group being 0, so that the
    indices of the second group start at 0. *)
Theorem overflow_splitting (vs : list T) :
  len vs = 70000 ->
  70000 * sizeof T < 2 ^ 31 ->
  let idx := iota_uint16 (Z.to_nat 70000) in
  (exists m',
     compile_meshes 65536 (sizeof T)
       [{| offsets := [(70000, 70000)]; vertices := vs; indices := idx |}]
       newMesh = Done m'
     /\ m_vertexOffsets m' = [(0, 0); (70000, 70000)]
     /\ m_glIndexData m' = Some idx
     /\ nth_error idx (Z.to_nat 0) = Some 0)
  /\ (exists m',
        compile_arrays 65536 (sizeof T) [vs] [idx]
          (with_counts 70000 70000 newMesh) = Done m'
        /\ m_vertexOffsets m' = [(0, 0); (70000, 70000)]
        /\ m_glIndexData m' = Some idx
        /\ nth_error idx (Z.to_nat 0) = Some 0).
Proof.
  intros Hvs Hsz idx.
  assert (Hhd : nth_error idx (Z.to_nat 0) = Some 0)
    by (unfold idx; vm_compute; reflexivity).
  destruct (one_oversize_batch vs idx) as [(m1 & E1 & G1 & I1)
                                           (m2 & E2 & G2 & I2)];
    try assumption.
  - unfold idx. rewrite iota_uint16_len. lia.
  - apply iota_uint16_rebase_0.
  - split.
    + exists m1. repeat split; assumption.
    + exists m2. repeat split; assumption.
Qed.

End OverflowSplitting.

(** ** The entry points on concrete input *)

Lemma overflow_splitting_witness :
  let vs := repeat x00 (Z.to_nat 70000) in
  let idx := iota_uint16 (Z.to_nat 70000) in
  (exists m',
     compile_meshes 65536 (sizeof byte)
       [{| offsets := [(70000, 70000)]; vertices := vs; indices := idx |}]
       newMesh = Done m'
     /\ m_vertexOffsets m' = [(0, 0); (70000, 70000)]
     /\ m_glIndexData m' = Some idx
     /\ nth_error idx (Z.to_nat 0) = Some 0)
  /\ (exists m',
        compile_arrays 65536 (sizeof byte) [vs] [idx]
          (with_counts 70000 70000 newMesh) = Done m'
        /\ m_vertexOffsets m' = [(0, 0); (70000, 70000)]
        /\ m_glIndexData m' = Some idx
        /\ nth_error idx (Z.to_nat 0) = Some 0).
Proof.
  apply (overflow_splitting (repeat x00 (Z.to_nat 70000))).
  - rewrite len_repeat. lia.
  - cbn. lia.
Defined.

(** C2 as stated fails: the batch of 70000 vertices is not split.  On
    either entry point the first group takes none of its vertices and the
    second takes them all, 70000 being more than [MAX_INDEX_VALUE]. *)
Lemma overflow_not_split_counterexample :
  let vs := repeat x00 (Z.to_nat 70000) in
  let idx := iota_uint16 (Z.to_nat 70000) in
  (exists m',
     compile_meshes 65536 (sizeof byte)
       [{| offsets := [(70000, 70000)]; vertices := vs; indices := idx |}]
       newMesh = Done m'
     /\ ~ overflow_split 70000 m'
     /\ Exists (fun g => snd g > 65536) (m_vertexOffsets m'))
  /\ (exists m',
        compile_arrays 65536 (sizeof byte) [vs] [idx]
          (with_counts 70000 70000 newMesh) = Done m'
        /\ ~ overflow_split 70000 m'
        /\ Exists (fun g => snd g > 65536) (m_vertexOffsets m')).
Proof.
  cbv zeta.
  assert (Hno : forall m' : VboMesh,
            m_vertexOffsets m' = [(0, 0); (70000, 70000)] ->
            ~ overflow_split 70000 m'
            /\ Exists (fun g => snd g > 65536) (m_vertexOffsets m')).
  { intros m' Hg. unfold overflow_split. rewrite Hg. split.
    - destruct (m_glIndexData m'); [|tauto].
      cbn [snd]. intros (H & _). lia.
    - right. left. cbn [snd]. lia. }
  destruct (one_oversize_batch (repeat x00 (Z.to_nat 70000))
              (iota_uint16 (Z.to_nat 70000)))
    as [(m1 & E1 & G1 & _) (m2 & E2 & G2 & _)].
  - rewrite len_repeat. lia.
  - rewrite iota_uint16_len. lia.
  - apply iota_uint16_rebase_0.
  - cbn. lia.
  - split.
    + exists m1. split; [exact E1 | apply Hno; exact G1].
    + exists m2. split; [exact E2 | apply Hno; exact G2].
Qed.

(** Closed side conditions on concrete input. *)
Ltac closed_goal :=
  first [ lia
        | solve [vm_compute; reflexivity]
        | solve [vm_compute; discriminate] ].

Lemma sample_arrays_ok :
  arrays_ok sample_vertices sample_indices (with_counts 2 3 newMesh).
Proof. unfold arrays_ok. repeat split; closed_goal. Defined.

Lemma sample_meshes_ok :
  meshes_ok [mesh_of_arrays sample_vertices sample_indices].
Proof.
  unfold meshes_ok. split; [|repeat split; closed_goal].
  constructor; [|constructor].
  unfold mesh_data_ok. split; [|split; closed_goal].
  constructor; [split; closed_goal | constructor].
Defined.

Lemma sample_batches_ok :
  Forall (batch_ok 65536) (batches_of_arrays sample_vertices sample_indices).
Proof.
  constructor; [|constructor]. unfold batch_ok.
  split; [split; closed_goal|].
  repeat constructor; closed_goal.
Defined.

Lemma compiled_counts_conserved_witness :
  let m := with_counts 2 3 newMesh in
  (exists m',
     compile_meshes 65536 1 [mesh_of_arrays sample_vertices sample_indices] m
     = Done m'
     /\ sum_indexCount (m_vertexOffsets m') = m_nIndices m'
     /\ sum_vertexCount (m_vertexOffsets m') = m_nVertices m')
  /\ (exists m',
        compile_arrays 65536 1 sample_vertices sample_indices m = Done m'
        /\ sum_indexCount (m_vertexOffsets m') = m_nIndices m'
        /\ sum_vertexCount (m_vertexOffsets m') = m_nVertices m').
Proof.
  cbv zeta.
  destruct (compiled_counts_conserved (T := byte) (PodT := Pod_byte) 65536 1
              ltac:(lia) eq_refl (with_counts 2 3 newMesh) eq_refl)
    as [Ha Hb].
  split.
  - apply Ha. exact sample_meshes_ok.
  - apply Hb. exact sample_arrays_ok.
Defined.

Lemma compiled_groups_bounded_witness :
  let m := with_counts 2 3 newMesh in
  (exists m' idata,
     compile_meshes 65536 1 [mesh_of_arrays sample_vertices sample_indices] m
     = Done m'
     /\ m_glIndexData m' = Some idata
     /\ group_bound 65536 (m_vertexOffsets m') idata = true)
  /\ (exists m' idata,
        compile_arrays 65536 1 sample_vertices sample_indices m = Done m'
        /\ m_glIndexData m' = Some idata
        /\ group_bound 65536 (m_vertexOffsets m') idata = true).
Proof.
  cbv zeta.
  destruct (compiled_groups_bounded (T := byte) (PodT := Pod_byte) 65536 1
              ltac:(lia) eq_refl (with_counts 2 3 newMesh) eq_refl)
    as [Ha Hb].
  split.
  - apply Ha; [exact sample_meshes_ok|].
    constructor; [|constructor]. exact sample_batches_ok.
  - apply Hb; [exact sample_arrays_ok | closed_goal | exact sample_batches_ok].
Defined.

(** C1 as stated fails on a batch of more than [MAX_INDEX_VALUE] vertices,
    which the code places whole in one group, and on the parallel-arrays
    entry point without indices, which puts all vertices in one group. *)
Lemma group_bound_counterexample :
  (exists m' idata,
     compile_meshes 65536 1
       [{| offsets := [(1, 65537)];
           vertices := repeat x00 (Z.to_nat 65537);
           indices := [0] |}] newMesh = Done m'
     /\ m_glIndexData m' = Some idata
     /\ m_vertexOffsets m' = [(0, 0); (1, 65537)]
     /\ group_bound 65536 (m_vertexOffsets m') idata = false)
  /\ (exists m',
        compile_arrays 65536 1
          [repeat x00 (Z.to_nat 40000); repeat x00 (Z.to_nat 40000)] [[]; []]
          (with_counts 80000 0 newMesh) = Done m'
        /\ m_vertexOffsets m' = [(0, 80000)]
        /\ group_bound 65536 (m_vertexOffsets m') [] = false).
Proof.
  assert (Hmax : 0 <= 65536 < 2 ^ 64) by lia.
  split.
  - rewrite (compile_meshes_spec (T := byte) (PodT := Pod_byte) 65536 1 Hmax).
    + eexists. eexists. split; [reflexivity|]. split; [reflexivity|].
      cbn [m_vertexOffsets newMesh app]. split; reflexivity.
    + constructor; [|constructor]. unfold mesh_data_ok.
      cbn [offsets indices vertices sum_indexCount sum_vertexCount
           fold_right fst snd].
      rewrite len_repeat. split; [|split; [reflexivity | lia]].
      constructor; [cbn; lia | constructor].
    + reflexivity.
    + cbn. lia.
    + cbn [vertex_total fold_right vertices]. rewrite len_repeat. lia.
    + cbn [vertex_total fold_right vertices]. rewrite len_repeat. cbn. lia.
  - assert (Hlen : len (concat [repeat x00 (Z.to_nat 40000);
                               repeat x00 (Z.to_nat 40000)]) = 80000).
    { cbn [concat]. rewrite !len_app, !len_repeat. cbn. lia. }
    rewrite (compile_arrays_unindexed_spec (T := byte) (PodT := Pod_byte) 65536 1);
      cbn [with_counts m_nVertices m_nIndices]; rewrite ?Hlen;
      try reflexivity; try (cbn; lia).
    eexists. split; [reflexivity|].
    cbn [m_vertexOffsets newMesh app]. split; reflexivity.
Qed.

Lemma entry_points_agree_on_one_mesh_witness :
  let m := with_counts 2 3 newMesh in
  (exists m',
     compile_meshes 65536 1 [mesh_of_arrays sample_vertices sample_indices] m
     = Done m'
     /\ compile_arrays 65536 1 sample_vertices sample_indices m = Done m')
  /\ (exists m',
        compile_meshes 65536 1 [one_vertex_mesh; one_vertex_mesh] m = Done m'
        /\ m_vertexOffsets m'
           = flat_map (fun d => grouped 65536 (batches_of_mesh d) (0, 0))
                      [one_vertex_mesh; one_vertex_mesh]
        /\ m_glIndexData m'
           = Some (flat_map (fun d => rebased 65536 (batches_of_mesh d) 0)
                            [one_vertex_mesh; one_vertex_mesh])).
Proof.
  cbv zeta.
  destruct (entry_points_agree_on_one_mesh (T := byte) (PodT := Pod_byte) 65536 1
              ltac:(lia) eq_refl sample_vertices sample_indices
              (with_counts 2 3 newMesh) eq_refl sample_arrays_ok
              ltac:(closed_goal))
    as [Ha Hb].
  split; [exact Ha|]. apply Hb.
  unfold meshes_ok. split; [|repeat split; closed_goal].
  constructor; [|constructor; [|constructor]];
    (unfold mesh_data_ok; split; [|split; closed_goal];
     constructor; [split; closed_goal | constructor]).
Defined.

(** C3 as stated fails on two meshes: the second mesh starts a new group
    and its index is rebased by 0, where the parallel-arrays entry point
    given the same two features keeps one group and rebases by 1. *)
Lemma entry_points_differ_counterexample :
  exists ma mb,
    compile_meshes 65536 1 [one_vertex_mesh; one_vertex_mesh] newMesh = Done ma
    /\ compile_arrays 65536 1 [[x00]; [x00]] [[0]; [0]]
         (with_counts 2 2 newMesh) = Done mb
    /\ m_vertexOffsets ma = [(1, 1); (1, 1)]
    /\ m_vertexOffsets mb = [(2, 2)]
    /\ m_glIndexData ma = Some [0; 0]
    /\ m_glIndexData mb = Some [0; 1]
    /\ m_vertexOffsets ma <> m_vertexOffsets mb
    /\ m_glIndexData ma <> m_glIndexData mb.
Proof.
  eexists. eexists.
  split; [vm_compute; reflexivity|].
  split; [vm_compute; reflexivity|].
  cbn [m_vertexOffsets m_glIndexData].
  repeat split; try reflexivity; discriminate.
Qed.

(** C4 as stated fails on the grouped-batches entry point: from an empty
    sequence of meshes no group is opened. *)
Lemma compile_empty_meshes_counterexample :
  exists m',
    compile_meshes 65536 1 (@nil (MeshData byte)) newMesh = Done m'
    /\ m_nVertices m' = 0 /\ m_nIndices m' = 0
    /\ m_vertexOffsets m' = []
    /\ m_vertexOffsets m' <> [(0, 0)].
Proof.
  eexists. split; [reflexivity|]. cbn [m_vertexOffsets m_nVertices m_nIndices].
  repeat split; try reflexivity. discriminate.
Qed.

(** * Further properties of the code *)

(** ** Mutations keep the layout of the mesh *)

Lemma write_loop_length value n step : forall fuel data offset end_ data',
  write_loop fuel value n step data offset end_ = Done data' ->
  length data' = length data.
Proof.
  induction fuel as [|fuel IH]; intros data offset end_ data' H.
  - discriminate.
  - cbn [write_loop] in H. destruct (offset <? end_).
    + destruct (memcpy data offset value n) as [d1| | |] eqn:E;
        cbn [bind] in H; try discriminate.
      apply IH in H. apply memcpy_length in E. destruct E as [E _]. congruence.
    + now injection H as <-.
Qed.

Lemma same_layout_setDirty offset size data data' m :
  m_glVertexData m = Some data ->
  length data' = length data ->
  same_layout m (setDirty offset size (set_glVertexData data' m)).
Proof.
  intros Hdata Hlen. unfold same_layout, setDirty.
  destruct (negb (m_dirty (set_glVertexData data' m)));
    cbn; repeat split; try reflexivity; eauto.
Qed.

Lemma same_layout_refl data m :
  m_glVertexData m = Some data -> same_layout m m.
Proof. intros H. unfold same_layout. repeat split; eauto. Qed.

Section LayoutFacts.

Context {T : Type} `{PodT : Pod T}.

(** X1. A call of [updateVertices] or [updateAttribute] that returns leaves
    the counts, the compiled flag, the index buffer and the group list as
    they were and a vertex buffer of the same size. *)
Theorem mutation_keeps_layout (m m' : VboMesh) :
  (forall (r : Range) (v : T),
     updateVertices r v m = Done m' -> same_layout m m')
  /\ (forall (A : Type) (PodA : Pod A) (r : Range) (a : A) (k : Z),
        updateAttribute T r a k m = Done m' -> same_layout m m').
Proof.
  split.
  - intros r v H. unfold updateVertices in H.
    destruct (m_glVertexData m) as [data|] eqn:Hdata; [|discriminate].
    destruct (_ >? _);
      [injection H as <-; now apply same_layout_refl with (data := data)|].
    match type of H with
    | bind ?w _ = _ => destruct w as [d1| | |] eqn:E; cbn [bind] in H;
                       try discriminate
    end.
    injection H as <-.
    apply same_layout_setDirty with (data := data); [assumption|].
    eapply write_loop_length; eassumption.
  - intros A PodA r a k H. unfold updateAttribute in H.
    destruct (m_glVertexData m) as [data|] eqn:Hdata; [|discriminate].
    destruct (_ || _);
      [injection H as <-; now apply same_layout_refl with (data := data)|].
    destruct (_ >? _);
      [injection H as <-; now apply same_layout_refl with (data := data)|].
    destruct (_ >=? _);
      [injection H as <-; now apply same_layout_refl with (data := data)|].
    match type of H with
    | bind ?w _ = _ => destruct w as [d1| | |] eqn:E; cbn [bind] in H;
                       try discriminate
    end.
    injection H as <-.
    apply same_layout_setDirty with (data := data); [assumption|].
    eapply write_loop_length; eassumption.
Qed.

End LayoutFacts.

Lemma mutation_keeps_layout_witness :
  let m := mesh_with_vertices [x00; x00; x00] in
  same_layout m (setDirty 1 2 (set_glVertexData [x00; x01; x01] m)).
Proof.
  cbv zeta.
  apply (proj1 (mutation_keeps_layout (T := byte) (PodT := Pod_byte)
                  (mesh_with_vertices [x00; x00; x00])
                  (setDirty 1 2 (set_glVertexData [x00; x01; x01]
                                   (mesh_with_vertices [x00; x00; x00]))))
           {| range_start := 1; range_length := 2 |} x01).
  vm_compute. reflexivity.
Defined.

(** ** [updateVertices] on any buffer content *)

Section OverwriteFacts.

Context {T : Type} `{PodT : Pod T}.

Lemma len_overwrite (V : list T) (start count : Z) (v : T) :
  0 <= start -> 0 <= count -> start + count <= len V ->
  len (overwrite V start count v) = len V.
Proof.
  intros Hs Hc Hle. unfold overwrite.
  rewrite !len_app, len_repeat, len_firstn_le, len_skipn by lia. lia.
Qed.

Lemma nth_overwrite (V : list T) (start count i : Z) (v d : T) :
  0 <= start -> 0 <= count -> start + count <= len V ->
  0 <= i < len V ->
  nth (Z.to_nat i) (overwrite V start count v) d
  = if (start <=? i) && (i <? start + count) then v
    else nth (Z.to_nat i) V d.
Proof.
  intros Hs Hc Hle Hi. unfold overwrite, len in *.
  destruct (Z.leb_spec start i) as [Hsi|Hsi]; cbn [andb].
  - rewrite app_nth2 by (rewrite length_firstn; lia).
    rewrite length_firstn.
    destruct (Z.ltb_spec i (start + count)) as [Hic|Hic].
    + rewrite app_nth1 by (rewrite repeat_length; lia).
      rewrite (nth_indep _ d v) by (rewrite repeat_length; lia).
      apply nth_repeat.
    + rewrite app_nth2 by (rewrite repeat_length; lia).
      rewrite repeat_length, nth_skipn. f_equal. lia.
  - rewrite app_nth1 by (rewrite length_firstn; lia).
    rewrite nth_firstn.
    destruct (Nat.ltb_spec (Z.to_nat i) (Z.to_nat start)); [reflexivity | lia].
Qed.

Lemma firstn_array_bytes (V : list T) (n : Z) :
  0 <= n <= len V ->
  firstn (Z.to_nat (n * sizeof T)) (array_bytes V)
  = array_bytes (firstn (Z.to_nat n) V).
Proof.
  intros Hn.
  rewrite <- (firstn_skipn (Z.to_nat n) V) at 1. rewrite array_bytes_app.
  replace (Z.to_nat (n * sizeof T))
    with (length (array_bytes (firstn (Z.to_nat n) V))).
  - apply firstn_app_exact.
  - pose proof (len_array_bytes (firstn (Z.to_nat n) V)) as E.
    rewrite len_firstn_le in E by lia. unfold len in E. lia.
Qed.

Lemma skipn_array_bytes (V : list T) (n : Z) :
  0 <= n <= len V ->
  skipn (Z.to_nat (n * sizeof T)) (array_bytes V)
  = array_bytes (skipn (Z.to_nat n) V).
Proof.
  intros Hn.
  rewrite <- (firstn_skipn (Z.to_nat n) V) at 1. rewrite array_bytes_app.
  replace (Z.to_nat (n * sizeof T))
    with (length (array_bytes (firstn (Z.to_nat n) V))).
  - apply skipn_app_exact.
  - pose proof (len_array_bytes (firstn (Z.to_nat n) V)) as E.
    rewrite len_firstn_le in E by lia. unfold len in E. lia.
Qed.

Lemma updateVertices_overwrite (V : list T) (start count : Z) (v : T)
    (m : VboMesh) :
  m_glVertexData m = Some (array_bytes V) ->
  m_nVertices m = len V ->
  0 <= start -> 0 <= count -> start + count <= len V ->
  len V * sizeof T < 2 ^ 31 ->
  updateVertices {| range_start := start; range_length := count |} v m
  = Done (setDirty (start * sizeof T) (count * sizeof T)
            (set_glVertexData (array_bytes (overwrite V start count v)) m)).
Proof.
  intros Hdata HN Hs Hc Hsc Hsz.
  pose proof sizeof_pos as Hpos.
  assert (HN31 : len V < 2 ^ 31) by nia.
  unfold updateVertices. rewrite Hdata, HN.
  cbn [range_start range_length].
  rewrite !to_int_small by lia.
  destruct (start + count >? len V) eqn:E.
  { rewrite Z.gtb_ltb in E. apply Z.ltb_lt in E. lia. }
  rewrite (to_size_t_small (start * sizeof T)) by nia.
  rewrite (to_size_t_small (start * sizeof T + count * sizeof T)) by nia.
  set (A0 := firstn (Z.to_nat start) V).
  set (old := firstn (Z.to_nat count) (skipn (Z.to_nat start) V)).
  set (C0 := skipn (Z.to_nat (start + count)) V).
  assert (HV : V = A0 ++ old ++ C0).
  { unfold A0, old, C0.
    rewrite <- (firstn_skipn (Z.to_nat start) V) at 1. f_equal.
    rewrite <- (firstn_skipn (Z.to_nat count) (skipn (Z.to_nat start) V)) at 1.
    f_equal. rewrite skipn_skipn. f_equal. lia. }
  assert (HA : len (array_bytes A0) = start * sizeof T).
  { unfold A0. rewrite len_array_bytes, len_firstn_le; lia. }
  assert (Hold : len old = count).
  { unfold old. apply len_firstn_le. rewrite len_skipn; lia. }
  rewrite HV at 1 2. rewrite !array_bytes_app.
  rewrite <- HA, <- Hold.
  rewrite write_loop_vertices.
  - cbn [bind]. rewrite Hold, HA.
    replace (start * sizeof T + count * sizeof T - start * sizeof T)
      with (count * sizeof T) by ring.
    rewrite to_size_t_small by nia.
    rewrite to_GLintptr_small by nia.
    rewrite to_GLsizei_small by nia.
    unfold overwrite. fold A0 C0. rewrite !array_bytes_app.
    replace (length old) with (Z.to_nat count) by (unfold len in Hold; lia).
    reflexivity.
  - rewrite !length_app. pose proof (len_array_bytes old) as Hab.
    unfold len in Hab. nia.
  - rewrite HA, Hold. nia.
Qed.

(** X2. On a mesh holding any vertices [V], a range with [0 <= start],
    [0 <= length] and [start + length <= vertexCount] makes
    [updateVertices] put the value at the vertices of the range and keep
    every other vertex; the bytes before [start * sizeof T] and from
    [(start + length) * sizeof T] on are those of before, and the dirty
    range that results covers the bytes in between. *)
Theorem updateVertices_changes_only_dirty_bytes
    (V : list T) (start count : Z) (v d : T) (m : VboMesh) :
  m_glVertexData m = Some (array_bytes V) ->
  m_nVertices m = len V ->
  0 <= start -> 0 <= count -> start + count <= len V ->
  len V * sizeof T < 2 ^ 31 ->
  (m_dirty m = true ->
   union_representable (m_dirtyOffset m) (m_dirtySize m)
                       (start * sizeof T) (count * sizeof T)) ->
  exists m' data' o s,
    updateVertices {| range_start := start; range_length := count |} v m
    = Done m'
    /\ m_glVertexData m' = Some data'
    /\ data' = array_bytes (overwrite V start count v)
    /\ (forall i, 0 <= i < len V ->
          nth (Z.to_nat i) (overwrite V start count v) d
          = if (start <=? i) && (i <? start + count) then v
            else nth (Z.to_nat i) V d)
    /\ firstn (Z.to_nat (start * sizeof T)) data'
       = firstn (Z.to_nat (start * sizeof T)) (array_bytes V)
    /\ skipn (Z.to_nat ((start + count) * sizeof T)) data'
       = skipn (Z.to_nat ((start + count) * sizeof T)) (array_bytes V)
    /\ dirtyRange m' = Some (o, s)
    /\ o <= start * sizeof T
    /\ (start + count) * sizeof T <= o + s.
Proof.
  intros Hdata HN Hs Hc Hsc Hsz Hrep.
  pose proof sizeof_pos as Hpos.
  rewrite (updateVertices_overwrite V start count v m) by assumption.
  set (V' := overwrite V start count v).
  assert (HV' : len V' = len V) by now apply len_overwrite.
  assert (Hdirty : exists o s,
            dirtyRange (setDirty (start * sizeof T) (count * sizeof T)
                          (set_glVertexData (array_bytes V') m)) = Some (o, s)
            /\ o <= start * sizeof T /\ (start + count) * sizeof T <= o + s).
  { destruct (m_dirty m) eqn:Hd.
    - rewrite setDirty_merge; [|exact Hd|now apply Hrep].
      cbn [set_glVertexData m_dirtyOffset m_dirtySize].
      eexists. eexists. split; [reflexivity|]. lia.
    - rewrite setDirty_clean by exact Hd.
      eexists. eexists. split; [reflexivity|]. lia. }
  destruct Hdirty as (o & s & Hds & Ho & Hos).
  exists (setDirty (start * sizeof T) (count * sizeof T)
            (set_glVertexData (array_bytes V') m)), (array_bytes V'), o, s.
  split; [reflexivity|].
  split; [now rewrite setDirty_glVertexData|].
  split; [reflexivity|].
  split; [intros i Hi; now apply nth_overwrite|].
  split; [|split; [|split; [exact Hds | split; assumption]]].
  - rewrite !firstn_array_bytes by lia. f_equal.
    unfold V', overwrite. rewrite firstn_app.
    rewrite length_firstn.
    replace (Z.to_nat start - Nat.min (Z.to_nat start) (length V))%nat
      with 0%nat by (unfold len in *; lia).
    cbn [firstn]. rewrite app_nil_r, firstn_firstn. f_equal. lia.
  - rewrite !skipn_array_bytes by lia. f_equal.
    unfold V', overwrite. rewrite app_assoc, skipn_app.
    rewrite length_app, length_firstn, repeat_length.
    replace (Z.to_nat (start + count)
             - (Nat.min (Z.to_nat start) (length V) + Z.to_nat count))%nat
      with 0%nat by (unfold len in *; lia).
    cbn [skipn]. rewrite skipn_all2; [reflexivity|].
    rewrite length_app, length_firstn, repeat_length. unfold len in *. lia.
Qed.

End OverwriteFacts.

Lemma updateVertices_changes_only_dirty_bytes_witness :
  let V := [x00; x01; x02; x03] in
  let m := mesh_with_vertices V in
  exists m' data' o s,
    updateVertices {| range_start := 1; range_length := 2 |} xff m = Done m'
    /\ m_glVertexData m' = Some data'
    /\ data' = array_bytes (overwrite V 1 2 xff)
    /\ (forall i, 0 <= i < len V ->
          nth (Z.to_nat i) (overwrite V 1 2 xff) x00
          = if (1 <=? i) && (i <? 1 + 2) then xff
            else nth (Z.to_nat i) V x00)
    /\ firstn (Z.to_nat (1 * sizeof byte)) data'
       = firstn (Z.to_nat (1 * sizeof byte)) (array_bytes V)
    /\ skipn (Z.to_nat ((1 + 2) * sizeof byte)) data'
       = skipn (Z.to_nat ((1 + 2) * sizeof byte)) (array_bytes V)
    /\ dirtyRange m' = Some (o, s)
    /\ o <= 1 * sizeof byte
    /\ (1 + 2) * sizeof byte <= o + s.
Proof.
  cbv zeta.
  apply (updateVertices_changes_only_dirty_bytes (T := byte) (PodT := Pod_byte)
           [x00; x01; x02; x03] 1 2 xff x00
           (mesh_with_vertices [x00; x01; x02; x03])).
  - reflexivity.
  - reflexivity.
  - lia.
  - lia.
  - vm_compute. discriminate.
  - vm_compute. reflexivity.
  - intros H. discriminate H.
Defined.

Section ComposeFacts.

Context {T : Type} `{PodT : Pod T}.

(** X3. Two calls of [updateVertices] in a row on a clean mesh, each with
    a range inside the mesh: the buffer is the first overwrite followed by
    the second, and the dirty range is the one interval from the smaller
    start to the larger end of the two byte spans. *)
Theorem updateVertices_twice
    (V : list T) (s1 c1 s2 c2 : Z) (v1 v2 : T) (m : VboMesh) :
  m_glVertexData m = Some (array_bytes V) ->
  m_nVertices m = len V ->
  m_dirty m = false ->
  0 <= s1 -> 0 <= c1 -> s1 + c1 <= len V ->
  0 <= s2 -> 0 <= c2 -> s2 + c2 <= len V ->
  len V * sizeof T < 2 ^ 31 ->
  exists m1 m2,
    updateVertices {| range_start := s1; range_length := c1 |} v1 m = Done m1
    /\ updateVertices {| range_start := s2; range_length := c2 |} v2 m1
       = Done m2
    /\ m_glVertexData m2
       = Some (array_bytes (overwrite (overwrite V s1 c1 v1) s2 c2 v2))
    /\ dirtyRange m2
       = Some (Z.min s1 s2 * sizeof T,
               (Z.max (s1 + c1) (s2 + c2) - Z.min s1 s2) * sizeof T).
Proof.
  intros Hdata HN Hclean Hs1 Hc1 Hle1 Hs2 Hc2 Hle2 Hsz.
  pose proof sizeof_pos as Hpos.
  rewrite (updateVertices_overwrite V s1 c1 v1 m) by assumption.
  set (V1 := overwrite V s1 c1 v1).
  assert (HV1 : len V1 = len V) by now apply len_overwrite.
  set (m1 := setDirty (s1 * sizeof T) (c1 * sizeof T)
               (set_glVertexData (array_bytes V1) m)).
  assert (Hm1 : m1 = set_dirtyRange (s1 * sizeof T) (c1 * sizeof T)
                       (set_glVertexData (array_bytes V1) m)).
  { unfold m1, setDirty. cbn [set_glVertexData m_dirty]. now rewrite Hclean. }
  exists m1. eexists. split; [reflexivity|].
  assert (Hd1 : m_glVertexData m1 = Some (array_bytes V1))
    by (unfold m1; now rewrite setDirty_glVertexData).
  assert (Hn1 : m_nVertices m1 = len V1) by (rewrite Hm1; cbn; lia).
  rewrite (updateVertices_overwrite V1 s2 c2 v2 m1 Hd1 Hn1) by lia.
  split; [reflexivity|]. split; [now rewrite setDirty_glVertexData|].
  rewrite setDirty_merge.
    + rewrite Hm1. cbn [set_glVertexData set_dirtyRange m_dirtyOffset m_dirtySize].
      f_equal. f_equal.
      * destruct (Z.min_spec s1 s2) as [[? ->]|[? ->]];
          destruct (Z.min_spec (s1 * sizeof T) (s2 * sizeof T))
            as [[? ->]|[? ->]]; nia.
      * destruct (Z.min_spec s1 s2) as [[? ->]|[? ->]];
          destruct (Z.min_spec (s1 * sizeof T) (s2 * sizeof T))
            as [[? ->]|[? ->]];
          destruct (Z.max_spec (s1 + c1) (s2 + c2)) as [[? ->]|[? ->]];
          destruct (Z.max_spec (s1 * sizeof T + c1 * sizeof T)
                               (s2 * sizeof T + c2 * sizeof T))
            as [[? ->]|[? ->]]; nia.
    + rewrite Hm1. reflexivity.
    + rewrite Hm1.
      cbn [set_glVertexData set_dirtyRange m_dirtyOffset m_dirtySize].
      unfold union_representable.
      pose proof (Z.le_max_l (s1 * sizeof T + c1 * sizeof T)
                             (s2 * sizeof T + c2 * sizeof T)).
      pose proof (Z.le_min_l (s1 * sizeof T) (s2 * sizeof T)).
      assert (Z.max (s1 * sizeof T + c1 * sizeof T)
                    (s2 * sizeof T + c2 * sizeof T) <= len V * sizeof T)
        by (apply Z.max_lub; nia).
      assert (0 <= Z.min (s1 * sizeof T) (s2 * sizeof T))
        by (apply Z.min_glb; nia).
      repeat split; nia.
Qed.

End ComposeFacts.

Lemma updateVertices_twice_witness :
  let V := [x00; x00; x00; x00; x00] in
  exists m1 m2,
    updateVertices {| range_start := 3; range_length := 1 |} x01
                   (mesh_with_vertices V) = Done m1
    /\ updateVertices {| range_start := 0; range_length := 2 |} x02 m1
       = Done m2
    /\ m_glVertexData m2
       = Some (array_bytes (overwrite (overwrite V 3 1 x01) 0 2 x02))
    /\ dirtyRange m2
       = Some (Z.min 3 0 * sizeof byte,
               (Z.max (3 + 1) (0 + 2) - Z.min 3 0) * sizeof byte).
Proof.
  cbv zeta.
  apply (updateVertices_twice (T := byte) (PodT := Pod_byte)
           [x00; x00; x00; x00; x00] 3 1 0 2 x01 x02
           (mesh_with_vertices [x00; x00; x00; x00; x00]));
    try reflexivity; try lia; try (vm_compute; discriminate).
Defined.

(** ** The dirty tracker: order of marking *)

(** X4. On a clean mesh, marking two spans in either order leaves the same
    dirty range, and that range covers both spans. *)
Theorem setDirty_order_independent (m : VboMesh) (o1 s1 o2 s2 : Z) :
  m_dirty m = false ->
  union_representable o1 s1 o2 s2 ->
  exists o s,
    dirtyRange (setDirty o2 s2 (setDirty o1 s1 m)) = Some (o, s)
    /\ dirtyRange (setDirty o1 s1 (setDirty o2 s2 m)) = Some (o, s)
    /\ o <= o1 /\ o <= o2 /\ o1 + s1 <= o + s /\ o2 + s2 <= o + s.
Proof.
  intros Hclean (H1 & H2 & H3).
  assert (E1 : setDirty o1 s1 m = set_dirtyRange o1 s1 m)
    by (unfold setDirty; now rewrite Hclean).
  assert (E2 : setDirty o2 s2 m = set_dirtyRange o2 s2 m)
    by (unfold setDirty; now rewrite Hclean).
  exists (Z.min o1 o2), (Z.max (o1 + s1) (o2 + s2) - Z.min o1 o2).
  split; [|split].
  - rewrite setDirty_merge; rewrite E1; try reflexivity.
    cbn [set_dirtyRange m_dirtyOffset m_dirtySize].
    unfold union_representable. lia.
  - rewrite setDirty_merge; rewrite E2; cbn [set_dirtyRange m_dirtyOffset
      m_dirtySize m_dirty]; try reflexivity.
    + rewrite (Z.min_comm o2 o1), (Z.max_comm (o2 + s2) (o1 + s1)).
      reflexivity.
    + unfold union_representable.
      rewrite (Z.min_comm o2 o1), (Z.max_comm (o2 + s2) (o1 + s1)). lia.
  - lia.
Qed.

Lemma setDirty_order_independent_witness :
  exists o s,
    dirtyRange (setDirty 100 10 (setDirty 10 10 newMesh)) = Some (o, s)
    /\ dirtyRange (setDirty 10 10 (setDirty 100 10 newMesh)) = Some (o, s)
    /\ o <= 10 /\ o <= 100 /\ 10 + 10 <= o + s /\ 100 + 10 <= o + s.
Proof.
  apply (setDirty_order_independent newMesh 10 10 100 10).
  - reflexivity.
  - unfold union_representable. cbn. lia.
Defined.

(** ** [updateAttribute]: what it rejects, what it writes *)

Section AttributeProperties.

Context {T : Type} `{PodT : Pod T} {A : Type} `{PodA : Pod A}.

(** X5. On a compiled mesh [updateAttribute] returns the mesh as it was,
    buffer and dirty range included, when the range starts below 0, has a
    length below 1, ends after the last vertex, or when the attribute
    offset is not below [sizeof(T)]. *)
Theorem updateAttribute_rejects
    (m : VboMesh) (data : list byte) (r : Range) (a : A) (k : Z) :
  m_glVertexData m = Some data ->
  0 <= m_nVertices m ->
  is_int (range_start r + range_length r) ->
  range_start r < 0 \/ range_length r < 1
  \/ range_start r + range_length r > m_nVertices m
  \/ k >= sizeof T ->
  updateAttribute T r a k m = Done m.
Proof.
  intros Hdata HN Hsum Hbad. unfold is_int in Hsum.
  unfold updateAttribute. rewrite Hdata.
  destruct (Z.ltb_spec (range_start r) 0) as [|Hs]; [reflexivity|].
  destruct (Z.ltb_spec (range_length r) 1) as [|Hl]; [reflexivity|].
  cbn [orb].
  rewrite to_int_small, to_size_t_small by lia.
  destruct (Z.gtb_spec (range_start r + range_length r) (m_nVertices m))
    as [|Hle]; [reflexivity|].
  destruct (Z.geb_spec k (sizeof T)) as [|Hk]; [reflexivity|].
  lia.
Qed.

Lemma nth_with_attribute (k : Z) (a : A) (vertex : list byte) (j : Z)
    (d : byte) :
  0 <= k -> k + sizeof A <= len vertex ->
  0 <= j < len vertex ->
  nth (Z.to_nat j) (with_attribute k a vertex) d
  = if (k <=? j) && (j <? k + sizeof A)
    then nth (Z.to_nat (j - k)) (repr a) d
    else nth (Z.to_nat j) vertex d.
Proof.
  intros Hk Hfit Hj. unfold with_attribute.
  pose proof (len_repr a) as Ha. unfold len in *.
  destruct (Z.leb_spec k j) as [Hkj|Hkj]; cbn [andb].
  - rewrite app_nth2 by (rewrite length_firstn; lia).
    rewrite length_firstn.
    destruct (Z.ltb_spec j (k + sizeof A)) as [Hja|Hja].
    + rewrite app_nth1 by lia. f_equal. lia.
    + rewrite app_nth2 by lia. rewrite nth_skipn. f_equal. lia.
  - rewrite app_nth1 by (rewrite length_firstn; lia).
    rewrite nth_firstn.
    destruct (Nat.ltb_spec (Z.to_nat j) (Z.to_nat k)); [reflexivity | lia].
Qed.

(** X6. Field isolation where the attribute lies inside the vertex
    ([0 <= k] and [k + sizeof(A) <= sizeof(T)]): an accepted
    [updateAttribute] keeps the vertices outside the range byte for byte,
    and in each vertex of the range replaces the [sizeof(A)] bytes from
    offset [k] by the bytes of the attribute and keeps the others; the span
    marked dirty starts at the first byte written and ends after the last. *)
Theorem updateAttribute_writes_only_the_field
    (V : list T) (start count k : Z) (a : A) (m : VboMesh) :
  m_glVertexData m = Some (array_bytes V) ->
  m_nVertices m = len V ->
  0 <= start -> 1 <= count -> start + count <= len V ->
  len V * sizeof T < 2 ^ 31 ->
  0 <= k -> k + sizeof A <= sizeof T ->
  updateAttribute T {| range_start := start; range_length := count |} a k m
  = Done (setDirty (start * sizeof T + k) ((count - 1) * sizeof T + sizeof A)
            (set_glVertexData
               (array_bytes (firstn (Z.to_nat start) V)
                ++ concat (map (fun v => with_attribute k a (repr v))
                             (firstn (Z.to_nat count)
                                     (skipn (Z.to_nat start) V)))
                ++ array_bytes (skipn (Z.to_nat (start + count)) V))
               m))
  /\ (forall (v : T) (j : Z) (d : byte),
        0 <= j < sizeof T ->
        nth (Z.to_nat j) (with_attribute k a (repr v)) d
        = if (k <=? j) && (j <? k + sizeof A)
          then nth (Z.to_nat (j - k)) (repr a) d
          else nth (Z.to_nat j) (repr v) d).
Proof.
  intros Hdata HN Hs Hc Hle Hsz Hk Hfit. split.
  - set (mid := firstn (Z.to_nat count) (skipn (Z.to_nat start) V)).
    assert (HV : V = firstn (Z.to_nat start) V ++ mid
                     ++ skipn (Z.to_nat (start + count)) V).
    { unfold mid.
      rewrite <- (firstn_skipn (Z.to_nat start) V) at 1. f_equal.
      rewrite <- (firstn_skipn (Z.to_nat count) (skipn (Z.to_nat start) V)) at 1.
      f_equal. rewrite skipn_skipn. f_equal. lia. }
    rewrite <- (map_map repr (with_attribute k a)).
    apply updateAttribute_isolated; try assumption; try lia.
    + rewrite Hdata. f_equal. rewrite HV at 1.
      rewrite !array_bytes_app. reflexivity.
    + rewrite len_array_bytes, len_firstn_le; lia.
    + apply Forall_forall. intros c Hin. apply in_map_iff in Hin.
      destruct Hin as (v & <- & _). apply len_repr.
    + rewrite len_map. unfold mid. apply len_firstn_le.
      rewrite len_skipn; lia.
  - intros v j d Hj. apply nth_with_attribute; rewrite ?len_repr; lia.
Qed.

End AttributeProperties.

Lemma updateAttribute_rejects_witness :
  let v := {| v4_0 := x00; v4_1 := x00; v4_2 := x00; v4_3 := x00 |} in
  let a := {| a2_0 := xff; a2_1 := xff |} in
  let m := mesh_with_vertices [v; v] in
  updateAttribute Vertex4 {| range_start := 1; range_length := 2 |} a 0 m
  = Done m
  /\ updateAttribute Vertex4 {| range_start := 0; range_length := 1 |} a 4 m
     = Done m.
Proof.
  cbv zeta. split.
  - apply (updateAttribute_rejects (T := Vertex4) (PodT := Pod_Vertex4)
             (mesh_with_vertices [Build_Vertex4 x00 x00 x00 x00;
                                  Build_Vertex4 x00 x00 x00 x00])
             [x00; x00; x00; x00; x00; x00; x00; x00]).
    + reflexivity.
    + vm_compute. discriminate.
    + unfold is_int. cbn. lia.
    + right. right. left. cbn. lia.
  - apply (updateAttribute_rejects (T := Vertex4) (PodT := Pod_Vertex4)
             (mesh_with_vertices [Build_Vertex4 x00 x00 x00 x00;
                                  Build_Vertex4 x00 x00 x00 x00])
             [x00; x00; x00; x00; x00; x00; x00; x00]).
    + reflexivity.
    + vm_compute. discriminate.
    + unfold is_int. cbn. lia.
    + right. right. right. cbn. lia.
Defined.

Lemma updateAttribute_writes_only_the_field_witness :
  let v := {| v4_0 := x00; v4_1 := x01; v4_2 := x02; v4_3 := x03 |} in
  let a := {| a2_0 := xff; a2_1 := xfe |} in
  updateAttribute Vertex4 {| range_start := 1; range_length := 2 |} a 1
                  (mesh_with_vertices [v; v; v])
  = Done (setDirty (1 * 4 + 1) ((2 - 1) * 4 + 2)
            (set_glVertexData
               [x00; x01; x02; x03; x00; xff; xfe; x03; x00; xff; xfe; x03]
               (mesh_with_vertices [v; v; v]))).
Proof.
  cbv zeta.
  apply (proj1 (updateAttribute_writes_only_the_field
                  (T := Vertex4) (PodT := Pod_Vertex4)
                  (A := Attr2) (PodA := Pod_Attr2)
                  [Build_Vertex4 x00 x01 x02 x03; Build_Vertex4 x00 x01 x02 x03;
                   Build_Vertex4 x00 x01 x02 x03]
                  1 2 1 {| a2_0 := xff; a2_1 := xfe |}
                  (mesh_with_vertices
                     [Build_Vertex4 x00 x01 x02 x03;
                      Build_Vertex4 x00 x01 x02 x03;
                      Build_Vertex4 x00 x01 x02 x03])
                  eq_refl eq_refl ltac:(lia) ltac:(lia)
                  ltac:(vm_compute; discriminate)
                  ltac:(vm_compute; reflexivity)
                  ltac:(lia) ltac:(vm_compute; discriminate))).
Defined.

(** ** What the partitioner of the spec yields, continued *)

Section PartitionerProperties.

Variable MAX_INDEX_VALUE : Z.

Lemma total_vertices_nonneg' (bs : list Batch) :
  Forall (fun b => 0 <= snd b) bs -> 0 <= total_vertices bs.
Proof.
  induction 1 as [|b bs Hb _ IH]; cbn; [lia|]. fold (total_vertices bs). lia.
Qed.

(** Batches that fit together stay in one group. *)
Lemma grouped_fits (bs : list Batch) : forall cur,
  Forall (fun b => 0 <= snd b) bs ->
  snd cur + total_vertices bs <= MAX_INDEX_VALUE ->
  grouped MAX_INDEX_VALUE bs cur
  = [(fst cur + total_indices bs, snd cur + total_vertices bs)].
Proof.
  induction bs as [|[idx nv] bs IH]; intros [ci cv] Hnn Hfit; cbn [fst snd] in *.
  - cbn. now rewrite !Z.add_0_r.
  - inversion Hnn as [|b bs' Hnv Hnn']. cbn [snd] in Hnv.
    cbn [total_vertices total_indices fold_right fst snd] in *.
    fold (total_vertices bs) in *. fold (total_indices bs).
    pose proof (total_vertices_nonneg' bs Hnn').
    cbn [grouped fst snd].
    destruct (Z.gtb_spec (cv + nv) MAX_INDEX_VALUE); [lia|].
    rewrite IH; cbn [fst snd]; try assumption; try lia.
    f_equal. f_equal; lia.
Qed.

(** There is at most one group more than there are batches. *)
Lemma grouped_length (bs : list Batch) : forall cur,
  (1 <= length (grouped MAX_INDEX_VALUE bs cur) <= S (length bs))%nat.
Proof.
  induction bs as [|[idx nv] bs IH]; intros cur; cbn [grouped length].
  - lia.
  - destruct (snd cur + nv >? MAX_INDEX_VALUE).
    + cbn [length]. specialize (IH (len idx, nv)). lia.
    + specialize (IH (fst cur + len idx, snd cur + nv)). lia.
Qed.

Lemma drawn_positions_app (g1 : list (Z * Z)) : forall s1 g2 s2 B,
  Forall (fun g => 0 <= fst g) g1 ->
  sum_indexCount g1 = len s1 ->
  drawn_positions (g1 ++ g2) (s1 ++ s2) B
  = drawn_positions g1 s1 B
    ++ drawn_positions g2 s2 (B + sum_vertexCount g1).
Proof.
  induction g1 as [|[ni nv] g1 IH]; intros s1 g2 s2 B Hnn Hsum.
  - cbn in Hsum. destruct s1; [|cbn in Hsum; lia].
    cbn. now rewrite Z.add_0_r.
  - inversion Hnn as [|g g1' Hni Hnn']. cbn [fst] in Hni.
    cbn [sum_indexCount sum_vertexCount fold_right fst snd] in *.
    fold (sum_indexCount g1) in Hsum. fold (sum_vertexCount g1).
    assert (Hg1 : 0 <= sum_indexCount g1).
    { clear -Hnn'. induction Hnn' as [|g g1 Hg _ IHg]; cbn; [lia|].
      fold (sum_indexCount g1). lia. }
    cbn [app drawn_positions].
    assert (Hle : (Z.to_nat ni <= length s1)%nat) by (unfold len in Hsum; lia).
    rewrite firstn_app, skipn_app.
    replace (Z.to_nat ni - length s1)%nat with 0%nat by lia.
    cbn [firstn skipn]. rewrite app_nil_r, <- app_assoc. f_equal.
    rewrite IH; try assumption.
    + f_equal. f_equal. lia.
    + rewrite len_skipn by (unfold len in *; lia). lia.
Qed.

(** Rebasing keeps the vertex an index denotes: an index of the output,
    counted from the first vertex of its group, is the position of the
    vertex the local index had in its batch.  [s0] are the indices already
    in the open group and [B] is the position of its first vertex. *)
Lemma drawn_positions_grouped (bs : list Batch) : forall ci cv s0 B,
  MAX_INDEX_VALUE <= 65536 ->
  Forall (batch_ok MAX_INDEX_VALUE) bs ->
  0 <= cv <= MAX_INDEX_VALUE ->
  len s0 = ci ->
  drawn_positions (grouped MAX_INDEX_VALUE bs (ci, cv))
                  (s0 ++ rebased MAX_INDEX_VALUE bs cv) B
  = map (fun i => B + i) s0 ++ local_positions bs (B + cv).
Proof.
  induction bs as [|[idx nv] bs IH]; intros ci cv s0 B HM Hbs Hcv Hlen.
  - cbn [grouped rebased drawn_positions local_positions].
    replace (Z.to_nat ci) with (length s0) by (unfold len in Hlen; lia).
    rewrite !app_nil_r, firstn_all. reflexivity.
  - inversion Hbs as [|b bs' [Hnv Hidx] Hbs' Eb]. cbn [fst snd] in *.
    cbn [grouped rebased local_positions fst snd].
    destruct (Z.gtb_spec (cv + nv) MAX_INDEX_VALUE) as [Hov|Hov].
    + cbn [drawn_positions].
      replace (Z.to_nat ci) with (length s0) by (unfold len in Hlen; lia).
      rewrite firstn_app_exact, skipn_app_exact. f_equal.
      rewrite (map_ext_in (fun i => to_uint16 (i + 0)) (fun i => i)).
      2:{ intros i Hi. rewrite Forall_forall in Hidx. specialize (Hidx i Hi).
          rewrite Z.add_0_r. apply to_uint16_small. lia. }
      rewrite map_id, ?Z.add_0_l.
      rewrite (IH (len idx) nv idx (B + cv)); try assumption; try lia;
        reflexivity.
    + rewrite app_assoc.
      rewrite (IH (ci + len idx) (cv + nv)
                  (s0 ++ map (fun i => to_uint16 (i + cv)) idx) B);
        try assumption; try lia.
      * rewrite map_app, <- app_assoc, map_map. f_equal.
        rewrite Z.add_assoc. f_equal.
        apply map_ext_in. intros i Hi.
        rewrite Forall_forall in Hidx. specialize (Hidx i Hi).
        rewrite to_uint16_small by lia. lia.
      * rewrite len_app, len_map. lia.
Qed.

End PartitionerProperties.

(** ** Compiled meshes, continued *)

Section CompiledProperties.

Context {T : Type} `{PodT : Pod T}.

Variable MAX_INDEX_VALUE : Z.
Variable stride : Z.

Hypothesis MAX_range : 0 <= MAX_INDEX_VALUE < 2 ^ 64.
Hypothesis stride_sizeof : stride = sizeof T.

Lemma len_flat_map_vertices (ms : list (MeshData T)) :
  len (flat_map vertices ms) = vertex_total ms.
Proof.
  induction ms as [|d ms IH]; cbn [flat_map vertex_total fold_right].
  - reflexivity.
  - fold (vertex_total ms). now rewrite len_app, IH.
Qed.

(** X7. Compilation stores every vertex once, in input order: the vertex
    buffer is the bytes of the input vertices one after the other and has
    [m_nVertices * stride] bytes, the index buffer has [m_nIndices]
    entries, the mesh is marked compiled and its dirty range is not
    touched. *)
Theorem compiled_buffers (m : VboMesh) :
  (forall ms : list (MeshData T),
     meshes_ok ms ->
     exists m' idata,
       compile_meshes MAX_INDEX_VALUE stride ms m = Done m'
       /\ m_isCompiled m' = true
       /\ m_glVertexData m' = Some (array_bytes (flat_map vertices ms))
       /\ len (array_bytes (flat_map vertices ms)) = m_nVertices m' * stride
       /\ m_glIndexData m' = Some idata
       /\ len idata = m_nIndices m'
       /\ dirtyRange m' = dirtyRange m)
  /\ (forall (vs : list (list T)) (inds : list (list Z)),
        arrays_ok vs inds m ->
        exists m',
          compile_arrays MAX_INDEX_VALUE stride vs inds m = Done m'
          /\ m_isCompiled m' = true
          /\ m_glVertexData m' = Some (array_bytes (concat vs))
          /\ len (array_bytes (concat vs)) = m_nVertices m' * stride
          /\ (0 < m_nIndices m ->
              exists idata,
                m_glIndexData m' = Some idata /\ len idata = m_nIndices m')
          /\ (m_nIndices m = 0 -> m_glIndexData m' = m_glIndexData m)
          /\ dirtyRange m' = dirtyRange m).
Proof.
  split.
  - intros ms (Hok & Hi & Hv & Hb).
    rewrite (compile_meshes_spec MAX_INDEX_VALUE stride MAX_range ms m)
      by assumption.
    eexists. eexists. split; [reflexivity|].
    cbn [m_isCompiled m_glVertexData m_glIndexData m_nVertices m_nIndices].
    split; [reflexivity|]. split; [reflexivity|].
    split; [now rewrite len_array_bytes, len_flat_map_vertices, stride_sizeof|].
    split; [reflexivity|].
    split; [now apply len_stream_of_meshes|]. reflexivity.
  - intros vs inds (Hlen & HnV & HnI & Hvb & Hib).
    pose proof (len_nonneg (concat inds)) as Hi0.
    destruct (Z.eq_dec (m_nIndices m) 0) as [Hz|Hnz].
    + rewrite (compile_arrays_unindexed_spec MAX_INDEX_VALUE stride vs inds m)
        by assumption.
      eexists. split; [reflexivity|].
      cbn [m_isCompiled m_glVertexData m_glIndexData m_nVertices m_nIndices].
      split; [reflexivity|]. split; [reflexivity|].
      split; [now rewrite len_array_bytes, HnV, stride_sizeof|].
      split; [intros; lia|]. split; reflexivity.
    + rewrite (compile_arrays_spec MAX_INDEX_VALUE stride MAX_range vs inds m)
        by (assumption || lia).
      eexists. split; [reflexivity|].
      cbn [m_isCompiled m_glVertexData m_glIndexData m_nVertices m_nIndices].
      split; [reflexivity|]. split; [reflexivity|].
      split; [now rewrite len_array_bytes, HnV, stride_sizeof|].
      split; [|split; [intros; lia | reflexivity]].
      intros _. eexists. split; [reflexivity|].
      rewrite len_rebased, total_indices_arrays by assumption. lia.
Qed.

Lemma groups_of_meshes_positions (ms : list (MeshData T)) : forall B,
  MAX_INDEX_VALUE <= 65536 ->
  Forall mesh_data_ok ms ->
  Forall (fun d => Forall (batch_ok MAX_INDEX_VALUE) (batches_of_mesh d)) ms ->
  drawn_positions (groups_of_meshes MAX_INDEX_VALUE ms)
                  (stream_of_meshes MAX_INDEX_VALUE ms) B
  = mesh_positions ms B.
Proof.
  induction ms as [|d ms IH]; intros B HM Hok Hb.
  - reflexivity.
  - inversion Hok as [|d' ms' Hd Hms]. inversion Hb as [|d'' ms'' Hbd Hbms].
    subst. unfold groups_of_meshes, stream_of_meshes.
    cbn [flat_map mesh_positions].
    fold (groups_of_meshes MAX_INDEX_VALUE ms).
    fold (stream_of_meshes MAX_INDEX_VALUE ms).
    rewrite drawn_positions_app.
    + rewrite grouped_sum_vertexCount. cbn [snd].
      destruct Hd as (Hnn & Hi & Hv). unfold batches_of_mesh at 3.
      rewrite total_vertices_batches, Hv, Z.add_0_l.
      rewrite IH by assumption. f_equal.
      change (rebased MAX_INDEX_VALUE (batches_of_mesh d) 0)
        with ([] ++ rebased MAX_INDEX_VALUE (batches_of_mesh d) 0).
      rewrite (drawn_positions_grouped MAX_INDEX_VALUE (batches_of_mesh d)
                 0 0 [] B); try assumption; try reflexivity; try lia.
      cbn [map app]. now rewrite Z.add_0_r.
    + apply grouped_indexCount_nonneg. cbn. lia.
    + rewrite grouped_sum_indexCount, len_rebased. reflexivity.
Qed.

(** X8. Rebasing keeps the vertex every index denotes.  With
    [MAX_INDEX_VALUE <= 65536] and every batch holding at most
    [MAX_INDEX_VALUE] vertices and local indices below its vertex count,
    an index of the compiled buffer, counted from the first vertex of its
    group, is the position in the vertex buffer of the vertex that the
    local index denoted in its batch. *)
Theorem compiled_indices_denote_the_same_vertices (m : VboMesh) :
  m_vertexOffsets m = [] ->
  MAX_INDEX_VALUE <= 65536 ->
  (forall ms : list (MeshData T),
     meshes_ok ms ->
     Forall (fun d => Forall (batch_ok MAX_INDEX_VALUE) (batches_of_mesh d)) ms ->
     exists m' idata,
       compile_meshes MAX_INDEX_VALUE stride ms m = Done m'
       /\ m_glIndexData m' = Some idata
       /\ drawn_positions (m_vertexOffsets m') idata 0 = mesh_positions ms 0)
  /\ (forall (vs : list (list T)) (inds : list (list Z)),
        arrays_ok vs inds m ->
        0 < m_nIndices m ->
        Forall (batch_ok MAX_INDEX_VALUE) (batches_of_arrays vs inds) ->
        exists m' idata,
          compile_arrays MAX_INDEX_VALUE stride vs inds m = Done m'
          /\ m_glIndexData m' = Some idata
          /\ drawn_positions (m_vertexOffsets m') idata 0
             = local_positions (batches_of_arrays vs inds) 0).
Proof.
  intros Hfresh HM. split.
  - intros ms (Hok & Hi & Hv & Hb) Hbatch.
    rewrite (compile_meshes_spec MAX_INDEX_VALUE stride MAX_range ms m)
      by assumption.
    eexists. eexists. split; [reflexivity|]. split; [reflexivity|].
    cbn [m_vertexOffsets]. rewrite Hfresh. cbn [app].
    now apply groups_of_meshes_positions.
  - intros vs inds (Hlen & HnV & HnI & Hvb & Hib) Hpos Hbatch.
    rewrite (compile_arrays_spec MAX_INDEX_VALUE stride MAX_range vs inds m)
      by assumption.
    eexists. eexists. split; [reflexivity|]. split; [reflexivity|].
    cbn [m_vertexOffsets]. rewrite Hfresh. cbn [app].
    change (rebased MAX_INDEX_VALUE (batches_of_arrays vs inds) 0)
      with ([] ++ rebased MAX_INDEX_VALUE (batches_of_arrays vs inds) 0).
    rewrite (drawn_positions_grouped MAX_INDEX_VALUE
               (batches_of_arrays vs inds) 0 0 [] 0);
      try assumption; try reflexivity; lia.
Qed.

Lemma batches_of_offsets_nonneg : forall offs inds,
  Forall (fun p => 0 <= fst p /\ 0 <= snd p) offs ->
  Forall (fun b : Batch => 0 <= snd b) (batches_of_offsets offs inds).
Proof.
  induction offs as [|[ni nv] offs IH]; intros inds Hnn;
    cbn [batches_of_offsets].
  - constructor.
  - inversion Hnn as [|p offs' [_ Hnv] Hnn']. constructor; [exact Hnv|].
    now apply IH.
Qed.

(** X9. Geometry that fits is drawn in one call: when the vertices of the
    parallel arrays number at most [MAX_INDEX_VALUE], the compiled mesh has
    exactly one group, holding all indices and all vertices; on the
    grouped-batches entry point every mesh with at most [MAX_INDEX_VALUE]
    vertices gets exactly one group, with its own counts. *)
Theorem compiled_in_one_group_when_it_fits (m : VboMesh) :
  m_vertexOffsets m = [] ->
  (forall ms : list (MeshData T),
     meshes_ok ms ->
     Forall (fun d => len (vertices d) <= MAX_INDEX_VALUE) ms ->
     exists m',
       compile_meshes MAX_INDEX_VALUE stride ms m = Done m'
       /\ m_vertexOffsets m'
          = map (fun d => (len (indices d), len (vertices d))) ms)
  /\ (forall (vs : list (list T)) (inds : list (list Z)),
        arrays_ok vs inds m ->
        0 < m_nIndices m ->
        len (concat vs) <= MAX_INDEX_VALUE ->
        exists m',
          compile_arrays MAX_INDEX_VALUE stride vs inds m = Done m'
          /\ m_vertexOffsets m' = [(m_nIndices m', m_nVertices m')]).
Proof.
  intros Hfresh. split.
  - intros ms (Hok & Hi & Hv & Hb) Hfit.
    rewrite (compile_meshes_spec MAX_INDEX_VALUE stride MAX_range ms m)
      by assumption.
    eexists. split; [reflexivity|].
    cbn [m_vertexOffsets]. rewrite Hfresh. cbn [app].
    clear Hi Hv Hb.
    induction Hok as [|d ms (Hnn & Hdi & Hdv) Hms IH].
    + reflexivity.
    + inversion Hfit as [|d' ms' Hd Hfit']. subst.
      unfold groups_of_meshes. cbn [flat_map map].
      fold (groups_of_meshes MAX_INDEX_VALUE ms).
      rewrite IH by assumption.
      rewrite grouped_fits.
      * cbn [fst snd app]. unfold batches_of_mesh.
        rewrite total_indices_batches, total_vertices_batches
          by (assumption || lia).
        rewrite Hdi, Hdv. reflexivity.
      * now apply batches_of_offsets_nonneg.
      * cbn [snd]. unfold batches_of_mesh.
        rewrite total_vertices_batches, Hdv. lia.
  - intros vs inds (Hlen & HnV & HnI & Hvb & Hib) Hpos Hfit.
    rewrite (compile_arrays_spec MAX_INDEX_VALUE stride MAX_range vs inds m)
      by assumption.
    eexists. split; [reflexivity|].
    cbn [m_vertexOffsets m_nIndices m_nVertices]. rewrite Hfresh. cbn [app].
    rewrite grouped_fits.
    + cbn [fst snd].
      rewrite total_indices_arrays, total_vertices_arrays by lia.
      rewrite HnI, HnV. reflexivity.
    + apply batches_of_arrays_nonneg.
    + cbn [snd]. rewrite total_vertices_arrays by lia. lia.
Qed.

Lemma length_batches_of_offsets : forall offs inds,
  length (batches_of_offsets offs inds) = length offs.
Proof.
  induction offs as [|[ni nv] offs IH]; intros inds; cbn; [reflexivity|].
  now rewrite IH.
Qed.

(** X10. The number of draw groups.  The grouped-batches entry point
    leaves at least one group per mesh and at most one group per mesh and
    one per batch; the parallel-arrays entry point with indices leaves at
    least one group and at most one more than there are features. *)
Theorem compiled_group_count (m : VboMesh) :
  m_vertexOffsets m = [] ->
  (forall ms : list (MeshData T),
     meshes_ok ms ->
     exists m',
       compile_meshes MAX_INDEX_VALUE stride ms m = Done m'
       /\ (length ms <= length (m_vertexOffsets m')
           <= length ms + length (flat_map offsets ms))%nat)
  /\ (forall (vs : list (list T)) (inds : list (list Z)),
        arrays_ok vs inds m ->
        0 < m_nIndices m ->
        exists m',
          compile_arrays MAX_INDEX_VALUE stride vs inds m = Done m'
          /\ (1 <= length (m_vertexOffsets m') <= S (length vs))%nat).
Proof.
  intros Hfresh. split.
  - intros ms (Hok & Hi & Hv & Hb).
    rewrite (compile_meshes_spec MAX_INDEX_VALUE stride MAX_range ms m)
      by assumption.
    eexists. split; [reflexivity|].
    cbn [m_vertexOffsets]. rewrite Hfresh. cbn [app].
    clear. induction ms as [|d ms IH]; cbn [flat_map length].
    + cbn. lia.
    + unfold groups_of_meshes. cbn [flat_map].
      fold (groups_of_meshes MAX_INDEX_VALUE ms).
      rewrite !length_app.
      pose proof (grouped_length MAX_INDEX_VALUE (batches_of_mesh d) (0, 0))
        as Hg.
      assert (Hb : length (batches_of_mesh d) = length (offsets d))
        by apply length_batches_of_offsets.
      rewrite Hb in Hg. lia.
  - intros vs inds (Hlen & HnV & HnI & Hvb & Hib) Hpos.
    rewrite (compile_arrays_spec MAX_INDEX_VALUE stride MAX_range vs inds m)
      by assumption.
    eexists. split; [reflexivity|].
    cbn [m_vertexOffsets]. rewrite Hfresh. cbn [app].
    pose proof (grouped_length MAX_INDEX_VALUE (batches_of_arrays vs inds)
                  (0, 0)) as Hg.
    assert (Hb : (length (batches_of_arrays vs inds) <= length vs)%nat).
    { unfold batches_of_arrays. rewrite length_map, length_combine. lia. }
    lia.
Qed.

End CompiledProperties.

(** ** The assertion of the grouped-batches entry point *)

Section CompileAssertion.

Context {T : Type} `{PodT : Pod T}.

Variable MAX_INDEX_VALUE : Z.
Variable stride : Z.

Hypothesis MAX_range : 0 <= MAX_INDEX_VALUE < 2 ^ 64.
Hypothesis stride_sizeof : stride = sizeof T.

Lemma declared_indices_nonneg (ms : list (MeshData T)) :
  Forall offsets_within ms -> 0 <= declared_indices ms.
Proof.
  induction 1 as [|d ms (Hnn & _ & _) _ IH]; cbn; [lia|].
  fold (declared_indices ms). pose proof (sum_indexCount_nonneg _ Hnn). lia.
Qed.

Lemma declared_indices_le (ms : list (MeshData T)) :
  Forall offsets_within ms -> declared_indices ms <= index_total ms.
Proof.
  induction 1 as [|d ms (_ & Hle & _) _ IH]; cbn; [lia|].
  fold (declared_indices ms). fold (index_total ms). lia.
Qed.

Lemma compile_all_indices_declared :
  forall (ms : list (MeshData T)) groups pre rest,
    Forall offsets_within ms ->
    declared_indices ms <= len rest ->
    index_total ms < 2 ^ 32 ->
    exists groups' out,
      compile_all_indices MAX_INDEX_VALUE ms groups (pre ++ rest) (len pre)
      = Done (groups',
              pre ++ out ++ skipn (Z.to_nat (declared_indices ms)) rest,
              len pre + declared_indices ms)
      /\ len out = declared_indices ms.
Proof.
  induction ms as [|d ms IH]; intros groups pre rest Hok Hrest Hi.
  - exists groups, []. cbn. rewrite Z.add_0_r. split; reflexivity.
  - inversion Hok as [|d' ms' Hd Hms]. subst d' ms'.
    destruct Hd as (Hnn & Hle & Hv).
    cbn [declared_indices index_total fold_right] in *.
    fold (declared_indices ms) in *. fold (index_total ms) in *.
    pose proof (declared_indices_nonneg ms Hms) as Hd0.
    pose proof (declared_indices_le ms Hms) as Hdle.
    pose proof (index_total_nonneg ms) as Hi0.
    pose proof (sum_indexCount_nonneg _ Hnn) as Hs0.
    pose proof (sum_vertexCount_nonneg _ Hnn) as Hv0.
    set (D := sum_indexCount (offsets d)) in *.
    set (out := rebased MAX_INDEX_VALUE (batches_of_mesh d) 0).
    assert (Hout : len out = D).
    { unfold out. rewrite len_rebased. unfold batches_of_mesh.
      now apply total_indices_batches. }
    cbn [compile_all_indices]. unfold compileIndices, emplace_back.
    pose proof (compileIndices_loop_spec MAX_INDEX_VALUE MAX_range
                  (offsets d) [] (indices d) pre rest groups (0, 0)) as HL.
    cbn [app fst snd] in HL. change (@len Z []) with 0 in HL.
    rewrite HL; try assumption; try (fold D; lia).
    cbn [bind]. fold (batches_of_mesh d). fold out. fold D.
    rewrite (app_assoc pre out).
    replace (len pre + D) with (len (pre ++ out)) by (rewrite len_app; lia).
    destruct (IH (groups ++ grouped MAX_INDEX_VALUE (batches_of_mesh d) (0, 0))
                 (pre ++ out) (skipn (Z.to_nat D) rest))
      as (groups' & out' & Hrun & Hout'); try assumption; try lia.
    { rewrite len_skipn by lia. lia. }
    exists groups', (out ++ out').
    rewrite Hrun. split.
    + rewrite <- !app_assoc, skipn_skipn, len_app.
      replace (Z.to_nat (declared_indices ms) + Z.to_nat D)%nat
        with (Z.to_nat (D + declared_indices ms)) by lia.
      replace (len pre + len out + declared_indices ms)
        with (len pre + (D + declared_indices ms)) by lia.
      reflexivity.
    + rewrite len_app. lia.
Qed.

(** X11. The assertion at the end of the grouped-batches entry point:
    when the [offsets] of the meshes stay within their index arrays but
    declare fewer indices than the meshes hold, [compile] fails its
    [assert(dst == m_glIndexData + m_nIndices)]. *)
Theorem compile_meshes_asserts_on_undeclared_indices
    (ms : list (MeshData T)) (m : VboMesh) :
  Forall offsets_within ms ->
  declared_indices ms < index_total ms ->
  index_total ms < 2 ^ 32 ->
  vertex_total ms * sizeof T < 2 ^ 64 ->
  compile_meshes MAX_INDEX_VALUE stride ms m = AssertFailed.
Proof.
  intros Hok Hlt Hi Hb.
  pose proof sizeof_pos as Hpos.
  pose proof (index_total_nonneg ms). pose proof (vertex_total_nonneg ms).
  unfold compile_meshes.
  rewrite count_vertices_spec, count_indices_spec by nia.
  replace (vertex_total ms * stride) with (vertex_total ms * sizeof T)
    by (now rewrite stride_sizeof).
  rewrite (to_size_t_small (vertex_total ms * sizeof T)) by nia.
  pose proof (copy_meshes_spec stride ms []
                (new_bytes (vertex_total ms * sizeof T))) as HC.
  cbn [app] in HC. change (@len byte []) with 0 in HC.
  rewrite HC; try assumption.
  2:{ unfold new_bytes. rewrite len_repeat. nia. }
  cbn [bind].
  destruct (compile_all_indices_declared ms (m_vertexOffsets m) []
              (new_indices (index_total ms)))
    as (groups' & out & Hrun & Hout); try assumption.
  { unfold new_indices. rewrite len_repeat. lia. }
  cbn [app] in Hrun. change (@len Z []) with 0 in Hrun.
  rewrite Hrun. cbn [bind]. rewrite Z.add_0_l.
  destruct (Z.eqb_spec (declared_indices ms) (index_total ms)); [lia|].
  reflexivity.
Qed.

(** X12. A compiled mesh can be mutated: after the grouped-batches entry
    point has compiled well-formed input, [updateVertices] with a range
    inside the mesh overwrites the vertices of the range in the copy of the
    input vertices and, the mesh being clean, makes the byte span of the
    range the dirty range. *)
Theorem compile_then_updateVertices
    (ms : list (MeshData T)) (m : VboMesh) (start count : Z) (v : T) :
  meshes_ok ms ->
  vertex_total ms * sizeof T < 2 ^ 31 ->
  m_dirty m = false ->
  0 <= start -> 0 <= count -> start + count <= vertex_total ms ->
  exists m' m'',
    compile_meshes MAX_INDEX_VALUE stride ms m = Done m'
    /\ updateVertices {| range_start := start; range_length := count |} v m'
       = Done m''
    /\ m_glVertexData m''
       = Some (array_bytes (overwrite (flat_map vertices ms) start count v))
    /\ dirtyRange m'' = Some (start * sizeof T, count * sizeof T)
    /\ m_vertexOffsets m'' = m_vertexOffsets m'
    /\ m_glIndexData m'' = m_glIndexData m'.
Proof.
  intros (Hok & Hi & Hv & Hb) Hsz Hclean Hs Hc Hle.
  rewrite (compile_meshes_spec MAX_INDEX_VALUE stride MAX_range ms m)
    by assumption.
  eexists. eexists. split; [reflexivity|].
  rewrite (updateVertices_overwrite (flat_map vertices ms) start count v);
    rewrite ?len_flat_map_vertices; try assumption; try reflexivity.
  split; [reflexivity|].
  split; [now rewrite setDirty_glVertexData|].
  split; [apply setDirty_clean; exact Hclean|].
  unfold setDirty. cbn [set_glVertexData m_dirty]. rewrite Hclean.
  split; reflexivity.
Qed.

End CompileAssertion.

(** ** The further properties of compilation on concrete input *)

Lemma compiled_buffers_witness :
  let m := with_counts 2 3 newMesh in
  (exists m' idata,
     compile_meshes 65536 1 [mesh_of_arrays sample_vertices sample_indices] m
     = Done m'
     /\ m_isCompiled m' = true
     /\ m_glVertexData m'
        = Some (array_bytes
                  (flat_map vertices
                     [mesh_of_arrays sample_vertices sample_indices]))
     /\ len (array_bytes
               (flat_map vertices
                  [mesh_of_arrays sample_vertices sample_indices]))
        = m_nVertices m' * 1
     /\ m_glIndexData m' = Some idata
     /\ len idata = m_nIndices m'
     /\ dirtyRange m' = dirtyRange m)
  /\ (exists m',
        compile_arrays 65536 1 sample_vertices sample_indices m = Done m'
        /\ m_isCompiled m' = true
        /\ m_glVertexData m' = Some (array_bytes (concat sample_vertices))).
Proof.
  cbv zeta.
  destruct (compiled_buffers (T := byte) (PodT := Pod_byte) 65536 1
              ltac:(lia) eq_refl (with_counts 2 3 newMesh)) as [Ha Hb].
  split.
  - apply Ha. exact sample_meshes_ok.
  - destruct (Hb sample_vertices sample_indices sample_arrays_ok)
      as (m' & H1 & H2 & H3 & _).
    exists m'. repeat split; assumption.
Defined.

Lemma compiled_indices_denote_the_same_vertices_witness :
  let m := with_counts 2 3 newMesh in
  (exists m' idata,
     compile_meshes 65536 1 [mesh_of_arrays sample_vertices sample_indices] m
     = Done m'
     /\ m_glIndexData m' = Some idata
     /\ drawn_positions (m_vertexOffsets m') idata 0
        = mesh_positions [mesh_of_arrays sample_vertices sample_indices] 0)
  /\ (exists m' idata,
        compile_arrays 65536 1 sample_vertices sample_indices m = Done m'
        /\ m_glIndexData m' = Some idata
        /\ drawn_positions (m_vertexOffsets m') idata 0
           = local_positions (batches_of_arrays sample_vertices sample_indices)
                             0).
Proof.
  cbv zeta.
  destruct (compiled_indices_denote_the_same_vertices
              (T := byte) (PodT := Pod_byte) 65536 1
              ltac:(lia) eq_refl (with_counts 2 3 newMesh) eq_refl ltac:(lia))
    as [Ha Hb].
  split.
  - apply Ha; [exact sample_meshes_ok|].
    constructor; [|constructor]. exact sample_batches_ok.
  - apply Hb; [exact sample_arrays_ok | closed_goal | exact sample_batches_ok].
Defined.

Lemma compiled_in_one_group_when_it_fits_witness :
  let m := with_counts 2 3 newMesh in
  (exists m',
     compile_meshes 65536 1 [mesh_of_arrays sample_vertices sample_indices] m
     = Done m'
     /\ m_vertexOffsets m'
        = map (fun d => (len (indices d), len (vertices d)))
              [mesh_of_arrays sample_vertices sample_indices])
  /\ (exists m',
        compile_arrays 65536 1 sample_vertices sample_indices m = Done m'
        /\ m_vertexOffsets m' = [(m_nIndices m', m_nVertices m')]).
Proof.
  cbv zeta.
  destruct (compiled_in_one_group_when_it_fits
              (T := byte) (PodT := Pod_byte) 65536 1
              ltac:(lia) eq_refl (with_counts 2 3 newMesh) eq_refl)
    as [Ha Hb].
  split.
  - apply Ha; [exact sample_meshes_ok|].
    constructor; [closed_goal | constructor].
  - apply Hb; [exact sample_arrays_ok | closed_goal | closed_goal].
Defined.

Lemma compiled_group_count_witness :
  let m := with_counts 2 3 newMesh in
  (exists m',
     compile_meshes 65536 1 [mesh_of_arrays sample_vertices sample_indices] m
     = Done m'
     /\ (length [mesh_of_arrays sample_vertices sample_indices]
         <= length (m_vertexOffsets m')
         <= length [mesh_of_arrays sample_vertices sample_indices]
            + length (flat_map offsets
                        [mesh_of_arrays sample_vertices sample_indices]))%nat)
  /\ (exists m',
        compile_arrays 65536 1 sample_vertices sample_indices m = Done m'
        /\ (1 <= length (m_vertexOffsets m')
            <= S (length sample_vertices))%nat).
Proof.
  cbv zeta.
  destruct (compiled_group_count (T := byte) (PodT := Pod_byte) 65536 1
              ltac:(lia) eq_refl (with_counts 2 3 newMesh) eq_refl)
    as [Ha Hb].
  split.
  - apply Ha. exact sample_meshes_ok.
  - apply Hb; [exact sample_arrays_ok | closed_goal].
Defined.

Lemma compile_meshes_asserts_on_undeclared_indices_witness :
  compile_meshes 65536 1
    [{| offsets := [(1, 1)]; vertices := [x00]; indices := [0; 0] |}] newMesh
  = AssertFailed.
Proof.
  apply (compile_meshes_asserts_on_undeclared_indices
           (T := byte) (PodT := Pod_byte) 65536 1 ltac:(lia) eq_refl).
  - constructor; [|constructor]. unfold offsets_within.
    split; [|split; closed_goal].
    constructor; [split; closed_goal | constructor].
  - closed_goal.
  - closed_goal.
  - closed_goal.
Defined.

Lemma compile_then_updateVertices_witness :
  exists m' m'',
    compile_meshes 65536 1 [mesh_of_arrays sample_vertices sample_indices]
                   newMesh = Done m'
    /\ updateVertices {| range_start := 1; range_length := 1 |} xff m'
       = Done m''
    /\ m_glVertexData m''
       = Some (array_bytes
                 (overwrite
                    (flat_map vertices
                       [mesh_of_arrays sample_vertices sample_indices])
                    1 1 xff))
    /\ dirtyRange m'' = Some (1 * sizeof byte, 1 * sizeof byte)
    /\ m_vertexOffsets m'' = m_vertexOffsets m'
    /\ m_glIndexData m'' = m_glIndexData m'.
Proof.
  apply (compile_then_updateVertices (T := byte) (PodT := Pod_byte) 65536 1
           ltac:(lia) eq_refl
           [mesh_of_arrays sample_vertices sample_indices] newMesh 1 1 xff).
  - exact sample_meshes_ok.
  - closed_goal.
  - reflexivity.
  - lia.
  - lia.
  - closed_goal.
Defined.

(** * Scene and font descriptions *)

(** ** Strings *)

Lemma str_eqb_eq (a b : str) : str_eqb a b = true <-> a = b.
Proof.
  revert b. induction a as [|x a IH]; intros [|y b]; simpl;
    try (split; [discriminate | discriminate]); try tauto.
  rewrite andb_true_iff, Ascii.eqb_eq, IH.
  split; [intros [-> ->]; reflexivity | intros E; inversion E; auto].
Qed.

Lemma str_eqb_refl (a : str) : str_eqb a a = true.
Proof. now apply str_eqb_eq. Qed.

Lemma str_eqb_neq (a b : str) : a <> b -> str_eqb a b = false.
Proof.
  intros N. destruct (str_eqb a b) eqn:E; [|reflexivity].
  apply str_eqb_eq in E. contradiction.
Qed.

(** ** [std::find] over the names *)

Lemma std_find_le (l : list str) (v : str) :
  (std_find l v <= length l)%nat.
Proof.
  induction l as [|x l IH]; simpl; [lia|].
  destruct (str_eqb x v); lia.
Qed.

Lemma std_find_end (l : list str) (v : str) :
  std_find l v = length l <-> ~ In v l.
Proof.
  induction l as [|x l IH]; simpl; [tauto|].
  destruct (str_eqb x v) eqn:E.
  - apply str_eqb_eq in E. split; [discriminate | intros N; exfalso; auto].
  - split.
    + intros H [->|Hin]; [now rewrite str_eqb_refl in E|].
      apply IH in Hin; [assumption | lia].
    + intros N. f_equal. apply IH. tauto.
Qed.

Lemma std_find_found (l : list str) (v : str) :
  In v l ->
  (std_find l v < length l)%nat
  /\ nth_error l (std_find l v) = Some v
  /\ ~ In v (firstn (std_find l v) l).
Proof.
  induction l as [|x l IH]; simpl; [tauto|].
  intros Hin. destruct (str_eqb x v) eqn:E.
  - apply str_eqb_eq in E. subst x. simpl. repeat split; [lia | tauto].
  - destruct Hin as [->|Hin]; [now rewrite str_eqb_refl in E|].
    destruct (IH Hin) as (H1 & H2 & H3). simpl.
    repeat split; [lia | assumption |].
    intros [->|H]; [now rewrite str_eqb_refl in E | contradiction].
Qed.

Lemma std_find_app_present (l t : list str) (v : str) :
  In v l -> std_find (l ++ t) v = std_find l v.
Proof.
  induction l as [|x l IH]; simpl; [tauto|].
  intros Hin. destruct (str_eqb x v) eqn:E; [reflexivity|].
  destruct Hin as [->|Hin]; [now rewrite str_eqb_refl in E|].
  now rewrite IH.
Qed.

Lemma std_find_app_absent (l t : list str) (v : str) :
  ~ In v l -> std_find (l ++ t) v = (length l + std_find t v)%nat.
Proof.
  induction l as [|x l IH]; simpl; [reflexivity|].
  intros N. rewrite str_eqb_neq by (intros ->; tauto).
  rewrite IH by tauto. reflexivity.
Qed.

Lemma In_str_dec (v : str) (l : list str) : {In v l} + {~ In v l}.
Proof. apply in_dec. apply list_eq_dec. apply ascii_dec. Qed.

(** ** [getIdForName] and [addIdForName] *)

Lemma getIdForName_absent (names : list str) (name : str) :
  ~ In name names -> Scene.getIdForName names name = -1.
Proof.
  intros N. unfold Scene.getIdForName.
  apply std_find_end in N. rewrite N, Nat.eqb_refl. reflexivity.
Qed.

Lemma getIdForName_present (names : list str) (name : str) :
  In name names -> len names <= 2 ^ 31 ->
  Scene.getIdForName names name = Z.of_nat (std_find names name).
Proof.
  intros Hin Hlen. unfold Scene.getIdForName.
  destruct (std_find_found names name Hin) as (Hlt & _).
  destruct (Nat.eqb_spec (std_find names name) (length names)); [lia|].
  apply to_int_small. unfold len in Hlen. lia.
Qed.

Lemma addIdForName_present (names : list str) (name : str) :
  In name names -> len names <= 2 ^ 31 ->
  Scene.addIdForName names name = (names, Z.of_nat (std_find names name)).
Proof.
  intros Hin Hlen. unfold Scene.addIdForName.
  rewrite getIdForName_present by assumption.
  destruct (Z.ltb_spec (Z.of_nat (std_find names name)) 0); [lia|reflexivity].
Qed.

Lemma addIdForName_absent (names : list str) (name : str) :
  ~ In name names -> len names < 2 ^ 31 ->
  Scene.addIdForName names name = (names ++ [name], len names).
Proof.
  intros N Hlen. unfold Scene.addIdForName.
  rewrite getIdForName_absent by assumption. cbn [Z.ltb Z.compare].
  f_equal. unfold len in *. rewrite length_app. cbn [length].
  replace (Z.of_nat (length names + 1) - 1) with (Z.of_nat (length names))
    by lia.
  rewrite to_size_t_small by lia. apply to_int_small. lia.
Qed.

(** X13. [getIdForName] on a list of at most 2^31 names returns [-1]
    exactly for a name that is not in the list; for a name in the list it
    returns the position of its first occurrence. *)
Theorem getIdForName_finds_first (names : list str) (name : str) :
  len names <= 2 ^ 31 ->
  let id := Scene.getIdForName names name in
  (id = -1 <-> ~ In name names)
  /\ (In name names ->
      0 <= id < len names
      /\ nth_error names (Z.to_nat id) = Some name
      /\ ~ In name (firstn (Z.to_nat id) names)).
Proof.
  intros Hlen id. subst id.
  assert (Hp : In name names ->
               0 <= Scene.getIdForName names name < len names
               /\ nth_error names (Z.to_nat (Scene.getIdForName names name))
                  = Some name
               /\ ~ In name
                    (firstn (Z.to_nat (Scene.getIdForName names name)) names)).
  { intros Hin. rewrite getIdForName_present by assumption.
    destruct (std_find_found names name Hin) as (H1 & H2 & H3).
    rewrite Nat2Z.id. unfold len. repeat split; try assumption; lia. }
  split; [|exact Hp].
  split.
  - intros E Hin. destruct (Hp Hin) as (H & _). lia.
  - apply getIdForName_absent.
Qed.

Lemma getIdForName_finds_first_witness :
  (Scene.getIdForName [["a"]; ["b"]; ["a"]]%char ["c"]%char = -1
   <-> ~ In ["c"]%char [["a"]; ["b"]; ["a"]]%char)
  /\ (In ["a"]%char [["a"]; ["b"]; ["a"]]%char ->
      0 <= Scene.getIdForName [["a"]; ["b"]; ["a"]]%char ["a"]%char
        < len [["a"]; ["b"]; ["a"]]%char
      /\ nth_error [["a"]; ["b"]; ["a"]]%char
           (Z.to_nat
              (Scene.getIdForName [["a"]; ["b"]; ["a"]]%char ["a"]%char))
         = Some ["a"]%char
      /\ ~ In ["a"]%char
           (firstn
              (Z.to_nat
                 (Scene.getIdForName [["a"]; ["b"]; ["a"]]%char ["a"]%char))
              [["a"]; ["b"]; ["a"]]%char)).
Proof.
  split.
  - apply (getIdForName_finds_first [["a"]; ["b"]; ["a"]]%char ["c"]%char).
    closed_goal.
  - apply (getIdForName_finds_first [["a"]; ["b"]; ["a"]]%char ["a"]%char).
    closed_goal.
Defined.

(** X14. After [addIdForName] on a list of fewer than 2^31 names,
    [getIdForName] returns for that name the id [addIdForName] returned, and
    the id is the position of the name in the list. *)
Theorem addIdForName_then_getIdForName (names : list str) (name : str) :
  len names < 2 ^ 31 ->
  let r := Scene.addIdForName names name in
  Scene.getIdForName (fst r) name = snd r
  /\ 0 <= snd r < len (fst r)
  /\ nth_error (fst r) (Z.to_nat (snd r)) = Some name.
Proof.
  intros Hlen r. subst r.
  destruct (In_str_dec name names) as [Hin|N].
  - rewrite addIdForName_present by (assumption || lia). cbn [fst snd].
    rewrite getIdForName_present by (assumption || lia).
    destruct (std_find_found names name Hin) as (H1 & H2 & _).
    rewrite Nat2Z.id. unfold len. repeat split; try assumption; lia.
  - rewrite addIdForName_absent by assumption. cbn [fst snd].
    assert (Hf : std_find (names ++ [name]) name = length names).
    { rewrite std_find_app_absent by assumption. simpl.
      rewrite str_eqb_refl. lia. }
    assert (Hl : len (names ++ [name]) = len names + 1).
    { unfold len. rewrite length_app. simpl. lia. }
    rewrite getIdForName_present, Hf, Hl;
      [|apply in_or_app; right; left; reflexivity | lia].
    unfold len. rewrite Nat2Z.id.
    repeat split; try lia.
    rewrite nth_error_app2, Nat.sub_diag by lia. reflexivity.
Qed.

Lemma addIdForName_then_getIdForName_witness :
  Scene.getIdForName
    (fst (Scene.addIdForName [["a"]; ["b"]]%char ["c"]%char)) ["c"]%char
  = snd (Scene.addIdForName [["a"]; ["b"]]%char ["c"]%char)
  /\ 0 <= snd (Scene.addIdForName [["a"]; ["b"]]%char ["c"]%char)
       < len (fst (Scene.addIdForName [["a"]; ["b"]]%char ["c"]%char))
  /\ nth_error (fst (Scene.addIdForName [["a"]; ["b"]]%char ["c"]%char))
       (Z.to_nat (snd (Scene.addIdForName [["a"]; ["b"]]%char ["c"]%char)))
     = Some ["c"]%char.
Proof.
  apply (addIdForName_then_getIdForName [["a"]; ["b"]]%char ["c"]%char).
  closed_goal.
Defined.

(** X15. [addIdForName] only appends to the list of names, and it changes
    the id of no other name: [getIdForName] answers for every other name as
    before, [-1] included. *)
Theorem addIdForName_keeps_other_ids (names : list str) (name other : str) :
  other <> name ->
  let r := Scene.addIdForName names name in
  Scene.getIdForName (fst r) other = Scene.getIdForName names other
  /\ exists tail, fst r = names ++ tail.
Proof.
  intros Hne r. subst r. unfold Scene.addIdForName.
  destruct (Scene.getIdForName names name <? 0); cbn [fst].
  - split; [|now exists [name]].
    unfold Scene.getIdForName.
    destruct (In_str_dec other names) as [Hin|N].
    + rewrite std_find_app_present by assumption.
      destruct (std_find_found names other Hin) as (Hlt & _).
      rewrite length_app. cbn [length].
      destruct (Nat.eqb_spec (std_find names other) (length names + 1));
        [lia|].
      destruct (Nat.eqb_spec (std_find names other) (length names));
        [lia|reflexivity].
    + rewrite std_find_app_absent by assumption.
      apply std_find_end in N. rewrite N. simpl std_find.
      rewrite str_eqb_neq by congruence.
      rewrite length_app. cbn [length]. now rewrite !Nat.eqb_refl.
  - split; [reflexivity|]. exists []. now rewrite app_nil_r.
Qed.

Lemma addIdForName_keeps_other_ids_witness :
  Scene.getIdForName
    (fst (Scene.addIdForName [["a"]; ["b"]]%char ["c"]%char)) ["b"]%char
  = Scene.getIdForName [["a"]; ["b"]]%char ["b"]%char
  /\ exists tail,
       fst (Scene.addIdForName [["a"]; ["b"]]%char ["c"]%char)
       = [["a"]; ["b"]]%char ++ tail.
Proof.
  apply (addIdForName_keeps_other_ids
           [["a"]; ["b"]]%char ["c"]%char ["b"]%char).
  discriminate.
Defined.

(** X16. [addIdForName] is idempotent on a list of fewer than 2^31 names:
    adding the same name a second time returns the same id and leaves the
    list as the first call left it. *)
Theorem addIdForName_idempotent (names : list str) (name : str) :
  len names < 2 ^ 31 ->
  Scene.addIdForName (fst (Scene.addIdForName names name)) name
  = Scene.addIdForName names name.
Proof.
  intros Hlen.
  destruct (In_str_dec name names) as [Hin|N].
  - rewrite (addIdForName_present names name) by (assumption || lia).
    cbn [fst]. apply addIdForName_present; [assumption | lia].
  - rewrite (addIdForName_absent names name) by assumption. cbn [fst].
    rewrite addIdForName_present.
    + rewrite std_find_app_absent by assumption. simpl.
      rewrite str_eqb_refl. unfold len. do 2 f_equal. lia.
    + apply in_or_app; right; left; reflexivity.
    + unfold len in *. rewrite length_app. simpl. lia.
Qed.

Lemma addIdForName_idempotent_witness :
  Scene.addIdForName
    (fst (Scene.addIdForName [["a"]; ["b"]]%char ["c"]%char)) ["c"]%char
  = Scene.addIdForName [["a"]; ["b"]]%char ["c"]%char.
Proof.
  apply (addIdForName_idempotent [["a"]; ["b"]]%char ["c"]%char).
  closed_goal.
Defined.

(** X17. [addIdForName] keeps a list of fewer than 2^31 names free of
    duplicates; the names of the list it leaves are those it had and the
    name added, and a name that was not in the list gets the next free id,
    the former length of the list. *)
Theorem addIdForName_no_duplicates (names : list str) (name : str) :
  NoDup names -> len names < 2 ^ 31 ->
  let r := Scene.addIdForName names name in
  NoDup (fst r)
  /\ (forall n, In n (fst r) <-> n = name \/ In n names)
  /\ (~ In name names -> r = (names ++ [name], len names)).
Proof.
  intros Hnd Hlen r. subst r.
  destruct (In_str_dec name names) as [Hin|N].
  - rewrite addIdForName_present by (assumption || lia). cbn [fst].
    split; [assumption|]. split; [|contradiction].
    intros n. split; [tauto | intros [->|H]; assumption].
  - rewrite addIdForName_absent by assumption. cbn [fst].
    split; [|split; [|reflexivity]].
    + apply NoDup_app; [assumption | constructor; [intros [] | constructor] |].
      intros x Hx [<-|[]]. contradiction.
    + intros n. rewrite in_app_iff. simpl. intuition congruence.
Qed.

Lemma addIdForName_no_duplicates_witness :
  NoDup (fst (Scene.addIdForName [["a"]; ["b"]]%char ["c"]%char))
  /\ (forall n,
        In n (fst (Scene.addIdForName [["a"]; ["b"]]%char ["c"]%char))
        <-> n = ["c"]%char \/ In n [["a"]; ["b"]]%char)
  /\ (~ In ["c"]%char [["a"]; ["b"]]%char ->
      Scene.addIdForName [["a"]; ["b"]]%char ["c"]%char
      = ([["a"]; ["b"]]%char ++ [["c"]%char], len [["a"]; ["b"]]%char)).
Proof.
  apply (addIdForName_no_duplicates [["a"]; ["b"]]%char ["c"]%char).
  - constructor; [simpl; intros [H|[]]; discriminate H|].
    constructor; [intros [] | constructor].
  - closed_goal.
Defined.

(** X18. On a list of at most 2^31 names, two names with the same id are
    the same name, when one of them is in the list. *)
Theorem getIdForName_injective (names : list str) (a b : str) :
  len names <= 2 ^ 31 -> In a names ->
  Scene.getIdForName names a = Scene.getIdForName names b -> a = b.
Proof.
  intros Hlen Ha E.
  destruct (In_str_dec b names) as [Hb|N].
  - rewrite !getIdForName_present in E by assumption.
    apply Nat2Z.inj in E.
    destruct (std_find_found names a Ha) as (_ & H1 & _).
    destruct (std_find_found names b Hb) as (_ & H2 & _).
    rewrite E in H1. congruence.
  - rewrite (getIdForName_absent names b N) in E.
    rewrite getIdForName_present in E by assumption. lia.
Qed.

Lemma getIdForName_injective_witness :
  In ["b"]%char [["a"]; ["b"]]%char
  /\ Scene.getIdForName [["a"]; ["b"]]%char ["b"]%char
     = Scene.getIdForName [["a"]; ["b"]]%char ["b"]%char
  /\ ["b"]%char = ["b"]%char.
Proof.
  assert (Hin : In ["b"]%char [["a"]; ["b"]]%char)
    by (simpl; right; left; reflexivity).
  split; [exact Hin|]. split; [reflexivity|].
  apply (getIdForName_injective [["a"]; ["b"]]%char ["b"]%char ["b"]%char).
  - closed_goal.
  - exact Hin.
  - reflexivity.
Defined.

(** ** Lookups by name *)

Section LookupFacts.

Variables Style Light DataSource : Type.
Variable getName : Style -> str.
Variable getInstanceName : Light -> str.
Variable name : DataSource -> str.

Lemma first_named_cons {X : Type} (key : X -> str) (x : X) (l : list X)
    (n : str) (r : option X) :
  key x <> n -> first_named key l n r -> first_named key (x :: l) n r.
Proof.
  intros Hne. destruct r as [y|]; simpl.
  - intros (before & after & -> & Hk & Hb).
    exists (x :: before), after. repeat split; auto.
  - intros H. constructor; assumption.
Qed.

Lemma first_named_here {X : Type} (key : X -> str) (x : X) (l : list X) :
  first_named key (x :: l) (key x) (Some x).
Proof. exists [], l. repeat split. constructor. Qed.

Lemma findStyle_first_named (styles : list Style) (n : str) :
  first_named getName styles n (Scene.findStyle Style getName styles n).
Proof.
  induction styles as [|s styles IH]; simpl; [constructor|].
  destruct (str_eqb (getName s) n) eqn:E.
  - apply str_eqb_eq in E. subst n. apply first_named_here.
  - apply first_named_cons; [|exact IH].
    intros H. apply str_eqb_eq in H. congruence.
Qed.

Lemma findLight_first_named (lights : list Light) (n : str) :
  first_named getInstanceName lights n
    (Scene.findLight Light getInstanceName lights n).
Proof.
  induction lights as [|s lights IH]; simpl; [constructor|].
  destruct (str_eqb (getInstanceName s) n) eqn:E.
  - apply str_eqb_eq in E. subst n. apply first_named_here.
  - apply first_named_cons; [|exact IH].
    intros H. apply str_eqb_eq in H. congruence.
Qed.

Lemma getDataSource_first_named (sources : list DataSource) (n : str) :
  first_named name sources n
    (Scene.getDataSource DataSource name sources n).
Proof.
  induction sources as [|s sources IH]; simpl; [constructor|].
  destruct (str_eqb (name s) n) eqn:E.
  - apply str_eqb_eq in E. subst n. apply first_named_here.
  - apply first_named_cons; [|exact IH].
    intros H. apply str_eqb_eq in H. congruence.
Qed.

(** X19. [findStyle], [findLight] and [getDataSource] return the first
    element of their list that has the name asked for, and nothing exactly
    when no element has it: of two elements with one name the later one
    is never found. *)
Theorem lookups_return_first_match (styles : list Style)
    (lights : list Light) (sources : list DataSource) (n : str) :
  first_named getName styles n (Scene.findStyle Style getName styles n)
  /\ first_named getInstanceName lights n
       (Scene.findLight Light getInstanceName lights n)
  /\ first_named name sources n
       (Scene.getDataSource DataSource name sources n).
Proof.
  split; [apply findStyle_first_named|].
  split; [apply findLight_first_named | apply getDataSource_first_named].
Qed.

End LookupFacts.

(** ** The paths of a scene *)

Lemma find_last_of_None (s : str) (c : ascii) :
  find_last_of s c = None <-> ~ In c s.
Proof.
  induction s as [|x s IH]; simpl; [tauto|].
  destruct (find_last_of s c) as [i|].
  - split; [discriminate|]. intros N. exfalso. apply N. right.
    destruct (in_dec ascii_dec c s) as [H|H]; [assumption|].
    apply IH in H. discriminate.
  - destruct (Ascii.eqb_spec x c) as [->|Hne].
    + split; [discriminate | intros N; exfalso; auto].
    + split; [|reflexivity]. intros _ [H|H]; [contradiction|].
      revert H. now apply IH.
Qed.

Lemma find_last_of_Some (s : str) (c : ascii) (i : nat) :
  find_last_of s c = Some i ->
  (i < length s)%nat
  /\ firstn (S i) s = firstn i s ++ [c]
  /\ ~ In c (skipn (S i) s).
Proof.
  revert i. induction s as [|x s IH]; simpl; [discriminate|].
  intros i. destruct (find_last_of s c) as [j|] eqn:E.
  - intros [= <-]. destruct (IH j eq_refl) as (H1 & H2 & H3).
    split; [lia|]. split; [|assumption].
    cbn [firstn app]. f_equal. exact H2.
  - destruct (Ascii.eqb_spec x c) as [->|Hne]; [|discriminate].
    intros [= <-]. split; [lia|]. split; [reflexivity|].
    simpl. now apply find_last_of_None.
Qed.

Lemma substr_in_range (s : str) (pos : nat) (count : option nat) :
  (pos <= length s)%nat ->
  substr s pos count
  = Some (match count with
          | Some n => firstn n (skipn pos s)
          | None => skipn pos s
          end).
Proof.
  intros H. unfold substr.
  destruct (Nat.ltb_spec (length s) pos); [lia | reflexivity].
Qed.

(** X20. The constructor never fails on its [substr] calls, and the
    resource root followed by the path it keeps is the path it was given;
    the resource root is empty exactly when the path is a [http:/] or
    [https:/] address or contains no slash. *)
Theorem Scene_paths_partition (_path : str) :
  exists p,
    Scene.Scene _path = Some p
    /\ Scene.m_resourceRoot p ++ Scene.m_path p = _path
    /\ (Scene.m_resourceRoot p = []
        <-> regex_search_url _path = true \/ ~ In "/"%char _path).
Proof.
  unfold Scene.Scene.
  destruct (regex_search_url _path) eqn:Eu.
  - eexists. split; [reflexivity|]. simpl. split; [reflexivity|]. tauto.
  - destruct (find_last_of _path "/"%char) as [split|] eqn:Ef.
    + destruct (find_last_of_Some _ _ _ Ef) as (Hlt & Hfirst & _).
      rewrite !substr_in_range by lia. cbn [skipn].
      eexists. split; [reflexivity|]. cbn [Scene.m_resourceRoot Scene.m_path].
      split; [apply firstn_skipn|].
      replace (split + 1)%nat with (S split) by lia. rewrite Hfirst.
      split.
      * intros H. destruct (firstn split _path); discriminate H.
      * intros [H|H]; [discriminate H|].
        apply find_last_of_None in H. congruence.
    + eexists. split; [reflexivity|]. simpl. split; [reflexivity|].
      apply find_last_of_None in Ef. tauto.
Qed.

(** X21. For a path that is no [http:/] or [https:/] address the path the
    constructor keeps is a bare file name, without a slash, and the
    resource root is empty or ends with a slash. *)
Theorem Scene_local_path_is_file_name (_path : str) :
  regex_search_url _path = false ->
  exists p,
    Scene.Scene _path = Some p
    /\ ~ In "/"%char (Scene.m_path p)
    /\ (Scene.m_resourceRoot p = []
        \/ exists dir, Scene.m_resourceRoot p = dir ++ ["/"]%char).
Proof.
  intros Eu. unfold Scene.Scene. rewrite Eu.
  destruct (find_last_of _path "/"%char) as [split|] eqn:Ef.
  - destruct (find_last_of_Some _ _ _ Ef) as (Hlt & Hfirst & Hrest).
    rewrite !substr_in_range by lia. cbn [skipn].
    eexists. split; [reflexivity|]. cbn [Scene.m_resourceRoot Scene.m_path].
    replace (split + 1)%nat with (S split) by lia.
    split; [assumption|]. right. exists (firstn split _path). exact Hfirst.
  - eexists. split; [reflexivity|]. simpl.
    apply find_last_of_None in Ef. auto.
Qed.

Lemma Scene_local_path_is_file_name_witness :
  exists p,
    Scene.Scene ["a"; "/"; "b"; "/"; "c"]%char = Some p
    /\ ~ In "/"%char (Scene.m_path p)
    /\ (Scene.m_resourceRoot p = []
        \/ exists dir, Scene.m_resourceRoot p = dir ++ ["/"]%char).
Proof.
  apply (Scene_local_path_is_file_name ["a"; "/"; "b"; "/"; "c"]%char).
  reflexivity.
Defined.

(** ** Font aliases *)

Lemma split_at_first (c : ascii) (a a' r r' : str) :
  ~ In c a -> ~ In c a' -> a ++ c :: r = a' ++ c :: r' -> a = a' /\ r = r'.
Proof.
  revert a'. induction a as [|x a IH]; intros [|y a'] Ha Ha' E;
    simpl in *.
  - inversion E. auto.
  - inversion E. subst. tauto.
  - inversion E. subst. tauto.
  - inversion E. subst.
    destruct (IH a') as [-> ->]; auto.
Qed.

(** X22. [Alias] tells fonts apart when neither family nor weight contains
    an underscore: equal aliases then come from the same family, weight
    and style. *)
Theorem Alias_injective (family style weight family' style' weight' : str) :
  ~ In "_"%char family -> ~ In "_"%char weight ->
  ~ In "_"%char family' -> ~ In "_"%char weight' ->
  FontDescription.Alias family style weight
  = FontDescription.Alias family' style' weight' ->
  family = family' /\ style = style' /\ weight = weight'.
Proof.
  intros Hf Hw Hf' Hw' E. unfold FontDescription.Alias in E.
  rewrite <- !app_assoc in E. cbn [app] in E.
  apply split_at_first in E; [|assumption|assumption].
  destruct E as [-> E].
  apply split_at_first in E; [|assumption|assumption].
  destruct E as [-> ->]. auto.
Qed.

Lemma Alias_injective_witness :
  FontDescription.Alias ["a"]%char ["b"]%char ["c"]%char
  = FontDescription.Alias ["a"]%char ["b"]%char ["c"]%char
  /\ ["a"]%char = ["a"]%char /\ ["b"]%char = ["b"]%char
  /\ ["c"]%char = ["c"]%char.
Proof.
  split; [reflexivity|].
  apply (Alias_injective ["a"]%char ["b"]%char ["c"]%char
                         ["a"]%char ["b"]%char ["c"]%char);
    try reflexivity; simpl; intros [H|[]]; discriminate H.
Defined.

(** X23. [Alias] does not tell fonts apart in general: an underscore in
    the family or the weight moves the boundary between them, so that two
    different descriptions share one alias. *)
Theorem Alias_collision (family style weight rest : str) :
  FontDescription.Alias (family ++ ["_"]%char ++ weight) style rest
  = FontDescription.Alias family style (weight ++ ["_"]%char ++ rest)
  /\ family ++ ["_"]%char ++ weight <> family.
Proof.
  split.
  - unfold FontDescription.Alias. now rewrite <- !app_assoc.
  - intros E. apply (f_equal (@length ascii)) in E.
    rewrite !length_app in E. simpl in E. lia.
Qed.

Lemma BundleAlias_type (family style weight family' style' weight' : str)
    (type type' : FontDescription.FontType) :
  FontDescription.BundleAlias family style weight type
  = FontDescription.BundleAlias family' style' weight' type' ->
  type = type'.
Proof.
  unfold FontDescription.BundleAlias.
  destruct type, type'; intros E; try reflexivity; exfalso;
    apply (f_equal (@rev ascii)) in E;
    rewrite !rev_app_distr in E; simpl in E; discriminate E.
Qed.

(** X24. [BundleAlias] determines the font type: the names it builds for a
    [wof] and for a [ttf] font never coincide. *)
Theorem BundleAlias_determines_type
    (family style weight family' style' weight' : str)
    (type type' : FontDescription.FontType) :
  FontDescription.BundleAlias family style weight type
  = FontDescription.BundleAlias family' style' weight' type' ->
  type = type'.
Proof.
  unfold FontDescription.BundleAlias.
  destruct type, type'; intros E; try reflexivity; exfalso.
  - apply (f_equal (@rev ascii)) in E.
    rewrite !rev_app_distr in E. simpl in E. discriminate E.
  - apply (f_equal (@rev ascii)) in E.
    rewrite !rev_app_distr in E. simpl in E. discriminate E.
Qed.

Lemma BundleAlias_determines_type_witness :
  FontDescription.BundleAlias ["a"]%char ["b"]%char ["c"]%char
    FontDescription.wof
  = FontDescription.BundleAlias ["a"]%char ["b"]%char ["c"]%char
      FontDescription.wof
  /\ FontDescription.wof = FontDescription.wof.
Proof.
  split; [reflexivity|].
  apply (BundleAlias_determines_type ["a"]%char ["b"]%char ["c"]%char
           ["a"]%char ["b"]%char ["c"]%char).
  reflexivity.
Defined.

(** X25. For families without a hyphen [BundleAlias] gives two
    descriptions the same name exactly when they agree on the family, on
    the type and on the weight followed by the style: weight and style are
    joined without a separator, so that characters moved from the end of
    the weight to the front of the style leave the name as it is. *)
Theorem BundleAlias_determines_family
    (family style weight family' style' weight' : str)
    (type type' : FontDescription.FontType) :
  ~ In "-"%char family -> ~ In "-"%char family' ->
  FontDescription.BundleAlias family style weight type
  = FontDescription.BundleAlias family' style' weight' type'
  <-> family = family' /\ type = type'
      /\ weight ++ style = weight' ++ style'.
Proof.
  intros Hf Hf'. split.
  - intros E.
    assert (Et : type = type')
      by (eapply BundleAlias_type; exact E).
    subst type'. unfold FontDescription.BundleAlias in E.
    assert (E' : ((family ++ ["-"]%char) ++ weight) ++ style
                 = ((family' ++ ["-"]%char) ++ weight') ++ style').
    { destruct type; eapply app_inv_tail; exact E. }
    rewrite <- !app_assoc in E'. cbn [app] in E'.
    apply split_at_first in E'; [|assumption|assumption].
    destruct E' as [-> E']. auto.
  - intros (-> & -> & E). unfold FontDescription.BundleAlias.
    rewrite <- !(app_assoc (family' ++ ["-"]%char)). now rewrite E.
Qed.

Lemma BundleAlias_determines_family_witness :
  FontDescription.BundleAlias ["a"]%char ["b"; "c"]%char ["d"]%char
    FontDescription.ttf
  = FontDescription.BundleAlias ["a"]%char ["c"]%char ["d"; "b"]%char
      FontDescription.ttf
  <-> ["a"]%char = ["a"]%char
      /\ FontDescription.ttf = FontDescription.ttf
      /\ ["d"]%char ++ ["b"; "c"]%char = ["d"; "b"]%char ++ ["c"]%char.
Proof.
  apply (BundleAlias_determines_family ["a"]%char ["b"; "c"]%char ["d"]%char
           ["a"]%char ["c"]%char ["d"; "b"]%char);
    simpl; intros [H|[]]; discriminate H.
Defined.
